(** * Railway routing: shortest paths, the journey state machine and the
      graph editor

    A shallow embedding of [src/App.jsx] (the priority queue, [dijkstra],
    the React state of [App] with its handlers and effects) and of
    [src/RailwayMap.jsx] (the station and edge editor), followed by the
    properties proved about them.

    Conventions of the embedding.
    - A JavaScript number that the program only ever builds from integers
      ([parseInt], sums of weights, [0]) is a [Z], the integer that the
      double holds; [NaN] and [Infinity] are separate constructors where
      the program can hold them. Numbers are compared as integers, and the
      one place where the program adds two of them, the candidate distance
      of [dijkstra], rounds the sum as a double does ([double], [plus]).
    - A plain object used as a dictionary ([distances], [previous],
      [weights]) is a [gmap string _]; a missing key reads as [undefined].
      Station ids are letters, so no key meets a name that objects inherit.
    - [null] and [undefined] are [None]; a string is truthy when it is not
      the empty string.
    - A [while] loop takes a step budget (fuel); running out of budget is
      [None], a returned value is [Some _].
    - A log line is the message given to [addLog]; the clock prefix that
      [addLog] puts in front of it is left out. *)

From stdpp Require Import base decidable option list gmap strings sorting.
From Stdlib Require Import ZArith Lia DecimalString.

Local Open Scope string_scope.
Local Open Scope list_scope.
Local Open Scope Z_scope.

(** ** JavaScript helpers *)

Module Js.

(** [!!s] for a string [s]. *)
Definition truthy (s : string) : bool := bool_decide (s ≠ "").

(** [!!x] for a value that is [null] or a string. *)
Definition truthy_opt (x : option string) : bool :=
  match x with
  | Some s => truthy s
  | None => false
  end.

(** [Array.prototype.indexOf]: the first index holding [x], or [-1]. *)
Fixpoint indexOf (x : string) (l : list string) : Z :=
  match l with
  | [] => -1
  | y :: l' =>
      if decide (y = x) then 0
      else let i := indexOf x l' in if decide (i = -1) then -1 else i + 1
  end.

(** [l.slice(0, stop)]: a negative [stop] counts from the end. *)
Definition slice0 (stop : Z) (l : list string) : list string :=
  let n := Z.of_nat (length l) in
  let k := if decide (stop < 0) then Z.max 0 (n + stop) else Z.min stop n in
  take (Z.to_nat k) l.

(** [l.join(sep)]. *)
Fixpoint join (sep : string) (l : list string) : string :=
  match l with
  | [] => ""
  | [x] => x
  | x :: l' => x +:+ sep +:+ join sep l'
  end.

(** Template interpolation of an integer below [10^21]: its decimal
    digits. (From [10^21] on JavaScript writes an exponent; no number that
    large is written to the log of a state that is looked at here.) *)
Definition show (z : Z) : string := NilZero.string_of_int (Z.to_int z).

(** [String.fromCharCode(n)]. *)
Definition fromCharCode (n : nat) : string :=
  String (Ascii.ascii_of_nat n) EmptyString.

(** [Array.from({ length: count }, (_, i) => String.fromCharCode(65 + i))]. *)
Definition letters (count : nat) : list string :=
  (fun i => fromCharCode (65 + i)) <$> seq 0 count.

End Js.

(** ** [class PriorityQueue] *)

Module PriorityQueue.

(** An element [{ val, priority }] of [this.values]. *)
Record entry := Entry { val : string; priority : Z }.

(** Stable insertion: [x] goes in front of the first element whose priority
    is not smaller than its own. *)
Fixpoint insert (x : entry) (l : list entry) : list entry :=
  match l with
  | [] => [x]
  | y :: l' =>
      if decide (priority x <= priority y) then x :: y :: l'
      else y :: insert x l'
  end.

(** [this.values.sort((a, b) => a.priority - b.priority)]: the stable sort
    of the array by ascending priority. *)
Definition sort (values : list entry) : list entry := foldr insert [] values.

(** [enqueue(val, priority)]: push, then sort. *)
Definition enqueue (v : string) (p : Z) (values : list entry) : list entry :=
  sort (values ++ [Entry v p]).

(** [dequeue()]: [this.values.shift()], the first element and what is left
    of the array; [undefined] is [None]. *)
Definition dequeue (values : list entry) : option (entry * list entry) :=
  match values with
  | [] => None
  | x :: rest => Some (x, rest)
  end.

(** [isEmpty()]: [this.values.length === 0]. *)
Definition isEmpty (values : list entry) : bool :=
  bool_decide (length values = 0%nat).

End PriorityQueue.

(** ** The shortest-path engine: [dijkstra] of [App] *)

(** An element of the [nodes] state, [{ id }]. *)
Record Node := MkNode { id : string }.

(** An element of the [edges] state, [{ source, target, weight }]. *)
Record Edge := MkEdge { source : string; target : string; weight : Z }.

(** A value of the [distances] object: a number or [Infinity]. *)
Inductive Dist :=
| Fin (d : Z)
| Infinity.

(** The numbers of the program are IEEE 754 doubles. Those that a search
    meets are sums of link weights, which are positive integers in every
    state that [handleAddEdge] lets the program reach: [double x] is the
    double that the non-negative integer [x] is rounded to (to nearest,
    ties to even). Below [2^53] that is [x] itself; from there on it is the
    nearest multiple of the spacing [2^(log2 x - 52)], and [Infinity] when
    that multiple is [2^1024] or more. *)
Definition double (x : Z) : Dist :=
  if decide (x < 2 ^ 53) then Fin x
  else
    let ulp := 2 ^ (Z.log2 x - 52) in
    let q := x / ulp in
    let r := x mod ulp in
    let q' := if decide (2 * r < ulp) then q
              else if decide (ulp < 2 * r) then q + 1
              else if Z.even q then q else q + 1 in
    if decide (q' * ulp < 2 ^ 1024) then Fin (q' * ulp) else Infinity.

(** [a + b] on two doubles that hold non-negative integers. *)
Definition plus (a b : Z) : Dist := double (a + b).

(** The local variables of one call of [dijkstra]. *)
Record Search := MkSearch {
  distances : gmap string Dist;
  previous : gmap string (option string);
  pq : list PriorityQueue.entry
}.

(** [candidate < distances[neighborNodeId]]; a missing key is [undefined]
    and every comparison with it is false. *)
Definition improves (candidate : Z) (old : option Dist) : bool :=
  match old with
  | Some (Fin d) => bool_decide (candidate < d)
  | Some Infinity => true
  | None => false
  end.

(** [x !== Infinity], where a missing key is [undefined]. *)
Definition notInfinity (x : option Dist) : bool :=
  match x with
  | Some Infinity => false
  | _ => true
  end.

(** [x === 0]. *)
Definition isZero (x : option Dist) : bool :=
  match x with
  | Some (Fin d) => bool_decide (d = 0)
  | _ => false
  end.

(** The other end of [neighborEdge] as seen from [smallest]. *)
Definition neighborNodeId (smallest : string) (neighborEdge : Edge) : string :=
  if decide (source neighborEdge = smallest) then target neighborEdge
  else source neighborEdge.

(** The body of [neighbors.forEach]. [distances[smallest]] is read anew for
    every neighbour; when it is not a number the candidate is [Infinity] or
    [NaN] and the comparison fails. The sum is a sum of doubles: when it
    overflows the candidate is [Infinity], and [Infinity < x] is false for
    every [x]. *)
Definition relax (smallest : string) (st : Search) (neighborEdge : Edge) : Search :=
  match distances st !! smallest with
  | Some (Fin d) =>
      let n := neighborNodeId smallest neighborEdge in
      match plus d (weight neighborEdge) with
      | Fin candidate =>
          if improves candidate (distances st !! n) then
            {| distances := <[n := Fin candidate]> (distances st);
               previous := <[n := Some smallest]> (previous st);
               pq := PriorityQueue.enqueue n candidate (pq st) |}
          else st
      | Infinity => st
      end
  | _ => st
  end.

(** [edges.filter(edge => edge.source === smallest || edge.target === smallest)]. *)
Definition neighbors (edges : list Edge) (smallest : string) : list Edge :=
  filter (fun edge => source edge = smallest ∨ target edge = smallest) edges.

(** The inner loop [while (currentNode) { path.unshift(currentNode);
    currentNode = previous[currentNode]; }]; [fuel] bounds the number of
    times its body runs. *)
Fixpoint unwind (fuel : nat) (prev : gmap string (option string))
    (currentNode : option string) (path : list string) : option (list string) :=
  if Js.truthy_opt currentNode then
    match fuel, currentNode with
    | S fuel', Some c => unwind fuel' prev (mjoin (prev !! c)) (c :: path)
    | _, _ => None
    end
  else Some path.

(** The loop [while (!pq.isEmpty()) { ... }] and the final [return []];
    [fuel] bounds the number of times a loop body runs, the inner loop
    taking what the outer loop has left. [dequeue] of a queue that is not
    empty always gives an entry. *)
Fixpoint search (fuel : nat) (edges : list Edge) (endId : string) (st : Search)
    : option (list string) :=
  if PriorityQueue.isEmpty (pq st) then Some []
  else
    match fuel, PriorityQueue.dequeue (pq st) with
    | S fuel', Some (e, rest) =>
        let smallest := PriorityQueue.val e in
        if decide (smallest = endId) then
          unwind fuel' (previous st) (Some endId) []
        else
          let st := {| distances := distances st;
                       previous := previous st;
                       pq := rest |} in
          if Js.truthy smallest
             && notInfinity (distances st !! smallest)
          then search fuel' edges endId
                 (foldl (relax smallest) st (neighbors edges smallest))
          else search fuel' edges endId st
    | _, _ => None
    end.

(** The two objects filled by [nodes.forEach]. *)
Definition initDistances (nodes : list Node) (startId : string) : gmap string Dist :=
  foldl (fun m node =>
           <[id node := if decide (id node = startId) then Fin 0 else Infinity]> m)
        ∅ nodes.

Definition initPrevious (nodes : list Node) : gmap string (option string) :=
  foldl (fun m node => <[id node := None]> m) ∅ nodes.

(** The state in front of the main loop. *)
Definition initSearch (nodes : list Node) (startId : string) : Search :=
  let d := initDistances nodes startId in
  {| distances := d;
     previous := initPrevious nodes;
     pq := if isZero (d !! startId)
           then PriorityQueue.enqueue startId 0 []
           else [] |}.

(** [dijkstra(startId, endId)] over the [nodes] and [edges] it closes over. *)
Definition dijkstra (fuel : nat) (nodes : list Node) (edges : list Edge)
    (startId endId : string) : option (list string) :=
  if negb (Js.truthy startId) || negb (Js.truthy endId)
     || bool_decide (length nodes = 0%nat)
  then Some []
  else search fuel edges endId (initSearch nodes startId).

(** ** The component [App]: state, handlers and effects *)

Module App.

(** What [parseInt] returns: an integer or [NaN]. *)
Inductive Num :=
| Int (z : Z)
| NaN.

(** The [numStations] state: [parseInt] of the input, or [''] while the
    input is empty. *)
Inductive Count :=
| Parsed (n : Num)
| Blank.

(** The [useState] cells of [App]. [sourceNode] and [destNode] are [''] while
    nothing is selected; [trainPosition] is [null] or a station id. *)
Record State := MkState {
  numStations : Count;
  nodes : list Node;
  edges : list Edge;
  sourceNode : string;
  destNode : string;
  shortestPath : list string;
  trainPosition : option string;
  isSimulating : bool;
  logs : list string
}.

Definition setNumStations (v : Count) (st : State) : State :=
  MkState v (nodes st) (edges st) (sourceNode st) (destNode st)
    (shortestPath st) (trainPosition st) (isSimulating st) (logs st).

Definition setNodes (v : list Node) (st : State) : State :=
  MkState (numStations st) v (edges st) (sourceNode st) (destNode st)
    (shortestPath st) (trainPosition st) (isSimulating st) (logs st).

Definition setEdges (v : list Edge) (st : State) : State :=
  MkState (numStations st) (nodes st) v (sourceNode st) (destNode st)
    (shortestPath st) (trainPosition st) (isSimulating st) (logs st).

Definition setSourceNode (v : string) (st : State) : State :=
  MkState (numStations st) (nodes st) (edges st) v (destNode st)
    (shortestPath st) (trainPosition st) (isSimulating st) (logs st).

Definition setDestNode (v : string) (st : State) : State :=
  MkState (numStations st) (nodes st) (edges st) (sourceNode st) v
    (shortestPath st) (trainPosition st) (isSimulating st) (logs st).

Definition setShortestPath (v : list string) (st : State) : State :=
  MkState (numStations st) (nodes st) (edges st) (sourceNode st) (destNode st)
    v (trainPosition st) (isSimulating st) (logs st).

Definition setTrainPosition (v : option string) (st : State) : State :=
  MkState (numStations st) (nodes st) (edges st) (sourceNode st) (destNode st)
    (shortestPath st) v (isSimulating st) (logs st).

Definition setIsSimulating (v : bool) (st : State) : State :=
  MkState (numStations st) (nodes st) (edges st) (sourceNode st) (destNode st)
    (shortestPath st) (trainPosition st) v (logs st).

Definition setLogs (f : list string -> list string) (st : State) : State :=
  MkState (numStations st) (nodes st) (edges st) (sourceNode st) (destNode st)
    (shortestPath st) (trainPosition st) (isSimulating st) (f (logs st)).

(** [addLog(message)]: newest line first, ten lines kept. *)
Definition addLog (message : string) (st : State) : State :=
  setLogs (fun prev => take 10 (message :: prev)) st.

Definition stopSimulation (st : State) : State :=
  addLog "Simulation stopped."
    (setTrainPosition None (setIsSimulating false st)).

(** [isNaN(numStations) || numStations < 2 || numStations > 15]; [''] is
    [0] in both tests. *)
Definition countRejected (c : Count) : bool :=
  match c with
  | Parsed NaN => true
  | Parsed (Int n) => bool_decide (n < 2) || bool_decide (15 < n)
  | Blank => true
  end.

(** The length that [Array.from({ length: numStations }, ...)] uses. *)
Definition countLength (c : Count) : nat :=
  match c with
  | Parsed (Int n) => Z.to_nat n
  | _ => O
  end.

Definition showCount (c : Count) : string :=
  match c with
  | Parsed (Int n) => Js.show n
  | Parsed NaN => "NaN"
  | Blank => ""
  end.

(** The effect "Graph Initialization", run when [numStations] changes. *)
Definition initGraph (st : State) : State :=
  if countRejected (numStations st) then st
  else
    let stationIds := Js.letters (countLength (numStations st)) in
    let newNodes := MkNode <$> stationIds in
    let st := setNodes newNodes st in
    let st := setEdges [] st in
    let st := setSourceNode "" st in
    let st := setDestNode "" st in
    let st := setShortestPath [] st in
    let st := stopSimulation st in
    addLog ("Generated " +:+ showCount (numStations st) +:+ " new stations.") st.

(** The effect "Dynamic Re-routing", run when [edges] or [nodes] is
    replaced. *)
Definition reroute (fuel : nat) (st : State) : option State :=
  match trainPosition st with
  | Some pos =>
      if isSimulating st && Js.truthy pos && Js.truthy (destNode st) then
        let st1 :=
          addLog ("Network change detected. Recalculating path from current station "
                  +:+ pos +:+ ".") st in
        newPathSegment ← dijkstra fuel (nodes st) (edges st) pos (destNode st);
        if bool_decide (0 < length newPathSegment)%nat then
          let oldPathTraversed :=
            Js.slice0 (Js.indexOf pos (shortestPath st)) (shortestPath st) in
          let newFullPath := oldPathTraversed ++ newPathSegment in
          if decide (newFullPath ≠ shortestPath st) then
            Some (addLog ("Path updated. New route: " +:+ Js.join " -> " newFullPath)
                    (setShortestPath newFullPath st1))
          else Some st1
        else
          Some (stopSimulation
                  (addLog ("No alternative path found from " +:+ pos
                           +:+ ". Stopping simulation.") st1))
      else Some st
  | None => Some st
  end.

(** [from === to || isNaN(weight) || weight <= 0]. *)
Definition invalidEdge (from to : string) (weight : Num) : bool :=
  match weight with
  | Int w => bool_decide (from = to) || bool_decide (w <= 0)
  | NaN => true
  end.

(** The predicate of [edges.find] in [handleAddEdge]. *)
Definition joins (from to : string) (edge : Edge) : Prop :=
  (source edge = from ∧ target edge = to) ∨ (source edge = to ∧ target edge = from).

Global Instance joins_dec from to edge : Decision (joins from to edge).
Proof. unfold joins. apply _. Defined.

(** [handleAddEdge], given the form's two stations and [parseInt] of its
    weight. [edge === existingEdge] holds for the found element alone, the
    one at the index [find] stopped at. Past the guard the weight is a
    number. *)
Definition handleAddEdge (from to : string) (weight : Num) (st : State) : State :=
  if invalidEdge from to weight then
    addLog "Error: Invalid edge. Ensure stations are different and weight is positive." st
  else
    match weight with
    | Int w =>
        match list_find (joins from to) (edges st) with
        | Some (i, existingEdge) =>
            addLog ("Updated weight between " +:+ from +:+ " and " +:+ to
                    +:+ " to " +:+ Js.show w +:+ ".")
              (setEdges (<[i := MkEdge (source existingEdge) (target existingEdge) w]>
                           (edges st)) st)
        | None =>
            addLog ("Added railroad between " +:+ from +:+ " and " +:+ to
                    +:+ " with distance " +:+ Js.show w +:+ ".")
              (setEdges (edges st ++ [MkEdge from to w]) st)
        end
    | NaN => st
    end.

Definition handleCalculatePath (fuel : nat) (st : State) : option State :=
  if negb (Js.truthy (sourceNode st)) || negb (Js.truthy (destNode st)) then
    Some (addLog "Error: Please select both source and destination stations." st)
  else
    let st1 := stopSimulation st in
    path ← dijkstra fuel (nodes st) (edges st) (sourceNode st) (destNode st);
    if bool_decide (0 < length path)%nat then
      Some (addLog ("Shortest path from " +:+ sourceNode st +:+ " to " +:+ destNode st
                    +:+ ": " +:+ Js.join " -> " path)
              (setTrainPosition None (setShortestPath path st1)))
    else
      Some (addLog ("No path found from " +:+ sourceNode st +:+ " to "
                    +:+ destNode st +:+ ".")
              (setShortestPath [] st1)).

Definition startSimulation (st : State) : State :=
  if bool_decide (0 < length (shortestPath st))%nat
     && Js.truthy (sourceNode st) && Js.truthy (destNode st)
  then
    addLog ("Starting journey at Station " +:+ sourceNode st
            +:+ ". Waiting for dispatch.")
      (setTrainPosition (Some (sourceNode st)) (setIsSimulating true st))
  else addLog "Cannot start: Calculate a path first." st.

(** [handleProceed]. [shortestPath[currentIndex + 1]] is [undefined] out of
    range; the text of an absent station in a log line is left empty. *)
Definition handleProceed (st : State) : State :=
  if negb (isSimulating st) || negb (Js.truthy_opt (trainPosition st)) then st
  else
    let pos := default "" (trainPosition st) in
    let currentIndex := Js.indexOf pos (shortestPath st) in
    if decide (currentIndex < Z.of_nat (length (shortestPath st)) - 1) then
      let nextPos := shortestPath st !! Z.to_nat (currentIndex + 1) in
      let st1 :=
        addLog ("Train proceeding from Station " +:+ pos +:+ " to "
                +:+ default "" nextPos +:+ ".") st in
      let st2 := setTrainPosition nextPos st1 in
      if decide (nextPos = Some (destNode st)) then
        setIsSimulating false
          (addLog ("Train has arrived at destination: Station " +:+ destNode st +:+ ".")
             st2)
      else st2
    else st.

(** The [onBlur] handler of the station-count input: the value it passes to
    [setNumStations]. *)
Definition blurNumStations (typed : Num) : Count :=
  let val := match typed with
             | Int n => if decide (n < 2) then 2 else n
             | NaN => 2
             end in
  let val := if decide (15 < val) then 15 else val in
  Parsed (Int val).

Global Instance Num_eq_dec : EqDecision Num.
Proof. solve_decision. Defined.

Global Instance Count_eq_dec : EqDecision Count.
Proof. solve_decision. Defined.

(** What the user can do. [step] gives the state after React has run the
    handler and the effects it triggers: the graph effect runs when
    [numStations] takes a new value, the re-route effect when [edges] or
    [nodes] is replaced. *)
Inductive Event :=
| ChangeNumStations (v : Count)
| BlurNumStations (typed : Num)
| AddEdge (from to : string) (weight : Num)
| SelectSource (v : string)
| SelectDest (v : string)
| CalculatePath
| StartJourney
| Stop
| Proceed.

(** [setNumStations(v)] followed by the effects it triggers. *)
Definition changeNumStations (fuel : nat) (v : Count) (st : State) : option State :=
  if decide (v = numStations st) then Some st
  else
    let st' := initGraph (setNumStations v st) in
    if countRejected v then Some st' else reroute fuel st'.

Definition step (fuel : nat) (ev : Event) (st : State) : option State :=
  match ev with
  | ChangeNumStations v => changeNumStations fuel v st
  | BlurNumStations typed => changeNumStations fuel (blurNumStations typed) st
  | AddEdge from to weight =>
      let st' := handleAddEdge from to weight st in
      if invalidEdge from to weight then Some st' else reroute fuel st'
  | SelectSource v => Some (setSourceNode v st)
  | SelectDest v => Some (setDestNode v st)
  | CalculatePath => handleCalculatePath fuel st
  | StartJourney => Some (startSimulation st)
  | Stop => Some (stopSimulation st)
  | Proceed => Some (handleProceed st)
  end.

Fixpoint run (fuel : nat) (evs : list Event) (st : State) : option State :=
  match evs with
  | [] => Some st
  | ev :: evs' => st' ← step fuel ev st; run fuel evs' st'
  end.

(** The state after the first render and its effects: [useState] initial
    values, then the graph effect for [numStations = 6]. *)
Definition initial : State :=
  initGraph (MkState (Parsed (Int 6)) [] [] "" "" [] None false []).

End App.

(** ** The component [DynamicNonLinearGraph] of [RailwayMap.jsx] *)

Module RailwayMap.

(** [generateStations(count)]; [Array.from] reads a negative length as 0. *)
Definition generateStations (count : Z) : list string :=
  Js.letters (Z.to_nat count).

(** [makeEdgeKey(a, b)]: [[a, b].sort().join("-")], the default sort being
    the order of the strings' code units. *)
Definition makeEdgeKey (a b : string) : string :=
  if String.ltb b a then b +:+ "-" +:+ a else a +:+ "-" +:+ b.

(** The [useState] cells of the component, with the [alert]s shown so far
    (oldest first). The counts and weights are the integers that [Number]
    returns; [stations[i]] of a missing index is written [""]. *)
Record State := MkState {
  stationCount : Z;
  stations : list string;
  edges : list (string * string);
  weights : gmap string Z;
  newEdgeStart : string;
  newEdgeEnd : string;
  newEdgeWeight : Z;
  alerts : list string
}.

Definition initial : State :=
  let stations := generateStations 3 in
  MkState 3 stations [] ∅ (default "" (stations !! 0%nat))
    (default "" (stations !! 1%nat)) 1 [].

Definition changeStationCount (count : Z) (st : State) : State :=
  let c := Z.max 2 (Z.min 26 count) in
  let newStations := generateStations c in
  let first := default "" (newStations !! 0%nat) in
  let second := default "" (newStations !! 1%nat) in
  MkState c newStations [] ∅ first
    (if Js.truthy second then second else first)
    (newEdgeWeight st) (alerts st).

Definition alert (message : string) (st : State) : State :=
  MkState (stationCount st) (stations st) (edges st) (weights st)
    (newEdgeStart st) (newEdgeEnd st) (newEdgeWeight st) (alerts st ++ [message]).

Definition addEdge (st : State) : State :=
  if decide (newEdgeStart st = newEdgeEnd st) then
    alert "Start and end stations must differ" st
  else
    let key := makeEdgeKey (newEdgeStart st) (newEdgeEnd st) in
    match list_find (fun '(a, b) => makeEdgeKey a b = key) (edges st) with
    | Some _ => alert "Edge already exists" st
    | None =>
        MkState (stationCount st) (stations st)
          (edges st ++ [(newEdgeStart st, newEdgeEnd st)])
          (<[key := newEdgeWeight st]> (weights st))
          (newEdgeStart st) (newEdgeEnd st) (newEdgeWeight st) (alerts st)
    end.

Definition updateWeight (key : string) (val : Z) (st : State) : State :=
  MkState (stationCount st) (stations st) (edges st)
    (<[key := val]> (weights st))
    (newEdgeStart st) (newEdgeEnd st) (newEdgeWeight st) (alerts st).

Definition setNewEdgeStart (v : string) (st : State) : State :=
  MkState (stationCount st) (stations st) (edges st) (weights st)
    v (newEdgeEnd st) (newEdgeWeight st) (alerts st).

Definition setNewEdgeEnd (v : string) (st : State) : State :=
  MkState (stationCount st) (stations st) (edges st) (weights st)
    (newEdgeStart st) v (newEdgeWeight st) (alerts st).

Definition setNewEdgeWeight (v : Z) (st : State) : State :=
  MkState (stationCount st) (stations st) (edges st) (weights st)
    (newEdgeStart st) (newEdgeEnd st) v (alerts st).

End RailwayMap.

(** ** What [App] renders from its state *)

Module View.

(** The test of the [stroke] and [stroke-width] callbacks of the links: the
    two ends of the drawn link [d] sit at neighbouring indices of the path,
    as [indexOf] finds them. [d.source.id] and [d.target.id] are the ids of
    the two stations that the force layout has put in place of the ids of
    the link. *)
Definition inPath (shortestPath : list string) (d : Edge) : bool :=
  let sourceIndex := Js.indexOf (source d) shortestPath in
  let targetIndex := Js.indexOf (target d) shortestPath in
  bool_decide (-1 < sourceIndex) && bool_decide (-1 < targetIndex)
  && bool_decide (Z.abs (sourceIndex - targetIndex) = 1).

(** [disabled] of the button "Proceed to Next Station". *)
Definition proceedDisabled (st : App.State) : bool :=
  negb (App.isSimulating st)
  || bool_decide (App.trainPosition st = Some (App.destNode st)).

End View.

(** ** Vocabulary of the properties *)

(** The station ids of a node list. *)
Definition stationIds (nodes : list Node) : list string := id <$> nodes.

(** [u] and [v] are the two ends of a link of weight [w]. *)
Definition linked (edges : list Edge) (u v : string) (w : Z) : Prop :=
  ∃ edge, edge ∈ edges ∧ weight edge = w ∧
    ((source edge = u ∧ target edge = v) ∨ (source edge = v ∧ target edge = u)).

(** [walk nodes edges p c]: [p] is a non-empty sequence of stations of the
    graph, consecutive ones joined by a link, and [c] is the sum of the
    weights of the links taken. *)
Inductive walk (nodes : list Node) (edges : list Edge) : list string -> Z -> Prop :=
| walk_one v :
    v ∈ stationIds nodes -> walk nodes edges [v] 0
| walk_step u v p c w :
    u ∈ stationIds nodes -> linked edges u v w -> walk nodes edges (v :: p) c ->
    walk nodes edges (u :: v :: p) (w + c).

(** [e] can be reached from [s]. *)
Definition reachable (nodes : list Node) (edges : list Edge) (s e : string) : Prop :=
  ∃ p c, walk nodes edges p c ∧ head p = Some s ∧ last p = Some e.

(** The weight invariant of the data model. *)
Definition positiveWeights (edges : list Edge) : Prop :=
  Forall (fun edge => 0 < weight edge) edges.

(** No sum that a search forms is rounded: every weight, taken as many
    times as there are stations, stays below [2^53]. *)
Definition exactSums (nodes : list Node) (edges : list Edge) : Prop :=
  Forall (fun edge => weight edge * Z.of_nat (length nodes) < 2 ^ 53) edges.

(** A non-negative integer that a double can hold (the bound [2^1024]
    apart): small, or a multiple of the spacing at its size. *)
Definition isDouble (d : Z) : Prop :=
  0 <= d ∧ (d < 2 ^ 53 ∨ d mod 2 ^ (Z.log2 d - 52) = 0).

(** Station ids are non-empty strings. *)
Definition properIds (nodes : list Node) : Prop :=
  Forall (fun v => Js.truthy v = true) (stationIds nodes).

(** The two ends of a link of [App]. *)
Definition ends (edge : Edge) : string * string := (source edge, target edge).

(** Two pairs of stations are the same unordered pair. *)
Definition samePair (p q : string * string) : Prop :=
  (p.1 = q.1 ∧ p.2 = q.2) ∨ (p.1 = q.2 ∧ p.2 = q.1).

(** At most one link for each unordered pair of stations. *)
Definition uniquePairs (links : list (string * string)) : Prop :=
  ∀ (i j : nat) p q,
    links !! i = Some p -> links !! j = Some q -> samePair p q -> i = j.

(** The letters that station ids are taken from. *)
Definition alphabet : list string :=
  ["A"; "B"; "C"; "D"; "E"; "F"; "G"; "H"; "I"; "J"; "K"; "L"; "M";
   "N"; "O"; "P"; "Q"; "R"; "S"; "T"; "U"; "V"; "W"; "X"; "Y"; "Z"].

(** The position of an active train is a station of the current path. *)
Definition onPath (st : App.State) : Prop :=
  App.isSimulating st = true ->
  ∃ pos, App.trainPosition st = Some pos ∧ pos ∈ App.shortestPath st.

(** [n] clicks on "Proceed to Next Station". *)
Definition proceeds (n : nat) (st : App.State) : App.State :=
  Nat.iter n App.handleProceed st.

(** An active journey has a train position, and the path holds no empty id. *)
Definition hasTrain (st : App.State) : Prop :=
  (App.isSimulating st = true -> Js.truthy_opt (App.trainPosition st) = true) ∧
  Forall (fun v => Js.truthy v = true) (App.shortestPath st).

(** [a] and [b] stand next to each other in [l], in this order. *)
Definition nextTo (l : list string) (a b : string) : Prop :=
  ∃ k : nat, l !! k = Some a ∧ l !! S k = Some b.

(** The stations are the first [k] letters, for some [k] from 2 to 15. *)
Definition lettered (st : App.State) : Prop :=
  ∃ k : nat, (2 <= k <= 15)%nat ∧ stationIds (App.nodes st) = take k alphabet.

(** A link whose two ends are the same station. *)
Definition selfLoop (edge : Edge) : Prop := source edge = target edge.

(** A string of one character, as every generated station id is. *)
Definition oneChar (s : string) : Prop := String.length s = 1%nat.

(** Every link of [RailwayMap] has its weight under its key. *)
Definition weighted (st : RailwayMap.State) : Prop :=
  ∀ a b, (a, b) ∈ RailwayMap.edges st ->
         is_Some (RailwayMap.weights st !! RailwayMap.makeEdgeKey a b).

(** What can be done in [RailwayMap]. *)
Inductive MapEvent :=
| MapChangeStationCount (count : Z)
| MapAddEdge
| MapUpdateWeight (key : string) (val : Z)
| MapSetNewEdgeStart (v : string)
| MapSetNewEdgeEnd (v : string)
| MapSetNewEdgeWeight (v : Z).

Definition mapStep (ev : MapEvent) (st : RailwayMap.State) : RailwayMap.State :=
  match ev with
  | MapChangeStationCount count => RailwayMap.changeStationCount count st
  | MapAddEdge => RailwayMap.addEdge st
  | MapUpdateWeight key val => RailwayMap.updateWeight key val st
  | MapSetNewEdgeStart v => RailwayMap.setNewEdgeStart v st
  | MapSetNewEdgeEnd v => RailwayMap.setNewEdgeEnd v st
  | MapSetNewEdgeWeight v => RailwayMap.setNewEdgeWeight v st
  end.

Definition mapRun (evs : list MapEvent) (st : RailwayMap.State) : RailwayMap.State :=
  foldl (fun st ev => mapStep ev st) st evs.

(** The queue is in ascending order of priority. *)
Definition ascending (values : list PriorityQueue.entry) : Prop :=
  StronglySorted (fun a b => PriorityQueue.priority a <= PriorityQueue.priority b) values.

(** ** The state of a search and what the main loop keeps true *)

Section Search.
Import PriorityQueue.

Variables (nodes : list Node) (edges : list Edge) (s e : string).

(** [x] is a number not above [b]. *)
Definition atMost (x : option Dist) (b : Z) : Prop :=
  ∃ d, x = Some (Fin d) ∧ d <= b.

(** Every link of [L] at [u] whose other end is a station has been relaxed
    from the distance [du] of [u]. *)
Definition closedFor (L : list Edge) (d : gmap string Dist) (u : string) (du : Z) : Prop :=
  ∀ edge, edge ∈ L -> source edge = u ∨ target edge = u ->
    neighborNodeId u edge ∈ stationIds nodes ->
    atMost (d !! neighborNodeId u edge) (du + weight edge).

(** The invariant of the main loop as long as no sum is rounded. While the
    links of [cur] are being relaxed, [L] holds those already done; at the
    head of the loop [L] is the whole edge list. *)
Record Inv (cur : string) (L : list Edge) (st : Search) : Prop := {
  inv_dom : ∀ v, is_Some (distances st !! v) ↔ v ∈ stationIds nodes;
  inv_src : distances st !! s = Some (Fin 0);
  inv_src_prev : mjoin (previous st !! s) = None;
  inv_nonneg : ∀ v x, distances st !! v = Some (Fin x) -> 0 <= x;
  inv_chain : ∀ v x, distances st !! v = Some (Fin x) -> v ≠ s ->
    ∃ u du w, previous st !! v = Some (Some u) ∧ Js.truthy u = true ∧
      distances st !! u = Some (Fin du) ∧ linked edges u v w ∧ du + w <= x;
  inv_queue : ∀ q, q ∈ pq st ->
    ∃ x, distances st !! val q = Some (Fin x) ∧ x <= priority q;
  inv_sorted : ascending (pq st);
  inv_settled : ∀ u du, distances st !! u = Some (Fin du) -> Js.truthy u = true ->
    Entry u du ∈ pq st ∨
    closedFor (if decide (u = cur) then L else edges) (distances st) u du;
  inv_target : ∀ x, distances st !! e = Some (Fin x) -> ∃ q, q ∈ pq st ∧ val q = e
}.

(** [rooted d prev v p]: following [previous] back from [v] leads to the
    start along [p], read from the start; no station comes twice, each step
    is a link, and the distances do not fall towards the start. *)
Inductive rooted (d : gmap string Dist) (prev : gmap string (option string)) :
    string -> list string -> Prop :=
| rooted_src x :
    d !! s = Some (Fin x) -> rooted d prev s [s]
| rooted_step v u p du x w :
    v ≠ s -> prev !! v = Some (Some u) -> Js.truthy u = true ->
    d !! u = Some (Fin du) -> d !! v = Some (Fin x) -> du <= x ->
    linked edges u v w -> v ∉ p -> rooted d prev u p ->
    rooted d prev v (p ++ [v]).

(** What the main loop keeps true whatever the weights are: rounded sums
    included. *)
Record Inv0 (st : Search) : Prop := {
  inv0_dom : ∀ v, is_Some (distances st !! v) ↔ v ∈ stationIds nodes;
  inv0_src : distances st !! s = Some (Fin 0);
  inv0_src_prev : mjoin (previous st !! s) = None;
  inv0_double : ∀ v x, distances st !! v = Some (Fin x) -> isDouble x;
  inv0_rooted : ∀ v x, distances st !! v = Some (Fin x) ->
    ∃ p, rooted (distances st) (previous st) v p;
  inv0_queue : ∀ q, q ∈ pq st -> ∃ x, distances st !! val q = Some (Fin x)
}.

(** Every distance that is a number was formed along different stations
    [P], none of them farther than [v] now, as the sum of one weight less
    than [P] has stations: taken as many times as there are stations, it is
    not above [length P - 1] times [2^53] when every weight, taken as often,
    is below [2^53]. *)
Definition Hist (d : gmap string Dist) : Prop :=
  ∀ v x, d !! v = Some (Fin x) ->
    ∃ P, NoDup P ∧ v ∈ P ∧
      (∀ y, y ∈ P -> ∃ dy, d !! y = Some (Fin dy) ∧ dy <= x) ∧
      x * Z.of_nat (length nodes) <= (Z.of_nat (length P) - 1) * 2 ^ 53.

(** The termination measure: how many stations are still at [Infinity], and
    the sum of the distances that are numbers. *)
Definition infWeight (d : gmap string Dist) (v : string) : nat :=
  match d !! v with
  | Some Infinity => 1
  | _ => 0
  end.

Definition finWeight (d : gmap string Dist) (v : string) : nat :=
  match d !! v with
  | Some (Fin x) => Z.to_nat x
  | _ => 0
  end.

Definition infCount (d : gmap string Dist) : nat :=
  sum_list (infWeight d <$> stationIds nodes).

Definition total (d : gmap string Dist) : nat :=
  sum_list (finWeight d <$> stationIds nodes).

Definition smaller (st' st : Search) : Prop :=
  (infCount (distances st') < infCount (distances st))%nat ∨
  (infCount (distances st') = infCount (distances st) ∧
   (total (distances st') < total (distances st))%nat).

(** What a returned sequence is, whatever the weights are: empty, or a
    walk from start to end on which no station comes twice. *)
Definition Route (r : list string) : Prop :=
  r = [] ∨
  ∃ c, walk nodes edges r c ∧ head r = Some s ∧ last r = Some e ∧ NoDup r.

(** What a returned sequence satisfies as long as no sum is rounded. *)
Definition Post (r : list string) : Prop :=
  (r = [] ∧ (properIds nodes -> ¬ reachable nodes edges s e)) ∨
  (∃ c, walk nodes edges r c ∧ head r = Some s ∧ last r = Some e ∧
     (properIds nodes -> ∀ p' c', walk nodes edges p' c' ->
        head p' = Some s -> last p' = Some e -> c <= c')).

End Search.

(** ** A tactic for graphs that are written out *)

(** The weight of the link between two given stations of a list of links
    that is written out. *)
Ltac link_weight H :=
  let edge := fresh "edge" in
  let Hin := fresh "Hin" in
  let Hends := fresh "Hends" in
  destruct H as (edge & Hin & <- & Hends);
  repeat (apply elem_of_cons in Hin as [->|Hin]);
  try (by apply elem_of_nil in Hin);
  simpl in Hends; destruct Hends as [[? ?]|[? ?]]; try discriminate; simpl.

(** ** The priority queue *)

Section PriorityQueueFacts.
Import PriorityQueue.

Lemma insert_perm x l : insert x l ≡ₚ x :: l.
Proof.
  induction l as [|y l IH]; simpl; [done|].
  case_decide; [done|]. rewrite IH. apply Permutation_swap.
Qed.

Lemma sort_perm l : sort l ≡ₚ l.
Proof.
  induction l as [|x l IH]; simpl; [done|].
  rewrite insert_perm. by rewrite IH.
Qed.

Lemma insert_ascending x l : ascending l -> ascending (insert x l).
Proof.
  unfold ascending. induction 1 as [|y l Hl IH Hy]; simpl.
  - repeat constructor.
  - case_decide.
    + constructor; [by constructor|].
      constructor; [done|].
      eapply Forall_impl; [exact Hy|]. simpl. intros; lia.
    + constructor; [done|].
      rewrite insert_perm. constructor; [lia|done].
Qed.

Lemma sort_ascending l : ascending (sort l).
Proof.
  induction l as [|x l IH]; simpl; [constructor|].
  by apply insert_ascending.
Qed.

Lemma elem_of_enqueue q v p values :
  q ∈ enqueue v p values ↔ q ∈ values ∨ q = Entry v p.
Proof.
  unfold enqueue. rewrite sort_perm, elem_of_app, list_elem_of_singleton. tauto.
Qed.

Lemma enqueue_ascending v p values : ascending (enqueue v p values).
Proof. apply sort_ascending. Qed.

Lemma ascending_head q rest x :
  ascending (q :: rest) -> x ∈ q :: rest -> priority q <= priority x.
Proof.
  intros Hs Hx. inversion Hs as [|? ? _ Hall]; subst.
  apply elem_of_cons in Hx as [->|Hx]; [lia|].
  rewrite Forall_forall in Hall. by apply Hall.
Qed.

Lemma ascending_tail q rest : ascending (q :: rest) -> ascending rest.
Proof. by inversion 1. Qed.

End PriorityQueueFacts.

(** ** Sums over the station list *)

Lemma sum_list_le_pointwise (f g : string -> nat) (l : list string) :
  (∀ x, x ∈ l -> (f x <= g x)%nat) ->
  (sum_list (f <$> l) <= sum_list (g <$> l))%nat.
Proof.
  induction l as [|x l IH]; csimpl; intros H; [lia|].
  pose proof (H x ltac:(left)).
  assert (sum_list (f <$> l) <= sum_list (g <$> l))%nat.
  { apply IH. intros y Hy. apply H. by right. }
  lia.
Qed.

Lemma sum_list_lt_pointwise (f g : string -> nat) (l : list string) (v : string) :
  (∀ x, x ∈ l -> (f x <= g x)%nat) -> v ∈ l -> (f v < g v)%nat ->
  (sum_list (f <$> l) < sum_list (g <$> l))%nat.
Proof.
  induction l as [|x l IH]; csimpl; intros H Hv Hlt.
  - by apply elem_of_nil in Hv.
  - pose proof (H x ltac:(left)).
    assert (Hle : (sum_list (f <$> l) <= sum_list (g <$> l))%nat).
    { apply sum_list_le_pointwise. intros y Hy. apply H. by right. }
    apply elem_of_cons in Hv as [Hv|Hv].
    + subst v. lia.
    + assert (sum_list (f <$> l) < sum_list (g <$> l))%nat.
      { apply IH; [|done..]. intros y Hy. apply H. by right. }
      lia.
Qed.

Lemma sum_list_eq_pointwise (f g : string -> nat) (l : list string) :
  (∀ x, x ∈ l -> f x = g x) -> sum_list (f <$> l) = sum_list (g <$> l).
Proof.
  induction l as [|x l IH]; csimpl; intros H; [done|].
  rewrite (H x ltac:(left)), IH; [done|]. intros y Hy. apply H. by right.
Qed.

(** ** Sums of doubles *)

Lemma double_small x : x < 2 ^ 53 -> double x = Fin x.
Proof. intros H. unfold double. by rewrite decide_True. Qed.

Lemma plus_exact a b : a + b < 2 ^ 53 -> plus a b = Fin (a + b).
Proof. apply double_small. Qed.

Lemma isDouble_0 : isDouble 0.
Proof. split; [done|by left]. Qed.

(** The spacing of the doubles around [x]. *)
Lemma ulp_facts x :
  2 ^ 53 <= x ->
  1 <= Z.log2 x - 52 ∧ 0 < 2 ^ (Z.log2 x - 52) ∧
  2 ^ 52 * 2 ^ (Z.log2 x - 52) = 2 ^ Z.log2 x ∧
  2 ^ Z.log2 x <= x ∧ 2 ^ 52 <= x / 2 ^ (Z.log2 x - 52) ∧
  x / 2 ^ (Z.log2 x - 52) < 2 ^ 53.
Proof.
  intros Hx. set (e := Z.log2 x - 52).
  assert (0 < x) as Hpos by lia.
  destruct (Z.log2_spec x Hpos) as [Hlo Hhi].
  assert (53 <= Z.log2 x) as Hlog.
  { apply Z.log2_le_pow2; lia. }
  assert (1 <= e) as He by (unfold e; lia).
  assert (0 < 2 ^ e) as Hu by (apply Z.pow_pos_nonneg; lia).
  assert (2 ^ 52 * 2 ^ e = 2 ^ Z.log2 x) as Hmul.
  { rewrite <- Z.pow_add_r by lia. f_equal. unfold e. lia. }
  repeat split; try done.
  - apply Z.div_le_lower_bound; [done|]. rewrite Z.mul_comm, Hmul. done.
  - apply Z.div_lt_upper_bound; [done|].
    replace (2 ^ e * 2 ^ 53) with (2 ^ Z.succ (Z.log2 x)); [done|].
    rewrite <- Z.pow_add_r by lia. f_equal. unfold e. lia.
Qed.

(** Rounding never goes below a double that is not above the exact value,
    and what it gives is a double. *)
Lemma double_ge x c d :
  isDouble d -> d <= x -> double x = Fin c -> d <= c ∧ isDouble c.
Proof.
  intros [Hd0 Hd] Hdx. unfold double.
  destruct (decide (x < 2 ^ 53)) as [Hsmall|Hbig].
  { intros [= <-]. split; [done|]. split; [lia|by left]. }
  assert (2 ^ 53 <= x) as Hx by lia.
  destruct (ulp_facts x Hx) as (He & Hu & Hmul & Hlo & Hq1 & Hq2).
  set (e := Z.log2 x - 52) in *. set (u := 2 ^ e) in *.
  pose proof (Z.div_mod x u ltac:(lia)) as Hdm.
  pose proof (Z.mod_pos_bound x u Hu) as Hr.
  set (q := x / u) in *. set (r := x mod u) in *.
  assert (d <= q * u) as Hfloor.
  { assert (2 ^ 53 <= 2 ^ Z.log2 x) as Hp.
    { apply Z.pow_le_mono_r; [lia|]. apply Z.log2_le_pow2; lia. }
    destruct Hd as [Hd|Hd]; [nia|].
    destruct (decide (d < 2 ^ 53)) as [?|Hdbig]; [nia|].
    assert (Z.log2 d <= Z.log2 x) as Hlog by (apply Z.log2_le_mono; lia).
    destruct (decide (Z.log2 d = Z.log2 x)) as [Heq|Hne].
    - rewrite Heq in Hd. fold e in Hd. fold u in Hd.
      apply Z.mod_divide in Hd; [|lia]. destruct Hd as [k ->].
      assert (k <= q); [|nia].
      unfold q. apply Z.div_le_lower_bound; [done|]. lia.
    - assert (d < 2 ^ Z.log2 x); [|nia].
      destruct (Z.log2_spec d ltac:(lia)) as [_ Hhi].
      eapply Z.lt_le_trans; [exact Hhi|].
      apply Z.pow_le_mono_r; lia. }
  assert (∀ q', q <= q' <= q + 1 -> d <= q' * u ∧ isDouble (q' * u)) as Hres.
  { intros q' Hq'. split; [nia|]. split; [nia|]. right.
    assert (0 < q') as Hq'pos by lia.
    unfold u. rewrite Z.log2_mul_pow2 by lia.
    destruct (decide (q' < 2 ^ 53)) as [Hlt|Hge].
    - assert (Z.log2 q' = 52) as ->.
      { apply Z.log2_unique; lia. }
      replace (e + 52 - 52) with e by lia. apply Z.mod_mul. lia.
    - assert (q' = 2 ^ 53) as -> by lia.
      rewrite Z.log2_pow2 by lia.
      replace (e + 53 - 52) with (e + 1) by lia.
      replace (2 ^ 53 * 2 ^ e) with (2 ^ 52 * 2 ^ (e + 1)).
      + apply Z.mod_mul. apply Z.pow_nonzero; lia.
      + rewrite <- !Z.pow_add_r by lia. f_equal. lia. }
  destruct (Z.even q); repeat case_decide; try done; intros [= <-];
    apply Hres; lia.
Qed.

Lemma plus_ge d w c :
  isDouble d -> 0 <= w -> plus d w = Fin c -> d <= c ∧ isDouble c.
Proof. intros Hd Hw. apply double_ge; [done|lia]. Qed.

(** ** The main loop: invariant, termination, result *)

Section SearchFacts.
Import PriorityQueue.

Variables (nodes : list Node) (edges : list Edge) (s e : string).
Hypothesis Hweights : positiveWeights edges.

Local Abbreviation V := (stationIds nodes).
Local Abbreviation Inv := (Inv nodes edges s e).
Local Abbreviation closedFor := (closedFor nodes).
Local Abbreviation smaller := (smaller nodes).
Local Abbreviation rooted := (rooted edges s).
Local Abbreviation Inv0 := (Inv0 nodes edges s).
Local Abbreviation Hist := (Hist nodes).

Lemma weight_pos edge : edge ∈ edges -> 0 < weight edge.
Proof. revert edge. by apply Forall_forall. Qed.

Lemma linked_neighbor edge u :
  edge ∈ edges -> source edge = u ∨ target edge = u ->
  linked edges u (neighborNodeId u edge) (weight edge).
Proof.
  intros Hin Hinc. exists edge. split; [done|]. split; [done|].
  unfold neighborNodeId. case_decide; [by left|].
  destruct Hinc; [done|]. by right.
Qed.

Lemma closed_linked d u du v w :
  closedFor edges d u du -> linked edges u v w -> v ∈ V -> atMost (d !! v) (du + w).
Proof.
  intros Hc (edge & Hin & <- & Hends) Hv.
  assert (neighborNodeId u edge = v) as Hn.
  { unfold neighborNodeId. case_decide as Hsrc.
    - destruct Hends as [[_ ?]|[? ?]]; congruence.
    - destruct Hends as [[? _]|[? _]]; congruence. }
  rewrite <- Hn. apply Hc; [done| |by rewrite Hn].
  destruct Hends as [[? _]|[_ ?]]; [by left|by right].
Qed.

Lemma atMost_insert (d : gmap string Dist) (n : string) (c : Z) (k : string) (b : Z) :
  (∀ y, d !! n = Some (Fin y) -> c <= y) ->
  atMost (d !! k) b -> atMost (<[n := Fin c]> d !! k) b.
Proof.
  intros Hn (x & Hx & Hle). destruct (decide (n = k)) as [->|Hne].
  - rewrite lookup_insert_eq. exists c. split; [done|]. specialize (Hn _ Hx). lia.
  - rewrite lookup_insert_ne by done. by exists x.
Qed.

Lemma improves_true c old :
  improves c old = true ->
  old = Some Infinity ∨ ∃ y, old = Some (Fin y) ∧ c < y.
Proof.
  destruct old as [[y|]|]; simpl; intros H; [|by left|done].
  right. exists y. split; [done|]. by apply bool_decide_eq_true in H.
Qed.

Lemma improves_false c old :
  improves c old = false -> old = None ∨ ∃ y, old = Some (Fin y) ∧ y <= c.
Proof.
  destruct old as [[y|]|]; simpl; intros H; [|done|by left].
  right. exists y. split; [done|]. apply bool_decide_eq_false in H. lia.
Qed.

(** *** The measure *)

(** Lowering one distance makes the measure smaller. *)
Lemma smaller_insert st n c pr q :
  n ∈ V -> 0 <= c ->
  (distances st !! n = Some Infinity ∨ ∃ y, distances st !! n = Some (Fin y) ∧ c < y) ->
  smaller (MkSearch (<[n := Fin c]> (distances st)) pr q) st.
Proof.
  intros Hn Hc Hold. unfold smaller, infCount, total. simpl.
  destruct Hold as [Hinf|(y & Hy & Hlt)].
  - left. apply sum_list_lt_pointwise with (v := n); [|done|].
    + intros x _. unfold infWeight. destruct (decide (n = x)) as [->|Hne].
      * rewrite lookup_insert_eq, Hinf. lia.
      * by rewrite lookup_insert_ne.
    + unfold infWeight. rewrite lookup_insert_eq, Hinf. lia.
  - right. split.
    + apply sum_list_eq_pointwise. intros x _. unfold infWeight.
      destruct (decide (n = x)) as [->|Hne].
      * by rewrite lookup_insert_eq, Hy.
      * by rewrite lookup_insert_ne.
    + apply sum_list_lt_pointwise with (v := n); [|done|].
      * intros x _. unfold finWeight. destruct (decide (n = x)) as [->|Hne].
        -- rewrite lookup_insert_eq, Hy. lia.
        -- by rewrite lookup_insert_ne.
      * unfold finWeight. rewrite lookup_insert_eq, Hy. lia.
Qed.

Lemma smaller_trans st1 st2 st3 : smaller st1 st2 -> smaller st2 st3 -> smaller st1 st3.
Proof. unfold smaller. lia. Qed.

(** *** Walks *)

Lemma walk_nonneg p c : walk nodes edges p c -> 0 <= c.
Proof.
  induction 1 as [|u v p c w _ (edge & Hin & <- & _) _ IH]; [done|].
  pose proof (weight_pos _ Hin). lia.
Qed.

Lemma walk_head_station u p c : walk nodes edges (u :: p) c -> u ∈ V.
Proof. by inversion 1. Qed.

Lemma walk_snoc p c u v w :
  walk nodes edges p c -> last p = Some u -> linked edges u v w -> v ∈ V ->
  walk nodes edges (p ++ [v]) (c + w).
Proof.
  intros Hwalk. revert u. induction Hwalk as [x Hx|x y p c w' Hx Hl Hw IH];
    intros u Hlast Hlink Hv.
  - simpl in Hlast. injection Hlast as ->. simpl.
    replace (0 + w) with (w + 0) by lia.
    apply walk_step; [done..|]. by apply walk_one.
  - rewrite last_cons_cons in Hlast.
    replace (w' + c + w) with (w' + (c + w)) by lia.
    change ((x :: y :: p) ++ [v]) with (x :: (y :: p) ++ [v]).
    simpl. apply walk_step; [done..|].
    change (y :: p ++ [v]) with ((y :: p) ++ [v]). by eapply IH.
Qed.

(** *** One turn of the main loop *)

Lemma search_step_eq fuel st q rest :
  pq st = q :: rest -> val q ≠ e ->
  search (S fuel) edges e st =
  let st0 := MkSearch (distances st) (previous st) rest in
  if Js.truthy (val q) && notInfinity (distances st !! val q)
  then search fuel edges e (foldl (relax (val q)) st0 (neighbors edges (val q)))
  else search fuel edges e st0.
Proof.
  intros Hpq Hne. simpl. rewrite Hpq. simpl. by destruct (decide (val q = e)).
Qed.

(** *** The state in front of the loop *)

Lemma initDistances_lookup v :
  initDistances nodes s !! v =
  if decide (v ∈ V) then Some (if decide (v = s) then Fin 0 else Infinity) else None.
Proof.
  unfold initDistances, stationIds.
  assert (∀ m : gmap string Dist,
    foldl (fun m node =>
             <[id node := if decide (id node = s) then Fin 0 else Infinity]> m) m nodes
      !! v =
    if decide (v ∈ id <$> nodes)
    then Some (if decide (v = s) then Fin 0 else Infinity) else m !! v) as H.
  { induction nodes as [|node l IH]; intros m; csimpl.
    - done.
    - rewrite IH.
      destruct (decide (v ∈ id <$> l)) as [Hin|Hin];
        destruct (decide (v ∈ id node :: (id <$> l))) as [Hin'|Hin']; try done.
      + exfalso. apply Hin'. by right.
      + apply elem_of_cons in Hin' as [->|?]; [|done]. by rewrite lookup_insert_eq.
      + rewrite lookup_insert_ne; [done|]. intros <-. apply Hin'. by left. }
  rewrite H. by case_decide.
Qed.

Lemma initPrevious_lookup v :
  initPrevious nodes !! v = if decide (v ∈ V) then Some None else None.
Proof.
  unfold initPrevious, stationIds.
  assert (∀ m : gmap string (option string),
    foldl (fun m node => <[id node := None]> m) m nodes !! v =
    if decide (v ∈ id <$> nodes) then Some None else m !! v) as H.
  { induction nodes as [|node l IH]; intros m; csimpl.
    - done.
    - rewrite IH.
      destruct (decide (v ∈ id <$> l)) as [Hin|Hin];
        destruct (decide (v ∈ id node :: (id <$> l))) as [Hin'|Hin']; try done.
      + exfalso. apply Hin'. by right.
      + apply elem_of_cons in Hin' as [->|?]; [|done]. by rewrite lookup_insert_eq.
      + rewrite lookup_insert_ne; [done|]. intros <-. apply Hin'. by left. }
  rewrite H. by case_decide.
Qed.

Lemma initSearch_pq_present :
  s ∈ V -> pq (initSearch nodes s) = [Entry s 0].
Proof.
  intros Hs. unfold initSearch. simpl. rewrite initDistances_lookup.
  rewrite decide_True by done. by rewrite decide_True.
Qed.

Lemma initSearch_pq_absent :
  s ∉ V -> pq (initSearch nodes s) = [].
Proof.
  intros Hs. unfold initSearch. simpl. rewrite initDistances_lookup.
  by rewrite decide_False.
Qed.

Lemma initSearch_inv : s ∈ V -> Inv s edges (initSearch nodes s).
Proof.
  intros Hs.
  assert (∀ v x, initDistances nodes s !! v = Some (Fin x) -> v = s ∧ x = 0) as Hfin.
  { intros v x. rewrite initDistances_lookup. repeat case_decide; try done.
    by intros [= <-]. }
  constructor.
  - intros v. simpl. rewrite initDistances_lookup. case_decide; [by eauto|].
    split; [by intros [? ?]|done].
  - simpl. rewrite initDistances_lookup. by rewrite !decide_True.
  - simpl. rewrite initPrevious_lookup. by rewrite decide_True.
  - intros v x Hv. apply Hfin in Hv. lia.
  - intros v x Hv Hne. by destruct (Hfin _ _ Hv).
  - intros q. rewrite initSearch_pq_present by done.
    intros ->%list_elem_of_singleton. simpl. exists 0.
    rewrite initDistances_lookup. by rewrite !decide_True.
  - rewrite initSearch_pq_present by done. repeat constructor.
  - intros u du Hu _. apply Hfin in Hu as [-> ->]. left.
    rewrite initSearch_pq_present by done. by left.
  - intros x Hx. apply Hfin in Hx as [-> ->]. exists (Entry s 0).
    rewrite initSearch_pq_present by done. split; [by left|done].
Qed.

Lemma initSearch_inv0 : s ∈ V -> Inv0 (initSearch nodes s).
Proof.
  intros Hs.
  assert (∀ v x, initDistances nodes s !! v = Some (Fin x) -> v = s ∧ x = 0) as Hfin.
  { intros v x. rewrite initDistances_lookup. repeat case_decide; try done.
    by intros [= <-]. }
  assert (initDistances nodes s !! s = Some (Fin 0)) as Hsrc.
  { rewrite initDistances_lookup. by rewrite !decide_True. }
  constructor.
  - intros v. simpl. rewrite initDistances_lookup. case_decide; [by eauto|].
    split; [by intros [? ?]|done].
  - done.
  - simpl. rewrite initPrevious_lookup. by rewrite decide_True.
  - intros v x Hv. apply Hfin in Hv as [_ ->]. apply isDouble_0.
  - intros v x Hv. apply Hfin in Hv as [-> _]. exists [s].
    by apply (rooted_src _ _ _ _ 0).
  - intros q. rewrite initSearch_pq_present by done.
    intros ->%list_elem_of_singleton. simpl. eauto.
Qed.

(** *** Whatever the weights: the chain of [previous] *)

Lemma rooted_last d prev v p : rooted d prev v p -> last p = Some v.
Proof. destruct 1; [done|apply last_snoc]. Qed.

Lemma rooted_head d prev v p : rooted d prev v p -> head p = Some s.
Proof.
  induction 1 as [|v u p du x w _ _ _ _ _ _ _ _ _ IH]; [done|].
  by destruct p.
Qed.

Lemma rooted_nodup d prev v p : rooted d prev v p -> NoDup p.
Proof.
  induction 1 as [|v u p du x w _ _ _ _ _ _ _ Hnot _ IH]; [apply NoDup_singleton|].
  apply NoDup_app. split; [done|]. split; [|apply NoDup_singleton].
  by intros y Hy ->%list_elem_of_singleton.
Qed.

(** No station of the chain is farther than its end. *)
Lemma rooted_dist d prev v p :
  rooted d prev v p ->
  ∃ dv, d !! v = Some (Fin dv) ∧
        ∀ y, y ∈ p -> ∃ dy, d !! y = Some (Fin dy) ∧ dy <= dv.
Proof.
  induction 1 as [x Hx|v u p du x w Hvs Hp Ht Hu Hv Hle Hl Hnot Hr IH].
  - exists x. split; [done|]. intros y ->%list_elem_of_singleton.
    exists x. split; [done|lia].
  - exists x. split; [done|].
    intros y [Hy| ->%list_elem_of_singleton]%elem_of_app.
    + destruct IH as (du' & Hu' & IH). rewrite Hu in Hu'. injection Hu' as <-.
      destruct (IH y Hy) as (dy & Hdy & ?). exists dy. split; [done|lia].
    + exists x. split; [done|lia].
Qed.

Lemma rooted_walk d prev v p :
  (∀ y x, d !! y = Some (Fin x) -> y ∈ V) ->
  rooted d prev v p -> ∃ c, walk nodes edges p c.
Proof.
  intros Hdom.
  induction 1 as [x Hx|v u p du x w Hvs Hp Ht Hu Hv Hle Hl Hnot Hr [c IH]].
  - exists 0. apply walk_one. eauto.
  - exists (c + w). eapply walk_snoc; [done|by eapply rooted_last|done|eauto].
Qed.

(** The inner loop walks the chain back and returns it. *)
Lemma rooted_unwind d prev v p :
  mjoin (prev !! s) = None -> rooted d prev v p -> Js.truthy v = true ->
  ∀ acc fuel, (length p < fuel)%nat ->
    unwind fuel prev (Some v) acc = Some (p ++ acc).
Proof.
  intros Hsrc.
  induction 1 as [x Hx|v u p du x w Hvs Hp Ht Hu Hv Hle Hl Hnot Hr IH];
    intros Htv acc [|fuel] Hfuel; try (simpl in Hfuel; lia).
  - simpl. rewrite Htv, Hsrc. by destruct fuel.
  - simpl. rewrite Htv, Hp. simpl. rewrite length_app in Hfuel. simpl in Hfuel.
    rewrite IH by (done || lia). by rewrite <- app_assoc.
Qed.

(** One improvement: [n] gets the distance [c] and the predecessor [u]. *)
Section Update.

Variables (d : gmap string Dist) (prev : gmap string (option string)).
Variables (n u : string) (c du w : Z) (pu : list string).
Hypothesis Hns : n ≠ s.
Hypothesis Hu : d !! u = Some (Fin du).
Hypothesis Hle : du <= c.
Hypothesis Htu : Js.truthy u = true.
Hypothesis Hl : linked edges u n w.
Hypothesis Hlow : ∀ y, d !! n = Some (Fin y) -> c < y.
Hypothesis Hpu : rooted d prev u pu.

Local Abbreviation d' := (<[n := Fin c]> d).
Local Abbreviation prev' := (<[n := Some u]> prev).

Lemma update_avoid z p : rooted d prev z p -> n ∉ p -> rooted d' prev' z p.
Proof.
  induction 1 as [x Hx|v u0 p du0 x w0 Hvs Hp Ht Hu0 Hv Hle0 Hl0 Hnot Hr IH];
    intros Hn.
  - apply (rooted_src _ _ _ _ x). by rewrite lookup_insert_ne.
  - apply not_elem_of_app in Hn as [Hn1 Hn2].
    apply not_elem_of_cons in Hn2 as [Hnv _].
    assert (n ≠ u0) as Hnu0.
    { intros ->. apply Hn1. eapply last_Some_elem_of. by eapply rooted_last. }
    eapply rooted_step; try done.
    + by rewrite lookup_insert_ne.
    + by rewrite lookup_insert_ne.
    + by rewrite lookup_insert_ne.
    + by apply IH.
Qed.

Lemma update_pu : n ∉ pu.
Proof.
  intros Hin. destruct (rooted_dist _ _ _ _ Hpu) as (du' & Hu' & Hall).
  rewrite Hu in Hu'. injection Hu' as <-.
  destruct (Hall _ Hin) as (dn & Hdn & ?). specialize (Hlow _ Hdn). lia.
Qed.

Lemma update_new : rooted d' prev' n (pu ++ [n]).
Proof.
  assert (n ≠ u) as Hnu.
  { intros ->. specialize (Hlow _ Hu). lia. }
  eapply rooted_step; try done.
  - by rewrite lookup_insert_eq.
  - by rewrite lookup_insert_ne.
  - by rewrite lookup_insert_eq.
  - apply update_pu.
  - apply update_avoid; [done|apply update_pu].
Qed.

Lemma update_old z p :
  rooted d prev z p ->
  ((n ∉ p) ∧ rooted d' prev' z p) ∨
  (∃ p1 p2, p = p1 ++ n :: p2 ∧ rooted d' prev' z (pu ++ n :: p2)).
Proof.
  induction 1 as [x Hx|v u0 p du0 x w0 Hvs Hp Ht Hu0 Hv Hle0 Hl0 Hnot Hr IH].
  - left. assert (n ∉ [s]) as Hn by (by intros ->%list_elem_of_singleton).
    split; [done|]. apply update_avoid; [by apply (rooted_src _ _ _ _ x)|done].
  - destruct (decide (v = n)) as [->|Hvn].
    { right. exists p, []. split; [done|]. apply update_new. }
    destruct IH as [[Hn Hr']|(p1 & p2 & -> & Hr')].
    + left. assert (n ∉ p ++ [v]) as Hn'.
      { apply not_elem_of_app. split; [done|].
        by intros ->%list_elem_of_singleton. }
      split; [done|]. apply update_avoid; [by eapply rooted_step|done].
    + right. exists p1, (p2 ++ [v]). split; [by rewrite <- app_assoc|].
      destruct (rooted_dist _ _ _ _ Hr) as (du0' & Hu0' & Hall).
      rewrite Hu0 in Hu0'. injection Hu0' as <-.
      destruct (Hall n) as (dn & Hdn & Hdn0).
      { apply elem_of_app. right. by left. }
      pose proof (Hlow _ Hdn) as Hcn.
      replace (pu ++ n :: p2 ++ [v]) with ((pu ++ n :: p2) ++ [v])
        by (by rewrite <- app_assoc).
      destruct (decide (u0 = n)) as [->|Hu0n].
      * eapply rooted_step with (u := n) (du := c) (x := x) (w := w0); try done.
        -- by rewrite lookup_insert_ne.
        -- by rewrite lookup_insert_eq.
        -- by rewrite lookup_insert_ne.
        -- lia.
        -- intros [Hin|Hin]%elem_of_app.
           ++ destruct (rooted_dist _ _ _ _ Hpu) as (du' & Hu' & Hall').
              rewrite Hu in Hu'. injection Hu' as <-.
              destruct (Hall' _ Hin) as (dv & Hdv & ?).
              rewrite Hv in Hdv. injection Hdv as <-. lia.
           ++ apply Hnot. apply elem_of_app. by right.
      * eapply rooted_step with (u := u0) (du := du0) (x := x) (w := w0); try done.
        -- by rewrite lookup_insert_ne.
        -- by rewrite lookup_insert_ne.
        -- by rewrite lookup_insert_ne.
        -- intros [Hin|Hin]%elem_of_app.
           ++ destruct (rooted_dist _ _ _ _ Hpu) as (du' & Hu' & Hall').
              rewrite Hu in Hu'. injection Hu' as <-.
              destruct (Hall' _ Hin) as (dv & Hdv & ?).
              rewrite Hv in Hdv. injection Hdv as <-. lia.
           ++ apply Hnot. apply elem_of_app. by right.
Qed.

Lemma rooted_update z x :
  (∀ v y, d !! v = Some (Fin y) -> ∃ p, rooted d prev v p) ->
  d' !! z = Some (Fin x) -> ∃ p, rooted d' prev' z p.
Proof.
  intros Hall. destruct (decide (n = z)) as [<-|Hne].
  - intros _. eexists. apply update_new.
  - rewrite lookup_insert_ne by done. intros Hz.
    destruct (Hall _ _ Hz) as [p Hp].
    destruct (update_old _ _ Hp) as [[_ Hr]|(p1 & p2 & _ & Hr)]; eauto.
Qed.

End Update.

(** *** Whatever the weights: one relaxation, and the main loop *)

Lemma relax_inv0 u du st edge :
  Inv0 st -> distances st !! u = Some (Fin du) -> Js.truthy u = true ->
  edge ∈ edges -> source edge = u ∨ target edge = u ->
  Inv0 (relax u st edge) ∧
  distances (relax u st edge) !! u = Some (Fin du) ∧
  (relax u st edge = st ∨ smaller (relax u st edge) st).
Proof.
  intros HI Hdu Htu Hin Hinc.
  pose proof (inv0_double _ _ _ _ HI _ _ Hdu) as Hdd.
  pose proof (weight_pos _ Hin) as Hw.
  pose proof (linked_neighbor _ _ Hin Hinc) as Hlink.
  unfold relax. rewrite Hdu.
  set (n := neighborNodeId u edge) in *.
  destruct (plus du (weight edge)) as [c|] eqn:Hplus; [|by eauto].
  destruct (plus_ge du (weight edge) c Hdd ltac:(lia) Hplus) as [Hle Hdc].
  destruct (improves c (distances st !! n)) eqn:Himp; [|by eauto].
  apply improves_true in Himp as Hold.
  assert (n ∈ V) as HnV.
  { apply (inv0_dom _ _ _ _ HI). destruct Hold as [->|(y & -> & _)]; eauto. }
  assert (∀ y, distances st !! n = Some (Fin y) -> c < y) as Hlow.
  { intros y Hy. rewrite Hy in Hold. destruct Hold as [|(y' & [= <-] & ?)]; [done|lia]. }
  assert (n ≠ s) as Hns.
  { intros Heq. rewrite Heq in Hlow.
    specialize (Hlow _ (inv0_src _ _ _ _ HI)). destruct Hdd. lia. }
  assert (n ≠ u) as Hnu.
  { intros Heq. rewrite Heq in Hlow. specialize (Hlow _ Hdu). lia. }
  destruct (inv0_rooted _ _ _ _ HI _ _ Hdu) as [pu Hpu].
  split; [|split].
  - constructor; simpl.
    + intros v. destruct (decide (n = v)) as [<-|Hne].
      * rewrite lookup_insert_eq. split; [done|eauto].
      * rewrite lookup_insert_ne by done. apply (inv0_dom _ _ _ _ HI).
    + rewrite lookup_insert_ne by done. apply (inv0_src _ _ _ _ HI).
    + rewrite lookup_insert_ne by done. apply (inv0_src_prev _ _ _ _ HI).
    + intros v x. destruct (decide (n = v)) as [<-|Hne].
      * rewrite lookup_insert_eq. by intros [= <-].
      * rewrite lookup_insert_ne by done. apply (inv0_double _ _ _ _ HI).
    + intros v x. eapply rooted_update; try done.
      apply (inv0_rooted _ _ _ _ HI).
    + intros q Hq. apply elem_of_enqueue in Hq as [Hq| ->].
      * destruct (inv0_queue _ _ _ _ HI _ Hq) as (x & Hx).
        destruct (decide (n = val q)) as [Heq|Hne].
        -- rewrite <- Heq, lookup_insert_eq. eauto.
        -- rewrite lookup_insert_ne by done. eauto.
      * simpl. rewrite lookup_insert_eq. eauto.
  - simpl. by rewrite lookup_insert_ne.
  - right. apply smaller_insert; [done|destruct Hdc; lia|done].
Qed.

Lemma relax_all_inv0 u du todo :
  ∀ st,
    Inv0 st -> distances st !! u = Some (Fin du) -> Js.truthy u = true ->
    (∀ edge, edge ∈ todo -> edge ∈ edges ∧ (source edge = u ∨ target edge = u)) ->
    Inv0 (foldl (relax u) st todo) ∧
    (foldl (relax u) st todo = st ∨ smaller (foldl (relax u) st todo) st).
Proof.
  induction todo as [|edge todo IH]; intros st HI Hdu Htu Htodo; simpl.
  - split; [done|by left].
  - destruct (Htodo edge ltac:(left)) as [Hin Hinc].
    destruct (relax_inv0 u du st edge HI Hdu Htu Hin Hinc) as (HI1 & Hdu1 & Hm1).
    destruct (IH (relax u st edge) HI1 Hdu1 Htu) as (HI2 & Hm2).
    { intros edge' Hin'. apply Htodo. by right. }
    split; [done|].
    destruct Hm2 as [Heq|Hm2]; [by rewrite Heq|]. right.
    destruct Hm1 as [Heq|Hm1]; [by rewrite Heq in Hm2 |- *|]. by eapply smaller_trans.
Qed.

(** The main loop returns, and what it returns is empty or a route. *)
Lemma search_sound :
  Js.truthy e = true ->
  ∀ (a b c : nat) st,
    infCount nodes (distances st) = a -> total nodes (distances st) = b ->
    length (pq st) = c -> Inv0 st ->
    ∃ n r, (∀ fuel, (n <= fuel)%nat -> search fuel edges e st = Some r) ∧
           Route nodes edges s e r.
Proof.
  intros He a. induction a as [a IHa] using lt_wf_ind.
  intros b. induction b as [b IHb] using lt_wf_ind.
  intros c. induction c as [c IHc] using lt_wf_ind.
  intros st Ha Hb Hc HI.
  destruct (pq st) as [|q rest] eqn:Hpq.
  - exists O, []. split; [|by left].
    intros fuel _. destruct fuel; simpl; by rewrite Hpq.
  - destruct (inv0_queue _ _ _ _ HI q) as (dq & Hdq).
    { rewrite Hpq. by left. }
    destruct (decide (val q = e)) as [Hqe|Hqe].
    + rewrite Hqe in Hdq.
      destruct (inv0_rooted _ _ _ _ HI _ _ Hdq) as [p Hp].
      exists (S (S (length p))), p. split.
      * intros [|fuel] Hfuel; [lia|]. simpl. rewrite Hpq. simpl.
        destruct (decide (val q = e)); [|done].
        rewrite (rooted_unwind _ _ _ _ (inv0_src_prev _ _ _ _ HI) Hp He) by lia.
        by rewrite app_nil_r.
      * right. destruct (rooted_walk _ _ _ _ ltac:(intros y x Hy; apply (inv0_dom _ _ _ _ HI); eauto) Hp)
          as [cost Hwalk].
        exists cost. split; [done|]. split; [by eapply rooted_head|].
        split; [by eapply rooted_last|by eapply rooted_nodup].
    + set (st0 := MkSearch (distances st) (previous st) rest) in *.
      assert (Inv0 st0) as HI0.
      { destruct HI as [H1 H2 H3 H4 H5 H6]. constructor; try done.
        intros q' Hq'. simpl in Hq'. apply H6. rewrite Hpq. by right. }
      assert (∃ st',
                 (∀ fuel, search (S fuel) edges e st = search fuel edges e st') ∧
                 Inv0 st' ∧
                 ((distances st' = distances st ∧ length (pq st') = length rest) ∨
                  smaller st' st)) as (st' & Hstep & HI' & Hm).
      { destruct (Js.truthy (val q)) eqn:Htq.
        - exists (foldl (relax (val q)) st0 (neighbors edges (val q))).
          destruct (relax_all_inv0 (val q) dq (neighbors edges (val q)) st0 HI0 Hdq Htq)
            as (HI1 & Hm1).
          { intros edge Hin. unfold neighbors in Hin.
            apply list_elem_of_filter in Hin as [? ?]. done. }
          split; [|split; [done|]].
          + intros fuel. rewrite (search_step_eq fuel st q rest Hpq Hqe).
            simpl. by rewrite Htq, Hdq.
          + destruct Hm1 as [->|Hm1]; [by left|by right].
        - exists st0. split; [|split; [done|by left]].
          intros fuel. rewrite (search_step_eq fuel st q rest Hpq Hqe).
          simpl. by rewrite Htq. }
      assert (∃ n r, (∀ fuel, (n <= fuel)%nat -> search fuel edges e st' = Some r) ∧
                     Route nodes edges s e r) as (n & r & Hrun & Hpost).
      { destruct Hm as [[Hd Hlen]|[Hlt|[Heq Hlt]]].
        - apply (IHc (length rest)); [simpl in Hc; lia|by rewrite Hd..|done|done].
        - eapply (IHa _ ltac:(rewrite <- Ha; exact Hlt)); done.
        - eapply (IHb _ ltac:(rewrite <- Hb; exact Hlt)); try done. by rewrite Heq. }
      exists (S n), r. split; [|done].
      intros [|fuel] Hfuel; [lia|]. rewrite Hstep. apply Hrun. lia.
Qed.

(** *** As long as no sum is rounded *)

Hypothesis Hexact : exactSums nodes edges.

Lemma hist_size (d : gmap string Dist) (x : Z) (P : list string) :
  (∀ y, is_Some (d !! y) -> y ∈ V) ->
  NoDup P -> (∀ y, y ∈ P -> ∃ dy, d !! y = Some (Fin dy) ∧ dy <= x) ->
  (length P <= length nodes)%nat.
Proof.
  intros Hdom Hnd Hall.
  replace (length nodes) with (length V) by apply length_fmap.
  apply submseteq_length, NoDup_submseteq; [done|].
  intros y Hy. apply Hdom. destruct (Hall y Hy) as (dy & -> & _). eauto.
Qed.

(** Every sum that the loop forms is exact. *)
Lemma hist_exact (d : gmap string Dist) u du edge :
  (∀ y, is_Some (d !! y) -> y ∈ V) ->
  Hist d -> d !! u = Some (Fin du) -> edge ∈ edges ->
  du + weight edge < 2 ^ 53.
Proof.
  intros Hdom HH Hu Hin.
  destruct (HH _ _ Hu) as (P & Hnd & HuP & Hall & Hsize).
  pose proof (hist_size _ _ _ Hdom Hnd Hall) as Hlen.
  assert (weight edge * Z.of_nat (length nodes) < 2 ^ 53) as Hw.
  { unfold exactSums in Hexact. rewrite Forall_forall in Hexact. by apply Hexact. }
  assert (0 < 2 ^ 53) as HK by lia.
  generalize dependent (2 ^ 53). intros K Hsize Hw HK. nia.
Qed.

Lemma relax_hist u du st edge :
  (∀ y, is_Some (distances st !! y) -> y ∈ V) ->
  Hist (distances st) -> distances st !! u = Some (Fin du) ->
  edge ∈ edges ->
  Hist (distances (relax u st edge)).
Proof.
  intros Hdom HH Hdu Hin.
  pose proof (hist_exact _ _ _ _ Hdom HH Hdu Hin) as Hsum.
  pose proof (weight_pos _ Hin) as Hw.
  unfold relax. rewrite Hdu, (plus_exact _ _ Hsum).
  set (n := neighborNodeId u edge). set (c := du + weight edge) in *.
  destruct (improves c (distances st !! n)) eqn:Himp; [|done].
  apply improves_true in Himp as Hold. simpl.
  assert (∀ y, distances st !! n = Some (Fin y) -> c < y) as Hlow.
  { intros y Hy. rewrite Hy in Hold. destruct Hold as [|(y' & [= <-] & ?)]; [done|lia]. }
  intros v x. destruct (decide (n = v)) as [<-|Hne].
  - rewrite lookup_insert_eq. intros [= <-].
    destruct (HH _ _ Hdu) as (P & Hnd & HuP & Hall & Hsize).
    assert (n ∉ P) as HnP.
    { intros HnP. destruct (Hall _ HnP) as (dn & Hdn & ?).
      specialize (Hlow _ Hdn). lia. }
    exists (n :: P). split; [by constructor|]. split; [by left|]. split.
    + intros y [->|Hy]%elem_of_cons.
      * rewrite lookup_insert_eq. exists c. split; [done|lia].
      * rewrite lookup_insert_ne by (by intros <-).
        destruct (Hall _ Hy) as (dy & Hdy & ?). exists dy. split; [done|lia].
    + assert (weight edge * Z.of_nat (length nodes) < 2 ^ 53) as Hwn.
      { unfold exactSums in Hexact. rewrite Forall_forall in Hexact. by apply Hexact. }
      simpl length. unfold c. generalize dependent (2 ^ 53). intros. nia.
  - rewrite lookup_insert_ne by done. intros Hv.
    destruct (HH _ _ Hv) as (P & Hnd & HvP & Hall & Hsize).
    exists P. split; [done|]. split; [done|]. split; [|done].
    intros y Hy. destruct (Hall _ Hy) as (dy & Hdy & ?).
    destruct (decide (n = y)) as [<-|Hny].
    + rewrite lookup_insert_eq. exists c. split; [done|].
      specialize (Hlow _ Hdy). lia.
    + rewrite lookup_insert_ne by done. eauto.
Qed.

Lemma initSearch_hist : Hist (distances (initSearch nodes s)).
Proof.
  intros v x. simpl. rewrite initDistances_lookup.
  repeat case_decide; try done. intros [= <-]. subst v.
  exists [s]. split; [apply NoDup_singleton|]. split; [by left|]. split.
  - intros y ->%list_elem_of_singleton. exists 0.
    rewrite initDistances_lookup. by rewrite !decide_True.
  - simpl. lia.
Qed.

(** The body of [forEach] keeps the invariant, leaves the distance of the
    station being expanded alone, and either changes nothing or lowers the
    measure. *)
Lemma relax_inv u du L st edge :
  Inv u L st -> distances st !! u = Some (Fin du) -> Js.truthy u = true ->
  edge ∈ edges -> source edge = u ∨ target edge = u ->
  du + weight edge < 2 ^ 53 ->
  Inv u (edge :: L) (relax u st edge) ∧
  distances (relax u st edge) !! u = Some (Fin du) ∧
  (relax u st edge = st ∨ smaller (relax u st edge) st).
Proof.
  intros HI Hdu Htu Hin Hinc Hsum.
  pose proof (inv_nonneg _ _ _ _ _ _ _ HI _ _ Hdu) as Hdu0.
  pose proof (weight_pos _ Hin) as Hw.
  pose proof (linked_neighbor _ _ Hin Hinc) as Hlink.
  unfold relax. rewrite Hdu, (plus_exact _ _ Hsum).
  set (n := neighborNodeId u edge) in *. set (c := du + weight edge).
  destruct (improves c (distances st !! n)) eqn:Himp.
  - apply improves_true in Himp as Hold.
    assert (n ∈ V) as HnV.
    { apply (inv_dom _ _ _ _ _ _ _ HI). destruct Hold as [->|(y & -> & _)]; eauto. }
    assert (n ≠ s) as Hns.
    { intros ->. rewrite (inv_src _ _ _ _ _ _ _ HI) in Hold.
      destruct Hold as [|(y & [= <-] & ?)]; [done|lia]. }
    assert (n ≠ u) as Hnu.
    { intros Heq. rewrite Heq, Hdu in Hold.
      destruct Hold as [|(y & [= <-] & ?)]; [done|lia]. }
    assert (∀ y, distances st !! n = Some (Fin y) -> c <= y) as Hlow.
    { intros y Hy. rewrite Hy in Hold. destruct Hold as [|(y' & [= <-] & ?)]; [done|lia]. }
    split; [|split].
    + constructor; simpl.
      * intros v. destruct (decide (n = v)) as [<-|Hne].
        -- rewrite lookup_insert_eq. split; [done|eauto].
        -- rewrite lookup_insert_ne by done. apply (inv_dom _ _ _ _ _ _ _ HI).
      * rewrite lookup_insert_ne by done. apply (inv_src _ _ _ _ _ _ _ HI).
      * rewrite lookup_insert_ne by done. apply (inv_src_prev _ _ _ _ _ _ _ HI).
      * intros v x. destruct (decide (n = v)) as [<-|Hne].
        -- rewrite lookup_insert_eq. intros [= <-]. lia.
        -- rewrite lookup_insert_ne by done. apply (inv_nonneg _ _ _ _ _ _ _ HI).
      * intros v x. destruct (decide (n = v)) as [<-|Hne].
        -- rewrite !lookup_insert_eq. intros [= <-] _.
           exists u, du, (weight edge). rewrite lookup_insert_ne by done.
           repeat split; try done; lia.
        -- rewrite !lookup_insert_ne by done. intros Hv Hvs.
           destruct (inv_chain _ _ _ _ _ _ _ HI _ _ Hv Hvs)
             as (u' & du' & w' & Hp & Ht & Hd' & Hl & Hle).
           destruct (decide (n = u')) as [<-|Hne'].
           ++ exists n, c, w'. rewrite lookup_insert_eq.
              specialize (Hlow _ Hd'). repeat split; try done; lia.
           ++ exists u', du', w'. rewrite lookup_insert_ne by done. done.
      * intros q Hq. apply elem_of_enqueue in Hq as [Hq| ->].
        -- destruct (inv_queue _ _ _ _ _ _ _ HI _ Hq) as (x & Hx & Hle).
           destruct (decide (n = val q)) as [Heq|Hne].
           ++ rewrite <- Heq, lookup_insert_eq. exists c. split; [done|].
              rewrite <- Heq in Hx. specialize (Hlow _ Hx). lia.
           ++ rewrite lookup_insert_ne by done. eauto.
        -- simpl. rewrite lookup_insert_eq. exists c. split; [done|lia].
      * apply enqueue_ascending.
      * intros v dv. destruct (decide (n = v)) as [<-|Hne].
        -- rewrite lookup_insert_eq. intros [= <-] _. left.
           apply elem_of_enqueue. by right.
        -- rewrite lookup_insert_ne by done. intros Hv Htv.
           destruct (inv_settled _ _ _ _ _ _ _ HI _ _ Hv Htv) as [Ho|Hc].
           ++ left. apply elem_of_enqueue. by left.
           ++ right. case_decide as Hvu.
              ** subst v. intros edge' Hin' Hinc' HV'.
                 apply elem_of_cons in Hin' as [->|Hin'].
                 --- fold n. rewrite lookup_insert_eq. exists c. split; [done|].
                     rewrite Hdu in Hv. injection Hv as <-. unfold c. lia.
                 --- apply atMost_insert; [done|]. by apply Hc.
              ** intros edge' Hin' Hinc' HV'. apply atMost_insert; [done|]. by apply Hc.
      * intros x. destruct (decide (n = e)) as [<-|Hne].
        -- intros _. exists (Entry n c). split; [|done]. apply elem_of_enqueue. by right.
        -- rewrite lookup_insert_ne by done. intros Hx.
           destruct (inv_target _ _ _ _ _ _ _ HI _ Hx) as (q & Hq & Hval).
           exists q. split; [|done]. apply elem_of_enqueue. by left.
    + simpl. by rewrite lookup_insert_ne.
    + right. apply smaller_insert; [done|unfold c; lia|done].
  - split; [|split]; [|done|by left].
    apply improves_false in Himp as Hold.
    destruct HI as [H1 H2 H3 H4 H5 H6 H7 H8 H9].
    constructor; try done.
    intros v dv Hv Htv. destruct (H8 _ _ Hv Htv) as [Ho|Hc]; [by left|right].
    case_decide as Hvu; [|done]. subst v.
    rewrite Hdu in Hv. injection Hv as <-.
    intros edge' Hin' Hinc' HV'. apply elem_of_cons in Hin' as [->|Hin'].
    + fold n in HV' |- *. destruct Hold as [Hnone|(y & Hy & Hle)].
      * apply H1 in HV'. rewrite Hnone in HV'. by destruct HV'.
      * exists y. split; [done|]. unfold c in Hle. lia.
    + by apply Hc.
Qed.

(** The whole of [neighbors.forEach]. *)
Lemma relax_all_inv u du todo :
  ∀ L st,
    Inv u L st -> Hist (distances st) ->
    distances st !! u = Some (Fin du) -> Js.truthy u = true ->
    (∀ edge, edge ∈ todo -> edge ∈ edges ∧ (source edge = u ∨ target edge = u)) ->
    Inv u (reverse todo ++ L) (foldl (relax u) st todo) ∧
    Hist (distances (foldl (relax u) st todo)) ∧
    distances (foldl (relax u) st todo) !! u = Some (Fin du) ∧
    (foldl (relax u) st todo = st ∨ smaller (foldl (relax u) st todo) st).
Proof.
  induction todo as [|edge todo IH]; intros L st HI HH Hdu Htu Htodo; simpl.
  - split; [done|]. split; [done|]. split; [done|by left].
  - destruct (Htodo edge ltac:(left)) as [Hin Hinc].
    assert (∀ y, is_Some (distances st !! y) -> y ∈ V) as Hdom.
    { intros y. apply (inv_dom _ _ _ _ _ _ _ HI). }
    pose proof (hist_exact _ _ _ _ Hdom HH Hdu Hin) as Hsum.
    pose proof (relax_hist u du st edge Hdom HH Hdu Hin) as HH1.
    destruct (relax_inv u du L st edge HI Hdu Htu Hin Hinc Hsum) as (HI1 & Hdu1 & Hm1).
    destruct (IH (edge :: L) (relax u st edge) HI1 HH1 Hdu1 Htu)
      as (HI2 & HH2 & Hdu2 & Hm2).
    { intros edge' Hin'. apply Htodo. by right. }
    rewrite reverse_cons, <- app_assoc. simpl.
    split; [done|]. split; [done|]. split; [done|].
    destruct Hm2 as [Heq|Hm2]; [by rewrite Heq|]. right.
    destruct Hm1 as [Heq|Hm1]; [by rewrite Heq in Hm2 |- *|]. by eapply smaller_trans.
Qed.

(** Taking the head of the queue. *)
Lemma dequeue_inv st q rest :
  Inv s edges st -> pq st = q :: rest -> val q ≠ e ->
  Inv (val q) [] (MkSearch (distances st) (previous st) rest).
Proof.
  intros [H1 H2 H3 H4 H5 H6 H7 H8 H9] Hpq Hne. rewrite Hpq in *.
  constructor; simpl; try done.
  - intros q' Hq'. apply H6. by right.
  - by eapply ascending_tail.
  - intros u du Hu Htu. case_decide as Hcur.
    + right. intros edge Hin. by apply elem_of_nil in Hin.
    + destruct (H8 _ _ Hu Htu) as [Ho|Hc].
      * apply elem_of_cons in Ho as [Ho|Ho]; [|by left].
        subst q. by simpl in Hcur.
      * right. by case_decide.
  - intros x Hx. destruct (H9 _ Hx) as (q' & Hq' & Hval).
    apply elem_of_cons in Hq' as [->|Hq']; [done|]. eauto.
Qed.

(** Back at the head of the loop. *)
Lemma expanded_inv u L st :
  Inv u L st ->
  (Js.truthy u = true ->
   ∀ edge, edge ∈ edges -> source edge = u ∨ target edge = u -> edge ∈ L) ->
  Inv s edges st.
Proof.
  intros [H1 H2 H3 H4 H5 H6 H7 H8 H9] HL. constructor; try done.
  intros v dv Hv Htv. destruct (H8 _ _ Hv Htv) as [Ho|Hc]; [by left|right].
  assert (closedFor edges (distances st) v dv) as Hclosed.
  { case_decide as Hcur; [|done]. subst v.
    intros edge Hin Hinc. apply Hc; [|done]. by apply HL. }
  by destruct (decide (v = s)).
Qed.

(** *** Following [previous] back from a station *)

Lemma unwind_chain cur L st :
  Inv cur L st ->
  ∀ (k : nat) v dv acc,
    distances st !! v = Some (Fin dv) -> (Z.to_nat dv <= k)%nat ->
    Js.truthy v = true ->
    ∃ p c,
      (∀ fuel, (S k <= fuel)%nat ->
         unwind fuel (previous st) (Some v) acc = Some (p ++ acc)) ∧
      walk nodes edges p c ∧ head p = Some s ∧ last p = Some v ∧ c <= dv.
Proof.
  intros HI. induction k as [|k IH]; intros v dv acc Hv Hk Htv.
  all: pose proof (inv_nonneg _ _ _ _ _ _ _ HI _ _ Hv) as Hdv0.
  all: destruct (decide (v = s)) as [->|Hvs].
  1, 3: exists [s], 0; split; [|split; [|split; [|split]]]; try done.
  1, 3: intros [|fuel] Hfuel; [lia|]; simpl; rewrite Htv;
        rewrite (inv_src_prev _ _ _ _ _ _ _ HI); by destruct fuel.
  1, 2: apply walk_one; apply (inv_dom _ _ _ _ _ _ _ HI); eauto.
  all: destruct (inv_chain _ _ _ _ _ _ _ HI _ _ Hv Hvs)
         as (u & du & w & Hp & Htu & Hu & Hl & Hle).
  all: pose proof (inv_nonneg _ _ _ _ _ _ _ HI _ _ Hu) as Hdu0.
  all: assert (0 < w) as Hw by (destruct Hl as (edge & Hin & <- & _); by apply weight_pos).
  - lia.
  - destruct (IH u du (v :: acc) Hu ltac:(lia) Htu)
      as (p & c & Hrun & Hwalk & Hhead & Hlast & Hc).
    exists (p ++ [v]), (c + w). split; [|split; [|split; [|split]]].
    + intros [|fuel] Hfuel; [lia|]. simpl. rewrite Htv, Hp. simpl.
      rewrite Hrun by lia. by rewrite <- app_assoc.
    + eapply walk_snoc; [done..|]. apply (inv_dom _ _ _ _ _ _ _ HI). eauto.
    + destruct p; [done|]. done.
    + apply last_snoc.
    + lia.
Qed.

(** *** No walk beats the distances of the queue *)

Lemma lower_bound st :
  Inv s edges st -> properIds nodes ->
  ∀ p c, walk nodes edges p c ->
  ∀ u du, head p = Some u -> last p = Some e ->
    distances st !! u = Some (Fin du) ->
    atMost (distances st !! e) (du + c) ∨
    ∃ x dx, Entry x dx ∈ pq st ∧ dx <= du + c.
Proof.
  intros HI Hproper p c Hwalk.
  unfold properIds in Hproper. rewrite Forall_forall in Hproper.
  induction Hwalk as [x Hx|x y p c w Hx Hl Hw IH]; intros u du Hhead Hlast Hu.
  - simpl in *. injection Hhead as ->. injection Hlast as ->.
    left. exists du. split; [done|lia].
  - simpl in Hhead. injection Hhead as ->. rewrite last_cons_cons in Hlast.
    pose proof (walk_nonneg _ _ Hw) as Hc0.
    assert (0 < w) as Hw0 by (destruct Hl as (edge & Hin & <- & _); by apply weight_pos).
    destruct (inv_settled _ _ _ _ _ _ _ HI _ _ Hu (Hproper _ Hx)) as [Ho|Hc].
    + right. exists u, du. split; [done|lia].
    + assert (closedFor edges (distances st) u du) as Hclosed
        by (by destruct (decide (u = s))).
      destruct (closed_linked _ _ _ _ _ Hclosed Hl (walk_head_station _ _ _ Hw))
        as (dy & Hy & Hdy).
      destruct (IH y dy eq_refl Hlast Hy) as [(de & He & Hde)|(z & dz & Hz & Hdz)].
      * left. exists de. split; [done|lia].
      * right. exists z, dz. split; [done|lia].
Qed.

(** *** The main loop returns, and what it returns *)

Lemma search_correct :
  Js.truthy e = true ->
  ∀ (a b c : nat) st,
    infCount nodes (distances st) = a -> total nodes (distances st) = b ->
    length (pq st) = c -> Inv s edges st -> Hist (distances st) ->
    ∃ n r, (∀ fuel, (n <= fuel)%nat -> search fuel edges e st = Some r) ∧
           Post nodes edges s e r.
Proof.
  intros He a. induction a as [a IHa] using lt_wf_ind.
  intros b. induction b as [b IHb] using lt_wf_ind.
  intros c. induction c as [c IHc] using lt_wf_ind.
  intros st Ha Hb Hc HI HH.
  destruct (pq st) as [|q rest] eqn:Hpq.
  - (* the queue is empty: [return []] *)
    exists O, []. split.
    + intros fuel _. destruct fuel; simpl; by rewrite Hpq.
    + left. split; [done|]. intros Hproper (p & c' & Hwalk & Hhead & Hlast).
      assert (s ∈ V) as HsV.
      { destruct p as [|x p]; [done|]. injection Hhead as <-.
        by eapply walk_head_station. }
      destruct (lower_bound st HI Hproper p c' Hwalk s 0 Hhead Hlast
                  (inv_src _ _ _ _ _ _ _ HI))
        as [(de & Hde & _)|(x & dx & Hx & _)].
      * destruct (inv_target _ _ _ _ _ _ _ HI _ Hde) as (q & Hq & _).
        rewrite Hpq in Hq. by apply elem_of_nil in Hq.
      * rewrite Hpq in Hx. by apply elem_of_nil in Hx.
  - destruct (decide (val q = e)) as [Hqe|Hqe].
    + (* the target leaves the queue: rebuild the path *)
      destruct (inv_queue _ _ _ _ _ _ _ HI q) as (de & Hde & Hle).
      { rewrite Hpq. by left. }
      rewrite Hqe in Hde.
      destruct (unwind_chain _ _ _ HI (Z.to_nat de) e de [] Hde ltac:(lia) He)
        as (p & cost & Hrun & Hwalk & Hhead & Hlast & Hcost).
      exists (S (S (Z.to_nat de))), p. split.
      * intros [|fuel] Hfuel; [lia|]. simpl. rewrite Hpq. simpl.
        destruct (decide (val q = e)); [|done].
        rewrite Hrun by lia. by rewrite app_nil_r.
      * right. exists cost. repeat split; try done.
        intros Hproper p' c' Hwalk' Hhead' Hlast'.
        destruct (lower_bound st HI Hproper p' c' Hwalk' s 0 Hhead' Hlast'
                    (inv_src _ _ _ _ _ _ _ HI))
          as [(de' & Hde' & Hle')|(x & dx & Hx & Hdx)].
        -- rewrite Hde in Hde'. injection Hde' as <-. lia.
        -- rewrite Hpq in Hx.
           pose proof (inv_sorted _ _ _ _ _ _ _ HI) as Hsorted. rewrite Hpq in Hsorted.
           pose proof (ascending_head _ _ _ Hsorted Hx) as Hmin. simpl in Hmin. lia.
    + (* another station leaves the queue *)
      pose proof (dequeue_inv st q rest HI Hpq Hqe) as HI0.
      set (st0 := MkSearch (distances st) (previous st) rest) in *.
      destruct (inv_queue _ _ _ _ _ _ _ HI q) as (dq & Hdq & _).
      { rewrite Hpq. by left. }
      assert (∃ st',
                 (∀ fuel, search (S fuel) edges e st = search fuel edges e st') ∧
                 Inv s edges st' ∧ Hist (distances st') ∧
                 ((distances st' = distances st ∧ length (pq st') = length rest) ∨
                  smaller st' st)) as (st' & Hstep & HI' & HH' & Hm).
      { destruct (Js.truthy (val q)) eqn:Htq.
        - exists (foldl (relax (val q)) st0 (neighbors edges (val q))).
          destruct (relax_all_inv (val q) dq (neighbors edges (val q)) [] st0 HI0 HH Hdq Htq)
            as (HI1 & HH1 & _ & Hm1).
          { intros edge Hin. unfold neighbors in Hin.
            apply list_elem_of_filter in Hin as [? ?]. done. }
          split; [|split; [|split; [done|]]].
          + intros fuel. rewrite (search_step_eq fuel st q rest Hpq Hqe).
            simpl. by rewrite Htq, Hdq.
          + eapply expanded_inv; [exact HI1|]. intros _ edge Hin Hinc.
            rewrite app_nil_r. apply elem_of_reverse. unfold neighbors.
            apply list_elem_of_filter. done.
          + destruct Hm1 as [->|Hm1]; [by left|by right].
        - exists st0. split; [|split; [|split; [done|]]].
          + intros fuel. rewrite (search_step_eq fuel st q rest Hpq Hqe).
            simpl. by rewrite Htq.
          + eapply expanded_inv; [exact HI0|]. intros Ht. congruence.
          + by left. }
      assert (∃ n r, (∀ fuel, (n <= fuel)%nat -> search fuel edges e st' = Some r) ∧
                     Post nodes edges s e r) as (n & r & Hrun & Hpost).
      { destruct Hm as [[Hd Hlen]|[Hlt|[Heq Hlt]]].
        - apply (IHc (length rest)); [simpl in Hc; lia|by rewrite Hd..|done|done|done].
        - eapply (IHa _ ltac:(rewrite <- Ha; exact Hlt)); done.
        - eapply (IHb _ ltac:(rewrite <- Hb; exact Hlt)); try done. by rewrite Heq. }
      exists (S n), r. split; [|done].
      intros [|fuel] Hfuel; [lia|]. rewrite Hstep. apply Hrun. lia.
Qed.

End SearchFacts.

(** ** [dijkstra] as a whole *)

Lemma walk_last_station nodes edges p c e :
  walk nodes edges p c -> last p = Some e -> e ∈ stationIds nodes.
Proof.
  induction 1 as [x Hx|x y p c w Hx Hl Hw IH]; intros Hlast.
  - simpl in Hlast. by injection Hlast as <-.
  - rewrite last_cons_cons in Hlast. by apply IH.
Qed.

Lemma search_empty fuel edges e st :
  pq st = [] -> search fuel edges e st = Some [].
Proof. intros H. destruct fuel; simpl; by rewrite H. Qed.

Lemma search_target_first fuel nodes edges s :
  s ∈ stationIds nodes -> Js.truthy s = true ->
  search (S (S fuel)) edges s (initSearch nodes s) = Some [s].
Proof.
  intros Hs Ht.
  assert (∀ st, pq st = [PriorityQueue.Entry s 0] ->
                mjoin (previous st !! s) = None ->
                search (S (S fuel)) edges s st = Some [s]) as H.
  { intros st Hpq Hprev. simpl. rewrite Hpq. simpl. rewrite decide_True by done.
    rewrite Ht, Hprev. by destruct fuel. }
  apply H; [by apply initSearch_pq_present|].
  unfold initSearch. simpl. rewrite initPrevious_lookup. by rewrite decide_True.
Qed.

(** A call that fails one of the tests in front of the loop. *)
Lemma dijkstra_guard fuel nodes edges s e :
  Js.truthy s = false ∨ Js.truthy e = false ∨ s ∉ stationIds nodes ->
  dijkstra fuel nodes edges s e = Some [].
Proof.
  intros H. unfold dijkstra.
  destruct (Js.truthy s) eqn:Hs; [|done].
  destruct (Js.truthy e) eqn:He; [|done].
  destruct H as [?|[?|Habs]]; [done..|]. simpl.
  case_bool_decide; [done|].
  apply search_empty. by apply initSearch_pq_absent.
Qed.

(** With positive weights every call returns, whatever the size of the
    weights, and the value is the empty sequence or a route from start to
    end. *)
Lemma dijkstra_returns nodes edges s e :
  positiveWeights edges ->
  ∃ n r,
    (∀ fuel, (n <= fuel)%nat -> dijkstra fuel nodes edges s e = Some r) ∧
    Route nodes edges s e r.
Proof.
  intros Hw.
  destruct (Js.truthy s) eqn:Hs; cycle 1.
  { exists O, []. split; [|by left].
    intros fuel _. apply dijkstra_guard. by left. }
  destruct (Js.truthy e) eqn:He; cycle 1.
  { exists O, []. split; [|by left].
    intros fuel _. apply dijkstra_guard. right. by left. }
  destruct (decide (s ∈ stationIds nodes)) as [Hin|Hout]; cycle 1.
  { exists O, []. split; [|by left].
    intros fuel _. apply dijkstra_guard. right. by right. }
  destruct (search_sound nodes edges s e Hw He _ _ _ (initSearch nodes s)
              eq_refl eq_refl eq_refl (initSearch_inv0 nodes edges s Hin))
    as (n & r & Hrun & Hroute).
  exists n, r. split; [|done].
  intros fuel Hfuel. unfold dijkstra. rewrite Hs, He. simpl.
  case_bool_decide as Hlen; [|by apply Hrun].
  destruct nodes; [by apply elem_of_nil in Hin|done].
Qed.

(** As long as no sum is rounded, the value is the empty sequence only
    when no walk leads from start to end, and a walk of least cost
    otherwise. *)
Lemma dijkstra_spec nodes edges s e :
  positiveWeights edges -> exactSums nodes edges ->
  ∃ n r,
    (∀ fuel, (n <= fuel)%nat -> dijkstra fuel nodes edges s e = Some r) ∧
    ((r = [] ∧ (Js.truthy s = false ∨ Js.truthy e = false ∨ s ∉ stationIds nodes)) ∨
     (Js.truthy s = true ∧ Js.truthy e = true ∧ s ∈ stationIds nodes ∧
      Post nodes edges s e r)).
Proof.
  intros Hw Hexact.
  destruct (Js.truthy s) eqn:Hs; cycle 1.
  { exists O, []. split; [|left; eauto].
    intros fuel _. apply dijkstra_guard. by left. }
  destruct (Js.truthy e) eqn:He; cycle 1.
  { exists O, []. split; [|left; eauto].
    intros fuel _. apply dijkstra_guard. right. by left. }
  destruct (decide (s ∈ stationIds nodes)) as [Hin|Hout]; cycle 1.
  { exists O, []. split; [|left; eauto].
    intros fuel _. apply dijkstra_guard. right. by right. }
  destruct (search_correct nodes edges s e Hw Hexact He _ _ _ (initSearch nodes s)
              eq_refl eq_refl eq_refl (initSearch_inv nodes edges s e Hin)
              (initSearch_hist nodes s))
    as (n & r & Hrun & Hpost).
  exists n, r. split; [|right; done].
  intros fuel Hfuel. unfold dijkstra. rewrite Hs, He. simpl.
  case_bool_decide as Hlen; [|by apply Hrun].
  destruct nodes; [by apply elem_of_nil in Hin|done].
Qed.

(** ** A larger step budget changes no result *)

Lemma unwind_eq fuel prev cur acc :
  unwind fuel prev cur acc =
  if Js.truthy_opt cur then
    match fuel, cur with
    | S fuel', Some c => unwind fuel' prev (mjoin (prev !! c)) (c :: acc)
    | _, _ => None
    end
  else Some acc.
Proof. by destruct fuel. Qed.

Lemma unwind_mono fuel :
  ∀ prev cur acc r fuel',
    unwind fuel prev cur acc = Some r -> (fuel <= fuel')%nat ->
    unwind fuel' prev cur acc = Some r.
Proof.
  induction fuel as [|fuel IH]; intros prev cur acc r fuel' H Hle;
    rewrite unwind_eq in H; rewrite unwind_eq;
    destruct (Js.truthy_opt cur); try done.
  destruct cur as [c|]; [|done].
  destruct fuel' as [|fuel']; [lia|]. apply IH; [done|lia].
Qed.

Lemma search_eq fuel edges e st :
  search fuel edges e st =
  if PriorityQueue.isEmpty (pq st) then Some []
  else
    match fuel, PriorityQueue.dequeue (pq st) with
    | S fuel', Some (q, rest) =>
        let smallest := PriorityQueue.val q in
        if decide (smallest = e) then unwind fuel' (previous st) (Some e) []
        else
          let st := MkSearch (distances st) (previous st) rest in
          if Js.truthy smallest && notInfinity (distances st !! smallest)
          then search fuel' edges e
                 (foldl (relax smallest) st (neighbors edges smallest))
          else search fuel' edges e st
    | _, _ => None
    end.
Proof. by destruct fuel. Qed.

Lemma search_mono edges e fuel :
  ∀ st r fuel',
    search fuel edges e st = Some r -> (fuel <= fuel')%nat ->
    search fuel' edges e st = Some r.
Proof.
  induction fuel as [|fuel IH]; intros st r fuel' H Hle;
    rewrite search_eq in H; rewrite search_eq;
    destruct (PriorityQueue.isEmpty (pq st)); try done.
  destruct (PriorityQueue.dequeue (pq st)) as [[q rest]|]; [|done].
  destruct fuel' as [|fuel']; [lia|]. simpl in *.
  destruct (decide (PriorityQueue.val q = e)).
  - eapply unwind_mono; [done|lia].
  - destruct (Js.truthy (PriorityQueue.val q)
              && notInfinity (distances st !! PriorityQueue.val q));
      (apply IH; [done|lia]).
Qed.

Lemma dijkstra_mono fuel fuel' nodes edges s e r :
  dijkstra fuel nodes edges s e = Some r -> (fuel <= fuel')%nat ->
  dijkstra fuel' nodes edges s e = Some r.
Proof.
  unfold dijkstra. destruct (_ || _); [done|]. apply search_mono.
Qed.

(** With positive weights what a call has returned is empty or a route,
    whatever the budget was. *)
Lemma dijkstra_route fuel nodes edges s e r :
  positiveWeights edges -> dijkstra fuel nodes edges s e = Some r ->
  Route nodes edges s e r.
Proof.
  intros Hw Hrun.
  destruct (dijkstra_returns nodes edges s e Hw) as (n & r' & Hrun' & Hroute).
  pose proof (dijkstra_mono _ (fuel `max` n) _ _ _ _ _ Hrun ltac:(lia)) as H1.
  rewrite (Hrun' (fuel `max` n)%nat ltac:(lia)) in H1. by injection H1 as ->.
Qed.

(** With positive weights a returned sequence that is not empty starts at
    the start and ends at the end, whatever the budget was. *)
Lemma dijkstra_ends fuel nodes edges s e r :
  positiveWeights edges -> dijkstra fuel nodes edges s e = Some r -> r ≠ [] ->
  head r = Some s ∧ last r = Some e.
Proof.
  intros Hw Hrun Hne.
  destruct (dijkstra_route _ _ _ _ _ _ Hw Hrun) as [->|(c & _ & Hh & Hl & _)]; done.
Qed.

(** As long as no sum is rounded, an empty result means that no walk leads
    from start to end. *)
Lemma dijkstra_empty_unreachable fuel nodes edges s e :
  positiveWeights edges -> exactSums nodes edges -> properIds nodes ->
  s ∈ stationIds nodes -> e ∈ stationIds nodes ->
  dijkstra fuel nodes edges s e = Some [] -> ¬ reachable nodes edges s e.
Proof.
  intros Hw Hexact Hproper Hs He Hrun.
  destruct (dijkstra_spec nodes edges s e Hw Hexact) as (n & r & Hrun' & Hcases).
  pose proof (dijkstra_mono _ (fuel `max` n) _ _ _ _ _ Hrun ltac:(lia)) as H1.
  rewrite (Hrun' (fuel `max` n)%nat ltac:(lia)) in H1. injection H1 as ->.
  pose proof Hproper as Hp. unfold properIds in Hp. rewrite Forall_forall in Hp.
  destruct Hcases as [(_ & [Hf|[Hf|Hf]])|(_ & _ & _ & Hpost)].
  - by rewrite (Hp _ Hs) in Hf.
  - by rewrite (Hp _ He) in Hf.
  - done.
  - destruct Hpost as [(_ & Hno)|(c & _ & Hhead & _)]; [by apply Hno|done].
Qed.

(** ** Properties of the shortest-path engine (C1, C7, C8) *)

(** C1, as the code has it. In a graph whose links all have positive
    weights that are small enough for no sum to be rounded (every weight,
    taken as many times as there are stations, stays below [2^53]), and
    whose station ids are non-empty strings, for stations [s] and [e] of
    the graph with [e] reachable from [s], [dijkstra] returns a sequence
    that starts with [s], ends with [e], is a walk of the graph
    (consecutive elements joined by a link), and whose summed link weights
    are not above those of any walk from [s] to [e]. The call returns for
    every step budget from some bound on. *)
Theorem dijkstra_shortest_path nodes edges s e :
  positiveWeights edges -> exactSums nodes edges -> properIds nodes ->
  s ∈ stationIds nodes -> e ∈ stationIds nodes ->
  reachable nodes edges s e ->
  ∃ n path cost,
    (∀ fuel, (n <= fuel)%nat -> dijkstra fuel nodes edges s e = Some path) ∧
    head path = Some s ∧ last path = Some e ∧
    walk nodes edges path cost ∧
    ∀ p' c', walk nodes edges p' c' -> head p' = Some s -> last p' = Some e ->
             cost <= c'.
Proof.
  intros Hw Hexact Hproper Hs He Hreach.
  destruct (dijkstra_spec nodes edges s e Hw Hexact) as (n & r & Hrun & Hcases).
  pose proof Hproper as Hp. unfold properIds in Hp. rewrite Forall_forall in Hp.
  destruct Hcases as [(_ & [Hf|[Hf|Hf]])|(_ & _ & _ & Hpost)].
  - rewrite (Hp _ Hs) in Hf. done.
  - rewrite (Hp _ He) in Hf. done.
  - done.
  - destruct Hpost as [(_ & Hno)|(cost & Hwalk & Hhead & Hlast & Hmin)].
    + by destruct (Hno Hproper).
    + exists n, r, cost. repeat split; try done. by apply Hmin.
Qed.

Lemma dijkstra_shortest_path_witness :
  ∃ n path cost,
    (∀ fuel, (n <= fuel)%nat ->
       dijkstra fuel (MkNode <$> Js.letters 3)
         [MkEdge "A" "B" 1; MkEdge "B" "C" 1; MkEdge "A" "C" 5] "A" "C" = Some path) ∧
    head path = Some "A" ∧ last path = Some "C" ∧
    walk (MkNode <$> Js.letters 3)
      [MkEdge "A" "B" 1; MkEdge "B" "C" 1; MkEdge "A" "C" 5] path cost ∧
    ∀ p' c',
      walk (MkNode <$> Js.letters 3)
        [MkEdge "A" "B" 1; MkEdge "B" "C" 1; MkEdge "A" "C" 5] p' c' ->
      head p' = Some "A" -> last p' = Some "C" -> cost <= c'.
Proof.
  apply (dijkstra_shortest_path (MkNode <$> Js.letters 3)
           [MkEdge "A" "B" 1; MkEdge "B" "C" 1; MkEdge "A" "C" 5] "A" "C").
  - repeat constructor.
  - repeat constructor.
  - repeat constructor.
  - vm_compute. repeat constructor.
  - vm_compute. repeat constructor.
  - exists ["A"; "C"], (5 + 0). split; [|done].
    apply walk_step.
    + vm_compute. repeat constructor.
    + exists (MkEdge "A" "C" 5). split; [|split; [done|by left]].
      repeat constructor.
    + apply walk_one. vm_compute. repeat constructor.
Defined.

(** C1 as stated fails on the code, whose numbers are doubles. With the
    links A-E of weight [2^53 + 2], A-B of [2^53] and B-C, C-D, D-E of 1
    each, the sums [2^53 + 1] along B, C, D are rounded to [2^53]: the call
    from A to E returns A, B, C, D, E, whose links sum to [2^53 + 3], though
    the link A-E alone costs [2^53 + 2]. And with two links A-B and B-C of
    [2^1023] each the sum is [Infinity]: the call from A to C returns the
    empty sequence although C can be reached. *)
Lemma rounded_sums_miss_the_shortest_path :
  (positiveWeights
     [MkEdge "A" "E" (2 ^ 53 + 2); MkEdge "A" "B" (2 ^ 53); MkEdge "B" "C" 1;
      MkEdge "C" "D" 1; MkEdge "D" "E" 1] ∧
   (∀ fuel, (20 <= fuel)%nat ->
      dijkstra fuel (MkNode <$> Js.letters 5)
        [MkEdge "A" "E" (2 ^ 53 + 2); MkEdge "A" "B" (2 ^ 53); MkEdge "B" "C" 1;
         MkEdge "C" "D" 1; MkEdge "D" "E" 1] "A" "E"
      = Some ["A"; "B"; "C"; "D"; "E"]) ∧
   (∀ c,
      walk (MkNode <$> Js.letters 5)
        [MkEdge "A" "E" (2 ^ 53 + 2); MkEdge "A" "B" (2 ^ 53); MkEdge "B" "C" 1;
         MkEdge "C" "D" 1; MkEdge "D" "E" 1] ["A"; "B"; "C"; "D"; "E"] c ->
      c = 2 ^ 53 + 3) ∧
   walk (MkNode <$> Js.letters 5)
     [MkEdge "A" "E" (2 ^ 53 + 2); MkEdge "A" "B" (2 ^ 53); MkEdge "B" "C" 1;
      MkEdge "C" "D" 1; MkEdge "D" "E" 1] ["A"; "E"] (2 ^ 53 + 2 + 0)) ∧
  (positiveWeights [MkEdge "A" "B" (2 ^ 1023); MkEdge "B" "C" (2 ^ 1023)] ∧
   (∀ fuel, (20 <= fuel)%nat ->
      dijkstra fuel (MkNode <$> Js.letters 3)
        [MkEdge "A" "B" (2 ^ 1023); MkEdge "B" "C" (2 ^ 1023)] "A" "C" = Some []) ∧
   walk (MkNode <$> Js.letters 3)
     [MkEdge "A" "B" (2 ^ 1023); MkEdge "B" "C" (2 ^ 1023)] ["A"; "B"; "C"]
     (2 ^ 1023 + (2 ^ 1023 + 0))).
Proof.
  split; [split; [|split; [|split]]|split; [|split]].
  - repeat constructor.
  - intros fuel Hfuel. eapply dijkstra_mono; [|exact Hfuel]. by vm_compute.
  - intros c Hwalk.
    inversion Hwalk as [|? ? ? c1 w1 _ Hl1 Hw1]; subst.
    inversion Hw1 as [|? ? ? c2 w2 _ Hl2 Hw2]; subst.
    inversion Hw2 as [|? ? ? c3 w3 _ Hl3 Hw3]; subst.
    inversion Hw3 as [|? ? ? c4 w4 _ Hl4 Hw4]; subst.
    inversion Hw4; subst.
    link_weight Hl1. link_weight Hl2. link_weight Hl3. link_weight Hl4. lia.
  - apply walk_step.
    + vm_compute. repeat constructor.
    + exists (MkEdge "A" "E" (2 ^ 53 + 2)). split; [by left|]. split; [done|by left].
    + apply walk_one. vm_compute. repeat constructor.
  - repeat constructor.
  - intros fuel Hfuel. eapply dijkstra_mono; [|exact Hfuel]. by vm_compute.
  - apply walk_step.
    + vm_compute. repeat constructor.
    + exists (MkEdge "A" "B" (2 ^ 1023)). split; [by left|]. split; [done|by left].
    + apply walk_step.
      * vm_compute. repeat constructor.
      * exists (MkEdge "B" "C" (2 ^ 1023)). split; [by right; left|].
        split; [done|by left].
      * apply walk_one. vm_compute. repeat constructor.
Qed.

(** C7. For every graph and every station [s] of it, [dijkstra] from [s] to
    [s] returns the single-element path [[s]], a walk of cost 0, whatever
    the links are. *)
Theorem dijkstra_same_station nodes edges s fuel :
  s ∈ stationIds nodes -> Js.truthy s = true -> (2 <= fuel)%nat ->
  dijkstra fuel nodes edges s s = Some [s] ∧ walk nodes edges [s] 0.
Proof.
  intros Hs Ht Hfuel. split; [|by apply walk_one].
  unfold dijkstra. rewrite Ht. simpl.
  case_bool_decide as Hlen.
  { destruct nodes; [by apply elem_of_nil in Hs|done]. }
  destruct fuel as [|[|fuel]]; [lia..|].
  by apply search_target_first.
Qed.

Lemma dijkstra_same_station_witness :
  dijkstra 2 (MkNode <$> Js.letters 3) [MkEdge "A" "B" 1] "B" "B" = Some ["B"] ∧
  walk (MkNode <$> Js.letters 3) [MkEdge "A" "B" 1] ["B"] 0.
Proof.
  apply (dijkstra_same_station (MkNode <$> Js.letters 3) [MkEdge "A" "B" 1] "B" 2).
  - vm_compute. repeat constructor.
  - reflexivity.
  - lia.
Defined.

(** C8. [dijkstra] returns the empty sequence when the start is not a
    station (for any links and any step budget) and, with positive weights,
    when the end is not a station or no walk leads from start to end; the
    empty sequence is an ordinary return value of the call ([Some []]). *)
Theorem dijkstra_no_path nodes edges s e :
  (s ∉ stationIds nodes -> ∀ fuel, dijkstra fuel nodes edges s e = Some []) ∧
  (positiveWeights edges ->
   e ∉ stationIds nodes ∨ ¬ reachable nodes edges s e ->
   ∃ n, ∀ fuel, (n <= fuel)%nat -> dijkstra fuel nodes edges s e = Some []).
Proof.
  split.
  - intros Hs fuel. apply dijkstra_guard. right. by right.
  - intros Hw Hno.
    destruct (dijkstra_returns nodes edges s e Hw) as (n & r & Hrun & Hroute).
    exists n. assert (r = []) as ->; [|done].
    destruct Hroute as [->|(cost & Hwalk & Hhead & Hlast & _)]; [done|].
    exfalso. destruct Hno as [Hno|Hno].
    + apply Hno. by eapply walk_last_station.
    + apply Hno. by exists r, cost.
Qed.

Lemma dijkstra_no_path_witness :
  (∀ fuel,
     dijkstra fuel (MkNode <$> Js.letters 4)
       [MkEdge "A" "B" 1; MkEdge "B" "C" 1; MkEdge "A" "C" 5] "Z" "A" = Some []) ∧
  (∃ n, ∀ fuel, (n <= fuel)%nat ->
     dijkstra fuel (MkNode <$> Js.letters 4)
       [MkEdge "A" "B" 1; MkEdge "B" "C" 1; MkEdge "A" "C" 5] "A" "D" = Some []).
Proof.
  split.
  - apply (proj1 (dijkstra_no_path (MkNode <$> Js.letters 4)
                    [MkEdge "A" "B" 1; MkEdge "B" "C" 1; MkEdge "A" "C" 5] "Z" "A")).
    intros H. vm_compute in H.
    repeat (apply elem_of_cons in H as [H|H]; [discriminate H|]).
    by apply elem_of_nil in H.
  - apply (proj2 (dijkstra_no_path (MkNode <$> Js.letters 4)
                    [MkEdge "A" "B" 1; MkEdge "B" "C" 1; MkEdge "A" "C" 5] "A" "D")).
    + repeat constructor.
    + right. apply (dijkstra_empty_unreachable 10).
      * repeat constructor.
      * repeat constructor.
      * repeat constructor.
      * vm_compute. repeat constructor.
      * vm_compute. repeat constructor.
      * reflexivity.
Defined.

(** ** The graph model *)

Lemma letters_alphabet (n : nat) : (n <= 26)%nat -> Js.letters n = take n alphabet.
Proof.
  intros Hn. do 27 (destruct n as [|n]; [reflexivity|]). lia.
Qed.

Lemma uniquePairs_nil : uniquePairs [].
Proof. intros i j p q Hi. by rewrite lookup_nil in Hi. Qed.

Lemma samePair_sym p q : samePair p q -> samePair q p.
Proof. unfold samePair. intros [[? ?]|[? ?]]; [left|right]; done. Qed.

Lemma uniquePairs_snoc links p :
  uniquePairs links -> (∀ q, q ∈ links -> ¬ samePair p q) ->
  uniquePairs (links ++ [p]).
Proof.
  intros Hu Hnew i j a b Hi Hj Hsame.
  apply lookup_snoc_Some in Hi as [[Hilt Hi]|[-> <-]];
    apply lookup_snoc_Some in Hj as [[Hjlt Hj]|[-> <-]]; try done.
  - by eapply Hu.
  - exfalso. apply (Hnew a); [by eapply list_elem_of_lookup_2|].
    by apply samePair_sym.
  - exfalso. apply (Hnew b); [by eapply list_elem_of_lookup_2|done].
Qed.

Lemma joins_samePair from to edge :
  App.joins from to edge ↔ samePair (from, to) (ends edge).
Proof.
  unfold App.joins, samePair, ends. simpl. split.
  - intros [[? ?]|[? ?]]; [left|right]; done.
  - intros [[? ?]|[? ?]]; [left|right]; done.
Qed.

Lemma ends_insert_same (edges : list Edge) (i : nat) edge w :
  edges !! i = Some edge ->
  ends <$> <[i := MkEdge (source edge) (target edge) w]> edges = ends <$> edges.
Proof.
  intros Hi. rewrite list_fmap_insert. apply list_insert_id.
  rewrite list_lookup_fmap, Hi. done.
Qed.

Lemma joins_unique_index from to (edges : list Edge) (i j : nat) e1 e2 :
  uniquePairs (ends <$> edges) ->
  edges !! i = Some e1 -> edges !! j = Some e2 ->
  App.joins from to e1 -> App.joins from to e2 -> i = j.
Proof.
  intros Hu Hi Hj H1 H2.
  apply (Hu i j (ends e1) (ends e2)).
  - by rewrite list_lookup_fmap, Hi.
  - by rewrite list_lookup_fmap, Hj.
  - unfold App.joins in H1, H2. unfold samePair, ends. simpl.
    destruct H1 as [[? ?]|[? ?]], H2 as [[? ?]|[? ?]]; subst;
      [left|right|right|left]; split; congruence.
Qed.

(** With at most one link for a pair of stations, the cost of a walk is
    fixed by its sequence of stations. *)
Lemma walk_cost_unique nodes edges p c c' :
  uniquePairs (ends <$> edges) ->
  walk nodes edges p c -> walk nodes edges p c' -> c = c'.
Proof.
  intros Hu Hwalk. revert c'.
  induction Hwalk as [x Hx|x y p c w Hx Hl Hw IH]; intros c' Hwalk'.
  - by inversion Hwalk'.
  - inversion Hwalk' as [|? ? ? c2 w2 _ Hl' Hw']; subst.
    rewrite (IH _ Hw'). f_equal.
    destruct Hl as (e1 & Hin1 & <- & H1), Hl' as (e2 & Hin2 & <- & H2).
    apply list_elem_of_lookup in Hin1 as [i Hi], Hin2 as [j Hj].
    assert (i = j) as ->.
    { eapply (joins_unique_index x y); [done..| |]; unfold App.joins; tauto. }
    congruence.
Qed.

Lemma addLog_head message st :
  head (App.logs (App.addLog message st)) = Some message.
Proof. done. Qed.

(** What an accepted [handleAddEdge] does to the link list. *)
Lemma handleAddEdge_edges from to w st :
  App.invalidEdge from to (App.Int w) = false ->
  (∃ (i : nat) edge,
     App.edges st !! i = Some edge ∧ App.joins from to edge ∧
     (∀ (j : nat) other, App.edges st !! j = Some other -> (j < i)%nat ->
        ¬ App.joins from to other) ∧
     App.edges (App.handleAddEdge from to (App.Int w) st) =
       <[i := MkEdge (source edge) (target edge) w]> (App.edges st)) ∨
  ((∀ edge, edge ∈ App.edges st -> ¬ App.joins from to edge) ∧
   App.edges (App.handleAddEdge from to (App.Int w) st) =
     App.edges st ++ [MkEdge from to w]).
Proof.
  intros Hok. unfold App.handleAddEdge. rewrite Hok.
  destruct (list_find (App.joins from to) (App.edges st)) as [[i edge]|] eqn:Hfind.
  - left. apply list_find_Some in Hfind as (Hi & Hj & Hfirst).
    exists i, edge. done.
  - right. apply list_find_None in Hfind. rewrite Forall_forall in Hfind. done.
Qed.

Lemma handleAddEdge_unique from to weight st :
  uniquePairs (ends <$> App.edges st) ->
  uniquePairs (ends <$> App.edges (App.handleAddEdge from to weight st)).
Proof.
  intros Hu. destruct (App.invalidEdge from to weight) eqn:Hinv.
  - unfold App.handleAddEdge. by rewrite Hinv.
  - destruct weight as [w|]; [|done].
    destruct (handleAddEdge_edges from to w st Hinv)
      as [(i & edge & Hi & _ & _ & ->)|(Hnone & ->)].
    + by rewrite ends_insert_same.
    + rewrite fmap_app. apply uniquePairs_snoc; [done|].
      intros q (edge & -> & Hin)%list_elem_of_fmap Hsame.
      apply (Hnone edge Hin). by apply joins_samePair.
Qed.

Lemma handleAddEdge_positive from to weight st :
  positiveWeights (App.edges st) ->
  positiveWeights (App.edges (App.handleAddEdge from to weight st)).
Proof.
  intros Hw. destruct (App.invalidEdge from to weight) eqn:Hinv.
  - unfold App.handleAddEdge. by rewrite Hinv.
  - destruct weight as [w|]; [|done].
    assert (0 < w) as Hpos.
    { unfold App.invalidEdge in Hinv. apply orb_false_iff in Hinv as [_ Hinv].
      apply bool_decide_eq_false in Hinv. lia. }
    destruct (handleAddEdge_edges from to w st Hinv)
      as [(i & edge & Hi & _ & _ & ->)|(Hnone & ->)].
    + by apply Forall_insert.
    + apply Forall_app. split; [done|]. by repeat constructor.
Qed.

Lemma handleAddEdge_journey from to weight st :
  App.shortestPath (App.handleAddEdge from to weight st) = App.shortestPath st ∧
  App.trainPosition (App.handleAddEdge from to weight st) = App.trainPosition st ∧
  App.isSimulating (App.handleAddEdge from to weight st) = App.isSimulating st.
Proof. unfold App.handleAddEdge. by repeat case_match. Qed.

Lemma initGraph_edges st :
  App.edges (App.initGraph st) = App.edges st ∨ App.edges (App.initGraph st) = [].
Proof.
  unfold App.initGraph. destruct (App.countRejected (App.numStations st)); [by left|by right].
Qed.

Lemma reroute_edges fuel st st' :
  App.reroute fuel st = Some st' -> App.edges st' = App.edges st.
Proof.
  unfold App.reroute. intros H.
  destruct (App.trainPosition st) as [pos|]; [|by injection H as <-].
  destruct (App.isSimulating st && Js.truthy pos && Js.truthy (App.destNode st));
    [|by injection H as <-].
  destruct (dijkstra fuel (App.nodes st) (App.edges st) pos (App.destNode st))
    as [seg|]; [|done].
  simpl in H. repeat case_match; by injection H as <-.
Qed.

Lemma handleCalculatePath_edges fuel st st' :
  App.handleCalculatePath fuel st = Some st' -> App.edges st' = App.edges st.
Proof.
  unfold App.handleCalculatePath. intros H.
  destruct (negb (Js.truthy (App.sourceNode st)) || negb (Js.truthy (App.destNode st)));
    [by injection H as <-|].
  destruct (dijkstra fuel (App.nodes st) (App.edges st) (App.sourceNode st)
              (App.destNode st)) as [path|]; [|done].
  simpl in H. repeat case_match; by injection H as <-.
Qed.

Lemma handleProceed_edges st : App.edges (App.handleProceed st) = App.edges st.
Proof. unfold App.handleProceed. by repeat case_match. Qed.

Lemma startSimulation_edges st : App.edges (App.startSimulation st) = App.edges st.
Proof. unfold App.startSimulation. by repeat case_match. Qed.

Lemma changeNumStations_unique fuel v st st' :
  App.changeNumStations fuel v st = Some st' ->
  uniquePairs (ends <$> App.edges st) -> uniquePairs (ends <$> App.edges st').
Proof.
  unfold App.changeNumStations. intros H Hu.
  destruct (decide (v = App.numStations st)); [by injection H as <-|].
  assert (uniquePairs (ends <$> App.edges (App.initGraph (App.setNumStations v st))))
    as Hu'.
  { destruct (initGraph_edges (App.setNumStations v st)) as [-> | ->]; [done|].
    apply uniquePairs_nil. }
  destruct (App.countRejected v); [by injection H as <-|].
  apply reroute_edges in H. by rewrite H.
Qed.

Lemma changeNumStations_positive fuel v st st' :
  App.changeNumStations fuel v st = Some st' ->
  positiveWeights (App.edges st) -> positiveWeights (App.edges st').
Proof.
  unfold App.changeNumStations. intros H Hw.
  destruct (decide (v = App.numStations st)); [by injection H as <-|].
  assert (positiveWeights (App.edges (App.initGraph (App.setNumStations v st)))) as Hw'.
  { destruct (initGraph_edges (App.setNumStations v st)) as [-> | ->]; [done|].
    constructor. }
  destruct (App.countRejected v); [by injection H as <-|].
  apply reroute_edges in H. by rewrite H.
Qed.

(** Every event keeps the link set free of double links. *)
Lemma step_unique fuel ev st st' :
  App.step fuel ev st = Some st' ->
  uniquePairs (ends <$> App.edges st) -> uniquePairs (ends <$> App.edges st').
Proof.
  intros H Hu. destruct ev as [v|typed|from to w|v|v| | | | ]; simpl in H.
  - by eapply changeNumStations_unique.
  - by eapply changeNumStations_unique.
  - pose proof (handleAddEdge_unique from to w st Hu) as Hu'.
    destruct (App.invalidEdge from to w); [by injection H as <-|].
    apply reroute_edges in H. by rewrite H.
  - by injection H as <-.
  - by injection H as <-.
  - apply handleCalculatePath_edges in H. by rewrite H.
  - injection H as <-. by rewrite startSimulation_edges.
  - by injection H as <-.
  - injection H as <-. by rewrite handleProceed_edges.
Qed.

(** Every event keeps the weights positive. *)
Lemma step_positive fuel ev st st' :
  App.step fuel ev st = Some st' ->
  positiveWeights (App.edges st) -> positiveWeights (App.edges st').
Proof.
  intros H Hw. destruct ev as [v|typed|from to w|v|v| | | | ]; simpl in H.
  - by eapply changeNumStations_positive.
  - by eapply changeNumStations_positive.
  - pose proof (handleAddEdge_positive from to w st Hw) as Hw'.
    destruct (App.invalidEdge from to w); [by injection H as <-|].
    apply reroute_edges in H. by rewrite H.
  - by injection H as <-.
  - by injection H as <-.
  - apply handleCalculatePath_edges in H. by rewrite H.
  - injection H as <-. by rewrite startSimulation_edges.
  - by injection H as <-.
  - injection H as <-. by rewrite handleProceed_edges.
Qed.

(** Generated station ids are non-empty strings. *)
Lemma letters_proper (n : nat) : properIds (MkNode <$> Js.letters n).
Proof.
  unfold properIds, stationIds, Js.letters. rewrite <- !list_fmap_compose.
  apply Forall_fmap, Forall_forall. by intros i _.
Qed.

Lemma initGraph_nodes st :
  App.nodes (App.initGraph st) = App.nodes st ∨
  ∃ n : nat, App.nodes (App.initGraph st) = MkNode <$> Js.letters n.
Proof.
  unfold App.initGraph. destruct (App.countRejected (App.numStations st)); [by left|].
  right. by eexists.
Qed.

Lemma reroute_nodes fuel st st' :
  App.reroute fuel st = Some st' -> App.nodes st' = App.nodes st.
Proof.
  unfold App.reroute. intros H.
  destruct (App.trainPosition st) as [pos|]; [|by injection H as <-].
  destruct (App.isSimulating st && Js.truthy pos && Js.truthy (App.destNode st));
    [|by injection H as <-].
  destruct (dijkstra fuel (App.nodes st) (App.edges st) pos (App.destNode st))
    as [seg|]; [|done].
  simpl in H. repeat case_match; by injection H as <-.
Qed.

Lemma handleCalculatePath_nodes fuel st st' :
  App.handleCalculatePath fuel st = Some st' -> App.nodes st' = App.nodes st.
Proof.
  unfold App.handleCalculatePath. intros H.
  destruct (negb (Js.truthy (App.sourceNode st)) || negb (Js.truthy (App.destNode st)));
    [by injection H as <-|].
  destruct (dijkstra fuel (App.nodes st) (App.edges st) (App.sourceNode st)
              (App.destNode st)) as [path|]; [|done].
  simpl in H. repeat case_match; by injection H as <-.
Qed.

Lemma changeNumStations_proper fuel v st st' :
  App.changeNumStations fuel v st = Some st' ->
  properIds (App.nodes st) -> properIds (App.nodes st').
Proof.
  unfold App.changeNumStations. intros H Hp.
  destruct (decide (v = App.numStations st)); [by injection H as <-|].
  assert (properIds (App.nodes (App.initGraph (App.setNumStations v st)))) as Hp'.
  { destruct (initGraph_nodes (App.setNumStations v st)) as [-> |[k ->]]; [done|].
    apply letters_proper. }
  destruct (App.countRejected v); [by injection H as <-|].
  apply reroute_nodes in H. by rewrite H.
Qed.

(** Every event keeps the station ids non-empty. *)
Lemma step_proper fuel ev st st' :
  App.step fuel ev st = Some st' ->
  properIds (App.nodes st) -> properIds (App.nodes st').
Proof.
  intros H Hp. destruct ev as [v|typed|from to w|v|v| | | | ]; simpl in H.
  - by eapply changeNumStations_proper.
  - by eapply changeNumStations_proper.
  - assert (App.nodes (App.handleAddEdge from to w st) = App.nodes st) as Hn.
    { unfold App.handleAddEdge. by repeat case_match. }
    destruct (App.invalidEdge from to w); [injection H as <-; by rewrite Hn|].
    apply reroute_nodes in H. by rewrite H, Hn.
  - by injection H as <-.
  - by injection H as <-.
  - apply handleCalculatePath_nodes in H. by rewrite H.
  - injection H as <-. unfold App.startSimulation. by repeat case_match.
  - by injection H as <-.
  - injection H as <-. unfold App.handleProceed. by repeat case_match.
Qed.

(** In every state that a sequence of events leads to, the link set holds no
    double link, every weight is positive and every station id is a
    non-empty string. *)
Lemma run_graph_invariants fuel evs :
  ∀ st st',
    App.run fuel evs st = Some st' ->
    uniquePairs (ends <$> App.edges st) ∧ positiveWeights (App.edges st) ∧
      properIds (App.nodes st) ->
    uniquePairs (ends <$> App.edges st') ∧ positiveWeights (App.edges st') ∧
      properIds (App.nodes st').
Proof.
  induction evs as [|ev evs IH]; intros st st' H (Hu & Hw & Hp); simpl in H.
  - by injection H as <-.
  - destruct (App.step fuel ev st) as [st1|] eqn:Hstep; [|done]. simpl in H.
    apply (IH st1 st' H). split; [|split].
    + by eapply step_unique.
    + by eapply step_positive.
    + by eapply step_proper.
Qed.

Lemma initial_graph_invariants :
  uniquePairs (ends <$> App.edges App.initial) ∧
  positiveWeights (App.edges App.initial) ∧
  properIds (App.nodes App.initial).
Proof.
  split; [apply uniquePairs_nil|]. split; [constructor|].
  apply (letters_proper 6).
Qed.

(** *** [makeEdgeKey] and [addEdge] of [RailwayMap] *)

Lemma makeEdgeKey_comm a b :
  RailwayMap.makeEdgeKey a b = RailwayMap.makeEdgeKey b a.
Proof.
  unfold RailwayMap.makeEdgeKey, String.ltb.
  rewrite (String.compare_antisym a b).
  destruct (String.compare b a) eqn:Hc; simpl; try done.
  apply String.compare_eq_iff in Hc. by subst.
Qed.

Lemma samePair_key a b c d :
  samePair (a, b) (c, d) -> RailwayMap.makeEdgeKey a b = RailwayMap.makeEdgeKey c d.
Proof.
  unfold samePair. simpl. intros [[-> ->]|[-> ->]]; [done|apply makeEdgeKey_comm].
Qed.

(** What [addEdge] does to the link list. *)
Lemma addEdge_edges st :
  (RailwayMap.edges (RailwayMap.addEdge st) = RailwayMap.edges st) ∨
  (RailwayMap.newEdgeStart st ≠ RailwayMap.newEdgeEnd st ∧
   (∀ a b, (a, b) ∈ RailwayMap.edges st ->
      RailwayMap.makeEdgeKey a b ≠
      RailwayMap.makeEdgeKey (RailwayMap.newEdgeStart st) (RailwayMap.newEdgeEnd st)) ∧
   RailwayMap.edges (RailwayMap.addEdge st) =
     RailwayMap.edges st ++ [(RailwayMap.newEdgeStart st, RailwayMap.newEdgeEnd st)]).
Proof.
  unfold RailwayMap.addEdge. case_decide as Hends; [by left|].
  destruct (list_find _ (RailwayMap.edges st)) as [[i p]|] eqn:Hfind; [by left|].
  right. split; [done|]. split; [|done].
  apply list_find_None in Hfind. rewrite Forall_forall in Hfind.
  intros a b Hin. apply (Hfind (a, b) Hin).
Qed.

(** [addEdge] on a pair that has a link shows an alert and changes neither
    links nor weights. *)
Lemma addEdge_existing st a b :
  (a, b) ∈ RailwayMap.edges st ->
  samePair (a, b) (RailwayMap.newEdgeStart st, RailwayMap.newEdgeEnd st) ->
  RailwayMap.edges (RailwayMap.addEdge st) = RailwayMap.edges st ∧
  RailwayMap.weights (RailwayMap.addEdge st) = RailwayMap.weights st.
Proof.
  intros Hin Hsame. unfold RailwayMap.addEdge. case_decide; [done|].
  destruct (list_find _ (RailwayMap.edges st)) as [[i p]|] eqn:Hfind; [done|].
  apply list_find_None in Hfind. rewrite Forall_forall in Hfind.
  exfalso. apply (Hfind (a, b) Hin). by apply samePair_key.
Qed.

Lemma addEdge_unique st :
  uniquePairs (RailwayMap.edges st) ->
  uniquePairs (RailwayMap.edges (RailwayMap.addEdge st)).
Proof.
  intros Hu. destruct (addEdge_edges st) as [-> |(_ & Hfresh & ->)]; [done|].
  apply uniquePairs_snoc; [done|].
  intros [a b] Hin Hsame. apply (Hfresh a b Hin). symmetry. by apply samePair_key.
Qed.

(** On ids of one character the key tells the unordered pair. *)
Lemma key_samePair a b c d :
  oneChar a -> oneChar b -> oneChar c -> oneChar d ->
  RailwayMap.makeEdgeKey a b = RailwayMap.makeEdgeKey c d -> samePair (a, b) (c, d).
Proof.
  intros Ha Hb Hc Hd.
  destruct a as [|x [|??]]; try done. destruct b as [|y [|??]]; try done.
  destruct c as [|z [|??]]; try done. destruct d as [|t [|??]]; try done.
  unfold RailwayMap.makeEdgeKey, samePair. simpl.
  destruct (String.ltb _ _), (String.ltb _ _); simpl; intros [= -> ->]; auto.
Qed.

(** What [addEdge] does when it accepts. *)
Lemma addEdge_accepts st :
  RailwayMap.newEdgeStart st ≠ RailwayMap.newEdgeEnd st ->
  (∀ a b, (a, b) ∈ RailwayMap.edges st ->
     RailwayMap.makeEdgeKey a b ≠
     RailwayMap.makeEdgeKey (RailwayMap.newEdgeStart st) (RailwayMap.newEdgeEnd st)) ->
  RailwayMap.addEdge st =
    RailwayMap.MkState (RailwayMap.stationCount st) (RailwayMap.stations st)
      (RailwayMap.edges st ++ [(RailwayMap.newEdgeStart st, RailwayMap.newEdgeEnd st)])
      (<[RailwayMap.makeEdgeKey (RailwayMap.newEdgeStart st) (RailwayMap.newEdgeEnd st)
         := RailwayMap.newEdgeWeight st]> (RailwayMap.weights st))
      (RailwayMap.newEdgeStart st) (RailwayMap.newEdgeEnd st)
      (RailwayMap.newEdgeWeight st) (RailwayMap.alerts st).
Proof.
  intros Hne Hfresh. unfold RailwayMap.addEdge. rewrite decide_False by done.
  destruct (list_find _ (RailwayMap.edges st)) as [[i [a b]]|] eqn:Hfind; [|done].
  apply list_find_Some in Hfind as (Hi & Hkey & _).
  exfalso. apply (Hfresh a b); [|done]. by eapply list_elem_of_lookup_2.
Qed.

(** *** Properties of the graph model (C4, C5, C6) *)

(** C4, as the code has it. [changeStationCount] of [RailwayMap] clamps the
    count to [2, 26], replaces the stations by the first letters of the
    alphabet, that many, and empties links and weights. In [App] the graph
    effect does the same for a count from 2 to 15 (and resets the journey);
    for any other value of [numStations] it leaves stations and links as they
    are. The blur handler of the input clamps what was typed to [2, 15]. *)
Theorem station_regeneration :
  (∀ count st,
     2 <= Z.max 2 (Z.min 26 count) <= 26 ∧
     RailwayMap.stationCount (RailwayMap.changeStationCount count st) =
       Z.max 2 (Z.min 26 count) ∧
     RailwayMap.stations (RailwayMap.changeStationCount count st) =
       take (Z.to_nat (Z.max 2 (Z.min 26 count))) alphabet ∧
     length (RailwayMap.stations (RailwayMap.changeStationCount count st)) =
       Z.to_nat (Z.max 2 (Z.min 26 count)) ∧
     RailwayMap.edges (RailwayMap.changeStationCount count st) = [] ∧
     RailwayMap.weights (RailwayMap.changeStationCount count st) = ∅) ∧
  (∀ n st,
     2 <= n <= 15 ->
     App.nodes (App.initGraph (App.setNumStations (App.Parsed (App.Int n)) st)) =
       MkNode <$> take (Z.to_nat n) alphabet ∧
     App.edges (App.initGraph (App.setNumStations (App.Parsed (App.Int n)) st)) = [] ∧
     App.sourceNode (App.initGraph (App.setNumStations (App.Parsed (App.Int n)) st)) = "" ∧
     App.destNode (App.initGraph (App.setNumStations (App.Parsed (App.Int n)) st)) = "" ∧
     App.shortestPath (App.initGraph (App.setNumStations (App.Parsed (App.Int n)) st)) = [] ∧
     App.trainPosition (App.initGraph (App.setNumStations (App.Parsed (App.Int n)) st)) = None ∧
     App.isSimulating (App.initGraph (App.setNumStations (App.Parsed (App.Int n)) st)) = false) ∧
  (∀ v st,
     (∀ n, v = App.Parsed (App.Int n) -> n < 2 ∨ 15 < n) ->
     App.initGraph (App.setNumStations v st) = App.setNumStations v st) ∧
  (∀ typed,
     ∃ n, App.blurNumStations typed = App.Parsed (App.Int n) ∧ 2 <= n <= 15 ∧
          ∀ k, typed = App.Int k -> n = Z.max 2 (Z.min 15 k)).
Proof.
  split; [|split; [|split]].
  - intros count st. unfold RailwayMap.changeStationCount. simpl.
    set (c := Z.max 2 (Z.min 26 count)).
    assert (2 <= c <= 26) as Hc by (unfold c; lia).
    unfold RailwayMap.generateStations.
    rewrite letters_alphabet by lia.
    repeat split; try lia. rewrite length_take. simpl. lia.
  - intros n st Hn. unfold App.initGraph. simpl.
    rewrite !bool_decide_eq_false_2 by lia. simpl.
    rewrite letters_alphabet by lia. done.
  - intros v st Hv. unfold App.initGraph.
    assert (App.countRejected v = true) as Hrej.
    { destruct v as [[n|]|]; simpl; try done.
      destruct (Hv n eq_refl).
      - rewrite bool_decide_eq_true_2 by done. done.
      - rewrite (bool_decide_eq_true_2 (15 < n)) by done. apply orb_true_r. }
    simpl. by rewrite Hrej.
  - intros typed. unfold App.blurNumStations.
    destruct typed as [k|].
    + repeat case_decide; eexists; (split; [reflexivity|]); split; try lia;
        intros k' [= <-]; lia.
    + exists 2. simpl. split; [done|]. split; [lia|]. by intros k [=].
Qed.

Lemma station_regeneration_witness :
  App.nodes (App.initGraph (App.setNumStations (App.Parsed (App.Int 3)) App.initial)) =
    MkNode <$> take 3 alphabet ∧
  App.edges (App.initGraph (App.setNumStations (App.Parsed (App.Int 3)) App.initial)) = [] ∧
  App.initGraph (App.setNumStations (App.Parsed (App.Int 20)) App.initial) =
    App.setNumStations (App.Parsed (App.Int 20)) App.initial.
Proof.
  destruct station_regeneration as (_ & Hinit & Hskip & _).
  destruct (Hinit 3 App.initial ltac:(lia)) as (Hnodes & Hedges & _).
  split; [exact Hnodes|]. split; [exact Hedges|].
  apply Hskip. intros n [= <-]. right. lia.
Defined.

(** C4 as stated fails in [App]: with six stations and one link, a count of
    20 is inside [2, 26], yet the graph effect replaces no station and
    clears no link. *)
Lemma count_20_is_ignored :
  ∃ st',
    App.changeNumStations 5 (App.Parsed (App.Int 20))
      (App.handleAddEdge "A" "B" (App.Int 1) App.initial) = Some st' ∧
    App.nodes st' = MkNode <$> take 6 alphabet ∧
    App.edges st' = [MkEdge "A" "B" 1].
Proof. eexists. split; [vm_compute; reflexivity|]. done. Qed.

(** C5. [handleAddEdge] reports "invalid edge" exactly when the two stations
    are the same or the parsed weight is not a positive integer; a rejected
    call adds the report to the log and changes nothing else, the link set
    in particular. *)
Theorem handleAddEdge_rejects from to weight st :
  (head (App.logs (App.handleAddEdge from to weight st)) =
     Some "Error: Invalid edge. Ensure stations are different and weight is positive."
   ↔ (from = to ∨ ¬ ∃ w, weight = App.Int w ∧ 0 < w)) ∧
  (from = to ∨ (¬ ∃ w, weight = App.Int w ∧ 0 < w) ->
   App.handleAddEdge from to weight st =
     App.addLog
       "Error: Invalid edge. Ensure stations are different and weight is positive." st ∧
   App.edges (App.handleAddEdge from to weight st) = App.edges st).
Proof.
  assert (from = to ∨ (¬ ∃ w, weight = App.Int w ∧ 0 < w)
          ↔ App.invalidEdge from to weight = true) as Hinv.
  { unfold App.invalidEdge. destruct weight as [w|].
    - rewrite orb_true_iff, !bool_decide_eq_true. split.
      + intros [?|Hn]; [by left|]. right.
        destruct (decide (w <= 0)); [done|]. exfalso. apply Hn. exists w. split; [done|lia].
      + intros [?|?]; [by left|]. right. intros (w' & [= <-] & ?). lia.
    - split; [done|]. intros _. right. by intros (w & ? & _). }
  split.
  - rewrite Hinv. unfold App.handleAddEdge.
    destruct (App.invalidEdge from to weight) eqn:Hbad; [done|].
    split; [|done].
    destruct weight as [w|]; [|done].
    destruct (list_find (App.joins from to) (App.edges st)) as [[i edge]|];
      rewrite addLog_head; simpl; intros [=].
  - rewrite Hinv. intros Hbad. unfold App.handleAddEdge. by rewrite Hbad.
Qed.

Lemma handleAddEdge_rejects_witness :
  App.handleAddEdge "A" "A" (App.Int 3) App.initial =
    App.addLog
      "Error: Invalid edge. Ensure stations are different and weight is positive."
      App.initial ∧
  App.edges (App.handleAddEdge "A" "A" (App.Int 3) App.initial) = App.edges App.initial.
Proof.
  apply (proj2 (handleAddEdge_rejects "A" "A" (App.Int 3) App.initial)).
  left. reflexivity.
Defined.

(** C6. The link set holds at most one link for an unordered pair of
    stations. In [App], an accepted [handleAddEdge] on a pair that has a link
    puts the new weight into that link, at its place, and the number of
    links stays; on a pair without a link it appends one link; every event
    of [App] keeps the link set free of double links, so no state that
    events lead to from the first one has a double link; [addEdge],
    [changeStationCount] and [updateWeight] of [RailwayMap] keep it so as
    well, [addEdge] leaving the links as they are or appending one, and
    refusing a pair that has a link. [addEdge] of [RailwayMap] on two
    different stations whose key no link has appends that one link and
    puts the form's weight under the key, with no alert; for ids of one
    character, as the generated ones are, that is the case whenever no
    link joins the same unordered pair; on one and the same station at
    both ends it changes neither links nor weights and raises an alert. *)
Theorem link_set_unique_pairs :
  (∀ from to w st,
     App.invalidEdge from to (App.Int w) = false ->
     uniquePairs (ends <$> App.edges st) ->
     uniquePairs (ends <$> App.edges (App.handleAddEdge from to (App.Int w) st)) ∧
     (∀ (i : nat) edge,
        App.edges st !! i = Some edge -> App.joins from to edge ->
        App.edges (App.handleAddEdge from to (App.Int w) st) =
          <[i := MkEdge (source edge) (target edge) w]> (App.edges st) ∧
        length (App.edges (App.handleAddEdge from to (App.Int w) st)) =
          length (App.edges st)) ∧
     ((∀ edge, edge ∈ App.edges st -> ¬ App.joins from to edge) ->
        App.edges (App.handleAddEdge from to (App.Int w) st) =
          App.edges st ++ [MkEdge from to w] ∧
        length (App.edges (App.handleAddEdge from to (App.Int w) st)) =
          S (length (App.edges st)))) ∧
  (∀ fuel ev st st',
     App.step fuel ev st = Some st' ->
     uniquePairs (ends <$> App.edges st) -> uniquePairs (ends <$> App.edges st')) ∧
  (∀ fuel evs st,
     App.run fuel evs App.initial = Some st -> uniquePairs (ends <$> App.edges st)) ∧
  (∀ st,
     uniquePairs (RailwayMap.edges st) ->
     uniquePairs (RailwayMap.edges (RailwayMap.addEdge st)) ∧
     (RailwayMap.edges (RailwayMap.addEdge st) = RailwayMap.edges st ∨
      RailwayMap.edges (RailwayMap.addEdge st) =
        RailwayMap.edges st ++
          [(RailwayMap.newEdgeStart st, RailwayMap.newEdgeEnd st)])) ∧
  (∀ st p,
     p ∈ RailwayMap.edges st ->
     samePair p (RailwayMap.newEdgeStart st, RailwayMap.newEdgeEnd st) ->
     RailwayMap.edges (RailwayMap.addEdge st) = RailwayMap.edges st ∧
     RailwayMap.weights (RailwayMap.addEdge st) = RailwayMap.weights st) ∧
  (∀ count st, RailwayMap.edges (RailwayMap.changeStationCount count st) = []) ∧
  (∀ key val st,
     RailwayMap.edges (RailwayMap.updateWeight key val st) = RailwayMap.edges st) ∧
  uniquePairs (RailwayMap.edges RailwayMap.initial) ∧
  (∀ st,
     RailwayMap.newEdgeStart st ≠ RailwayMap.newEdgeEnd st ->
     (∀ a b, (a, b) ∈ RailwayMap.edges st ->
        RailwayMap.makeEdgeKey a b ≠
        RailwayMap.makeEdgeKey (RailwayMap.newEdgeStart st) (RailwayMap.newEdgeEnd st)) ->
     RailwayMap.edges (RailwayMap.addEdge st) =
       RailwayMap.edges st ++ [(RailwayMap.newEdgeStart st, RailwayMap.newEdgeEnd st)] ∧
     length (RailwayMap.edges (RailwayMap.addEdge st)) =
       S (length (RailwayMap.edges st)) ∧
     RailwayMap.weights (RailwayMap.addEdge st) =
       <[RailwayMap.makeEdgeKey (RailwayMap.newEdgeStart st) (RailwayMap.newEdgeEnd st)
         := RailwayMap.newEdgeWeight st]> (RailwayMap.weights st) ∧
     RailwayMap.alerts (RailwayMap.addEdge st) = RailwayMap.alerts st) ∧
  (∀ st,
     RailwayMap.newEdgeStart st ≠ RailwayMap.newEdgeEnd st ->
     oneChar (RailwayMap.newEdgeStart st) -> oneChar (RailwayMap.newEdgeEnd st) ->
     (∀ a b, (a, b) ∈ RailwayMap.edges st ->
        oneChar a ∧ oneChar b ∧
        ¬ samePair (a, b) (RailwayMap.newEdgeStart st, RailwayMap.newEdgeEnd st)) ->
     RailwayMap.edges (RailwayMap.addEdge st) =
       RailwayMap.edges st ++ [(RailwayMap.newEdgeStart st, RailwayMap.newEdgeEnd st)] ∧
     RailwayMap.weights (RailwayMap.addEdge st) =
       <[RailwayMap.makeEdgeKey (RailwayMap.newEdgeStart st) (RailwayMap.newEdgeEnd st)
         := RailwayMap.newEdgeWeight st]> (RailwayMap.weights st)) ∧
  (∀ st,
     RailwayMap.newEdgeStart st = RailwayMap.newEdgeEnd st ->
     RailwayMap.edges (RailwayMap.addEdge st) = RailwayMap.edges st ∧
     RailwayMap.weights (RailwayMap.addEdge st) = RailwayMap.weights st ∧
     RailwayMap.alerts (RailwayMap.addEdge st) =
       RailwayMap.alerts st ++ ["Start and end stations must differ"]).
Proof.
  split; [|split; [|split; [|split; [|split; [|split; [|split;
    [|split; [|split; [|split]]]]]]]]].
  - intros from to w st Hok Hu. split; [by apply handleAddEdge_unique|].
    destruct (handleAddEdge_edges from to w st Hok)
      as [(i0 & edge0 & Hi0 & Hj0 & _ & Heq)|(Hnone & Heq)].
    + split.
      * intros i edge Hi Hj.
        assert (i = i0) as -> by (by eapply joins_unique_index).
        rewrite Hi0 in Hi. injection Hi as <-.
        split; [done|]. rewrite Heq. apply length_insert.
      * intros Hnone. exfalso. apply (Hnone edge0); [|done].
        by eapply list_elem_of_lookup_2.
    + split.
      * intros i edge Hi Hj. exfalso. apply (Hnone edge); [|done].
        by eapply list_elem_of_lookup_2.
      * intros _. split; [done|]. rewrite Heq, length_app. simpl. lia.
  - apply step_unique.
  - intros fuel evs st Hrun.
    apply (run_graph_invariants fuel evs App.initial st Hrun).
    apply initial_graph_invariants.
  - intros st Hu. split; [by apply addEdge_unique|].
    destruct (addEdge_edges st) as [?|(_ & _ & ?)]; [by left|by right].
  - intros st [a b] Hin Hsame. by apply addEdge_existing with (a := a) (b := b).
  - done.
  - done.
  - apply uniquePairs_nil.
  - intros st Hne Hfresh. rewrite (addEdge_accepts st Hne Hfresh). simpl.
    repeat split. rewrite length_app. simpl. lia.
  - intros st Hne Hs He Hfresh. rewrite (addEdge_accepts st Hne); [done|].
    intros a b Hin Hkey. destruct (Hfresh a b Hin) as (Ha & Hb & Hno).
    apply Hno. by apply key_samePair.
  - intros st Heq. unfold RailwayMap.addEdge. by rewrite decide_True.
Qed.

Lemma link_set_unique_pairs_witness :
  (uniquePairs
     (ends <$> App.edges
        (App.handleAddEdge "B" "A" (App.Int 7)
           (App.handleAddEdge "A" "B" (App.Int 1) App.initial))) ∧
   App.edges
     (App.handleAddEdge "B" "A" (App.Int 7)
        (App.handleAddEdge "A" "B" (App.Int 1) App.initial)) =
     [MkEdge "A" "B" 7]) ∧
  (RailwayMap.edges (RailwayMap.addEdge RailwayMap.initial) = [] ++ [("A", "B")] ∧
   length (RailwayMap.edges (RailwayMap.addEdge RailwayMap.initial)) = 1%nat ∧
   RailwayMap.weights (RailwayMap.addEdge RailwayMap.initial) = <["A-B" := 1]> ∅ ∧
   RailwayMap.alerts (RailwayMap.addEdge RailwayMap.initial) = []).
Proof.
  destruct link_set_unique_pairs as (Happ & _ & _ & _ & _ & _ & _ & _ & Hmap & _).
  split.
  - destruct (Happ "B" "A" 7
                (App.handleAddEdge "A" "B" (App.Int 1) App.initial) eq_refl)
      as (Hu & Hupdate & _).
    + intros [|i] [|j] p q Hi Hj _; try done.
    + split; [exact Hu|].
      exact (proj1 (Hupdate O (MkEdge "A" "B" 1) eq_refl
                      (or_intror (conj eq_refl eq_refl)))).
  - apply (Hmap RailwayMap.initial).
    + discriminate.
    + intros a b Hin. by apply elem_of_nil in Hin.
Defined.

(** ** The journey state machine *)

Lemma indexOf_spec x l :
  (Js.indexOf x l = -1 ∧ x ∉ l) ∨
  (∃ i : nat, Js.indexOf x l = Z.of_nat i ∧ l !! i = Some x ∧ x ∉ take i l).
Proof.
  induction l as [|y l IH]; simpl.
  - left. split; [done|]. apply not_elem_of_nil.
  - destruct (decide (y = x)) as [->|Hne].
    + right. exists O. repeat split. apply not_elem_of_nil.
    + destruct IH as [[Hidx Hnot]|(i & Hidx & Hi & Hnot)].
      * left. rewrite Hidx. split; [done|].
        intros [?|?]%elem_of_cons; congruence.
      * right. exists (S i). rewrite Hidx.
        destruct (decide (Z.of_nat i = -1)); [lia|].
        split; [lia|]. split; [done|]. simpl.
        intros [?|?]%elem_of_cons; congruence.
Qed.

Lemma slice0_index (i : nat) (l : list string) x :
  l !! i = Some x -> Js.slice0 (Z.of_nat i) l = take i l.
Proof.
  intros Hi. apply lookup_lt_Some in Hi. unfold Js.slice0.
  destruct (decide (Z.of_nat i < 0)); [lia|]. f_equal. lia.
Qed.

Lemma take_splice (i : nat) (l : list string) x rest :
  l !! i = Some x -> take (S i) (take i l ++ x :: rest) = take (S i) l.
Proof.
  intros Hi. rewrite (take_S_r l i x Hi).
  pose proof (lookup_lt_Some _ _ _ Hi) as Hlen.
  rewrite take_app_ge by (rewrite length_take; lia).
  rewrite length_take. replace (S i - i `min` length l)%nat with 1%nat by lia.
  done.
Qed.

(** *** The train stays on the path, once it is there *)

Lemma handleProceed_onPath st : onPath st -> onPath (App.handleProceed st).
Proof.
  intros Hon. unfold App.handleProceed.
  destruct (negb (App.isSimulating st) || negb (Js.truthy_opt (App.trainPosition st)));
    [done|].
  case_decide as Hidx; [|done].
  set (pos := default "" (App.trainPosition st)) in *.
  assert (∃ next, App.shortestPath st
                    !! Z.to_nat (Js.indexOf pos (App.shortestPath st) + 1) = Some next)
    as (next & Hnext).
  { apply lookup_lt_is_Some.
    destruct (indexOf_spec pos (App.shortestPath st)) as [[Hi _]|(i & Hi & _)]; lia. }
  rewrite Hnext. case_decide.
  - by intros.
  - intros _. exists next. split; [done|]. by eapply list_elem_of_lookup_2.
Qed.

Lemma reroute_onPath fuel st st' :
  positiveWeights (App.edges st) ->
  App.reroute fuel st = Some st' -> onPath st -> onPath st'.
Proof.
  intros Hw Hrun Hon. unfold App.reroute in Hrun.
  destruct (App.trainPosition st) as [pos|] eqn:Hpos; [|by injection Hrun as <-].
  destruct (App.isSimulating st && Js.truthy pos && Js.truthy (App.destNode st))
    eqn:Hgo; [|by injection Hrun as <-].
  destruct (dijkstra fuel (App.nodes st) (App.edges st) pos (App.destNode st))
    as [seg|] eqn:Hseg; [|done].
  simpl in Hrun. destruct seg as [|x seg].
  - simpl in Hrun. injection Hrun as <-. by intros.
  - destruct (dijkstra_ends _ _ _ _ _ _ Hw Hseg ltac:(done)) as [Hhead _].
    simpl in Hhead. injection Hhead as ->.
    rewrite bool_decide_eq_true_2 in Hrun by (simpl; lia).
    case_decide as Hnew; injection Hrun as <-.
    + intros _. exists pos. split; [done|]. simpl.
      apply elem_of_app. right. by left.
    + intros Hsim. simpl in Hsim. destruct (Hon Hsim) as (p & Hp & Hin).
      exists p. by split.
Qed.

Lemma startSimulation_onPath st :
  onPath st -> App.sourceNode st ∈ App.shortestPath st ->
  onPath (App.startSimulation st).
Proof.
  intros Hon Hsrc. unfold App.startSimulation.
  destruct (_ && _); [|done]. intros _. by exists (App.sourceNode st).
Qed.

Lemma handleCalculatePath_source fuel st st' :
  positiveWeights (App.edges st) ->
  Js.truthy (App.sourceNode st) = true -> Js.truthy (App.destNode st) = true ->
  App.handleCalculatePath fuel st = Some st' ->
  App.isSimulating st' = false ∧ App.sourceNode st' = App.sourceNode st ∧
  (App.shortestPath st' = [] ∨ head (App.shortestPath st') = Some (App.sourceNode st)).
Proof.
  intros Hw Hs Hd Hrun. unfold App.handleCalculatePath in Hrun.
  rewrite Hs, Hd in Hrun. simpl in Hrun.
  destruct (dijkstra fuel (App.nodes st) (App.edges st) (App.sourceNode st)
              (App.destNode st)) as [path|] eqn:Hpath; [|done].
  simpl in Hrun. destruct path as [|x path].
  - simpl in Hrun. injection Hrun as <-. repeat split. by left.
  - destruct (dijkstra_ends _ _ _ _ _ _ Hw Hpath ltac:(done)) as [Hhead _].
    rewrite bool_decide_eq_true_2 in Hrun by (simpl; lia).
    injection Hrun as <-. repeat split. by right.
Qed.

Lemma changeNumStations_onPath fuel v st st' :
  App.changeNumStations fuel v st = Some st' -> onPath st -> onPath st'.
Proof.
  unfold App.changeNumStations. intros H Hon.
  destruct (decide (v = App.numStations st)); [by injection H as <-|].
  unfold App.initGraph in H. simpl in H.
  destruct (App.countRejected v); [by injection H as <-|].
  unfold App.reroute in H. simpl in H. by injection H as <-.
Qed.

Lemma handleCalculatePath_onPath fuel st st' :
  App.handleCalculatePath fuel st = Some st' -> onPath st -> onPath st'.
Proof.
  unfold App.handleCalculatePath. intros H Hon.
  destruct (negb (Js.truthy (App.sourceNode st)) || negb (Js.truthy (App.destNode st)));
    [by injection H as <-|].
  destruct (dijkstra fuel (App.nodes st) (App.edges st) (App.sourceNode st)
              (App.destNode st)) as [path|]; [|done].
  simpl in H. destruct (bool_decide _); by injection H as <-.
Qed.

(** Every event but the start of a journey keeps an active train on the
    path; the start does so when the selected source is on the path. *)
Lemma step_onPath fuel ev st st' :
  positiveWeights (App.edges st) ->
  (ev = App.StartJourney -> App.sourceNode st ∈ App.shortestPath st) ->
  App.step fuel ev st = Some st' -> onPath st -> onPath st'.
Proof.
  intros Hw Hstart H Hon. destruct ev as [v|typed|from to w|v|v| | | | ]; simpl in H.
  - by eapply changeNumStations_onPath.
  - by eapply changeNumStations_onPath.
  - assert (onPath (App.handleAddEdge from to w st)) as Hon'.
    { destruct (handleAddEdge_journey from to w st) as (Hp & Ht & Hs).
      unfold onPath. by rewrite Hp, Ht, Hs. }
    destruct (App.invalidEdge from to w); [by injection H as <-|].
    eapply reroute_onPath; [|done..]. by apply handleAddEdge_positive.
  - by injection H as <-.
  - by injection H as <-.
  - by eapply handleCalculatePath_onPath.
  - injection H as <-. apply startSimulation_onPath; [done|]. by apply Hstart.
  - injection H as <-. by intros.
  - injection H as <-. by apply handleProceed_onPath.
Qed.

(** *** Properties of the journey (C2, C3, C9, C10) *)

(** C2 fails on the code. After a path from A to B has been calculated, the
    source selection changed to C and the journey started (the defect of
    C10), the train is in transit at C, off the path A, B. Adding the link
    C-B then runs the re-route effect: [indexOf] gives [-1], [slice(0, -1)]
    drops the last station of the old path, and the adopted path is A, C,
    B. Its prefix up to and including the train position, A, C, is no
    prefix of the path adopted before. *)
Theorem reroute_off_path_replaces_prefix :
  ∃ st st',
    App.run 20
      [App.AddEdge "A" "B" (App.Int 1); App.SelectSource "A"; App.SelectDest "B";
       App.CalculatePath; App.SelectSource "C"; App.StartJourney]
      App.initial = Some st ∧
    App.isSimulating st = true ∧
    App.trainPosition st = Some "C" ∧
    App.destNode st = "B" ∧
    App.shortestPath st = ["A"; "B"] ∧
    App.step 20 (App.AddEdge "C" "B" (App.Int 1)) st = Some st' ∧
    App.isSimulating st' = true ∧
    App.trainPosition st' = Some "C" ∧
    App.shortestPath st' = ["A"; "C"; "B"] ∧
    Js.indexOf "C" (App.shortestPath st') = 1 ∧
    ¬ take 2 (App.shortestPath st') `prefix_of` App.shortestPath st.
Proof.
  eexists _, _. split; [vm_compute; reflexivity|].
  do 4 (split; [reflexivity|]).
  split; [vm_compute; reflexivity|].
  do 4 (split; [reflexivity|]).
  simpl. intros [k Hk]. simpl in Hk. discriminate Hk.
Qed.

(** C3. In transit, when [dijkstra] from the train position to the
    destination returns the empty sequence, the re-route effect clears the
    active flag and the position, keeps the path, and logs "No alternative
    path found from ... Stopping simulation." followed by "Simulation
    stopped.". *)
Theorem reroute_no_alternative fuel st pos :
  App.isSimulating st = true -> App.trainPosition st = Some pos ->
  Js.truthy pos = true -> Js.truthy (App.destNode st) = true ->
  dijkstra fuel (App.nodes st) (App.edges st) pos (App.destNode st) = Some [] ->
  ∃ st',
    App.reroute fuel st = Some st' ∧
    App.isSimulating st' = false ∧
    App.trainPosition st' = None ∧
    App.shortestPath st' = App.shortestPath st ∧
    App.logs st' !! 0%nat = Some "Simulation stopped." ∧
    App.logs st' !! 1%nat =
      Some ("No alternative path found from " +:+ pos +:+ ". Stopping simulation.").
Proof.
  intros Hsim Hpos Htp Htd Hnone. unfold App.reroute.
  rewrite Hpos, Hsim, Htp, Htd, Hnone. simpl.
  eexists. split; [reflexivity|]. done.
Qed.

Lemma reroute_no_alternative_witness :
  ∃ st',
    App.reroute 10
      (App.MkState (App.Parsed (App.Int 3)) (MkNode <$> Js.letters 3)
         [MkEdge "A" "B" 1] "A" "C" ["A"; "B"; "C"] (Some "B") true []) = Some st' ∧
    App.isSimulating st' = false ∧
    App.trainPosition st' = None ∧
    App.shortestPath st' = ["A"; "B"; "C"] ∧
    App.logs st' !! 0%nat = Some "Simulation stopped." ∧
    App.logs st' !! 1%nat =
      Some ("No alternative path found from " +:+ "B" +:+ ". Stopping simulation.").
Proof.
  apply (reroute_no_alternative 10
           (App.MkState (App.Parsed (App.Int 3)) (MkNode <$> Js.letters 3)
              [MkEdge "A" "B" 1] "A" "C" ["A"; "B"; "C"] (Some "B") true []) "B");
    reflexivity.
Defined.

(** C9, as the code has it. [handleProceed] with no journey in transit
    returns the state as it is, the log included: it reports nothing.
    [startSimulation] with an empty path leaves path, position and active
    flag as they are and logs "Cannot start: Calculate a path first.". Both
    are total functions. *)
Theorem idle_operations_change_nothing st :
  (App.isSimulating st = false ∨ Js.truthy_opt (App.trainPosition st) = false ->
   App.handleProceed st = st) ∧
  (App.shortestPath st = [] ->
   App.startSimulation st = App.addLog "Cannot start: Calculate a path first." st ∧
   App.shortestPath (App.startSimulation st) = App.shortestPath st ∧
   App.trainPosition (App.startSimulation st) = App.trainPosition st ∧
   App.isSimulating (App.startSimulation st) = App.isSimulating st ∧
   head (App.logs (App.startSimulation st)) =
     Some "Cannot start: Calculate a path first.").
Proof.
  split.
  - intros Hidle. unfold App.handleProceed.
    destruct Hidle as [-> | ->]; [done|]. by rewrite orb_true_r.
  - intros Hpath. unfold App.startSimulation. rewrite Hpath. simpl. done.
Qed.

Lemma idle_operations_change_nothing_witness :
  App.handleProceed App.initial = App.initial ∧
  App.startSimulation App.initial =
    App.addLog "Cannot start: Calculate a path first." App.initial.
Proof.
  split.
  - apply (proj1 (idle_operations_change_nothing App.initial)). left. reflexivity.
  - apply (proj2 (idle_operations_change_nothing App.initial)). reflexivity.
Defined.

(** C9 as stated fails: in the first state of the application no journey is
    in transit, and [handleProceed] adds no line to the log. *)
Lemma proceed_idle_logs_nothing :
  App.isSimulating App.initial = false ∧
  ¬ ∃ message,
      App.logs (App.handleProceed App.initial) =
      take 10 (message :: App.logs App.initial).
Proof.
  split; [reflexivity|]. intros (message & H). vm_compute in H. discriminate H.
Qed.

(** C10 fails on the code: after a path from A to B has been calculated, the
    source selection can be changed to C and the journey started; the train
    is then active at C, which is not on the path. *)
Theorem start_after_source_change_leaves_path :
  ∃ st,
    App.run 20
      [App.AddEdge "A" "B" (App.Int 1); App.SelectSource "A"; App.SelectDest "B";
       App.CalculatePath; App.SelectSource "C"; App.StartJourney]
      App.initial = Some st ∧
    App.isSimulating st = true ∧
    App.shortestPath st = ["A"; "B"] ∧
    App.trainPosition st = Some "C" ∧
    ("C" ∉ App.shortestPath st) ∧
    ¬ onPath st.
Proof.
  eexists. split; [vm_compute; reflexivity|].
  assert ("C" ∉ ["A"; "B"]) as Hoff.
  { intros H. repeat (apply elem_of_cons in H as [H|H]; [discriminate H|]).
    by apply elem_of_nil in H. }
  repeat split; [exact Hoff|].
  intros Hon. destruct (Hon eq_refl) as (pos & [= <-] & Hin). by apply Hoff.
Qed.

(** ** The scenarios of the specification *)

Example scenario_1 :
  dijkstra 10 (MkNode <$> Js.letters 3)
    [MkEdge "A" "B" 1; MkEdge "B" "C" 1; MkEdge "A" "C" 5] "A" "C"
  = Some ["A"; "B"; "C"].
Proof. reflexivity. Qed.

Example scenario_2 :
  App.shortestPath <$>
    App.step 10 (App.AddEdge "A" "B" (App.Int 10))
      (App.MkState (App.Parsed (App.Int 3)) (MkNode <$> Js.letters 3)
         [MkEdge "A" "B" 1; MkEdge "B" "C" 1; MkEdge "A" "C" 5]
         "A" "C" ["A"; "B"; "C"] (Some "A") true [])
  = Some ["A"; "C"].
Proof. reflexivity. Qed.

Example scenario_2_from_position :
  App.shortestPath <$>
    App.step 10 (App.AddEdge "B" "C" (App.Int 10))
      (App.MkState (App.Parsed (App.Int 3)) (MkNode <$> Js.letters 3)
         [MkEdge "A" "B" 1; MkEdge "B" "C" 1; MkEdge "A" "C" 5]
         "A" "C" ["A"; "B"; "C"] (Some "B") true [])
  = Some ["A"; "B"; "A"; "C"].
Proof. reflexivity. Qed.

Example scenario_3 :
  dijkstra 10 (MkNode <$> Js.letters 4)
    [MkEdge "A" "B" 1; MkEdge "B" "C" 1; MkEdge "A" "C" 5] "A" "D"
  = Some [].
Proof. reflexivity. Qed.

Example scenario_4 :
  (fun st => (App.isSimulating st, App.trainPosition st, App.shortestPath st,
              head (App.logs st))) <$>
    App.reroute 10
      (App.MkState (App.Parsed (App.Int 3)) (MkNode <$> Js.letters 3)
         [MkEdge "A" "B" 1] "A" "C" ["A"; "B"; "C"] (Some "B") true [])
  = Some (false, None, ["A"; "B"; "C"], Some "Simulation stopped.").
Proof. reflexivity. Qed.

Example scenario_ties :
  dijkstra 10 (MkNode <$> Js.letters 4)
    [MkEdge "A" "C" 1; MkEdge "A" "B" 1; MkEdge "B" "D" 1; MkEdge "C" "D" 1] "A" "D"
  = Some ["A"; "C"; "D"].
Proof. reflexivity. Qed.

(** * Further properties of the code *)

(** ** The priority queue: order of service *)

Lemma insert_front x l :
  (∀ y, head l = Some y -> PriorityQueue.priority x <= PriorityQueue.priority y) ->
  PriorityQueue.insert x l = x :: l.
Proof.
  destruct l as [|y l]; simpl; [done|]. intros H.
  rewrite decide_True; [done|]. by apply H.
Qed.

Lemma filter_le_all (p : Z) (l : list PriorityQueue.entry) :
  Forall (fun q => p < PriorityQueue.priority q) l ->
  filter (fun q => PriorityQueue.priority q <= p) l = [] ∧
  filter (fun q => p < PriorityQueue.priority q) l = l.
Proof.
  induction 1 as [|y l Hy Hl [IH1 IH2]]; [done|].
  rewrite !filter_cons. rewrite decide_False by lia. rewrite decide_True by done.
  by rewrite IH1, IH2.
Qed.

(** X1. On a queue that is in ascending order, [enqueue] puts the new entry
    behind every entry whose priority is not above its own and in front of
    the others, and moves nothing else: entries of equal priority are served
    in the order they came. *)
Theorem enqueue_position v p values :
  ascending values ->
  PriorityQueue.enqueue v p values =
    filter (fun q => PriorityQueue.priority q <= p) values
    ++ PriorityQueue.Entry v p
       :: filter (fun q => p < PriorityQueue.priority q) values.
Proof.
  unfold PriorityQueue.enqueue, PriorityQueue.sort. rewrite foldr_app. simpl.
  induction 1 as [|y l Hl IH Hy]; [done|]. simpl. rewrite IH.
  rewrite !filter_cons.
  destruct (decide (PriorityQueue.priority y <= p)) as [Hle|Hgt].
  - rewrite decide_False by lia. apply insert_front.
    intros h Hh. rewrite Forall_forall in Hy.
    destruct (filter (fun q => PriorityQueue.priority q <= p) l) as [|z zs] eqn:Hf.
    + simpl in Hh. injection Hh as <-. simpl. lia.
    + simpl in Hh. injection Hh as <-. apply Hy.
      assert (z ∈ filter (fun q => PriorityQueue.priority q <= p) l) as Hz
        by (rewrite Hf; left).
      by apply list_elem_of_filter in Hz as [_ ?].
  - rewrite decide_True by lia.
    assert (Forall (fun q => p < PriorityQueue.priority q) l) as Hall.
    { eapply Forall_impl; [exact Hy|]. simpl. intros. lia. }
    destruct (filter_le_all p l Hall) as [-> ->]. simpl.
    rewrite decide_False by (simpl; lia). f_equal.
    apply insert_front. intros h Hh. rewrite Forall_forall in Hy.
    apply Hy. destruct l; [done|]. injection Hh as <-. left.
Qed.

Lemma enqueue_position_witness :
  PriorityQueue.enqueue "C" 2
    [PriorityQueue.Entry "A" 1; PriorityQueue.Entry "B" 2; PriorityQueue.Entry "D" 3] =
  [PriorityQueue.Entry "A" 1; PriorityQueue.Entry "B" 2; PriorityQueue.Entry "C" 2;
   PriorityQueue.Entry "D" 3].
Proof.
  apply (enqueue_position "C" 2
           [PriorityQueue.Entry "A" 1; PriorityQueue.Entry "B" 2;
            PriorityQueue.Entry "D" 3]).
  repeat constructor; simpl; lia.
Defined.

(** X2. Whatever the array held, after [enqueue] the next [dequeue] gives an
    entry of least priority; the entry and what is left are the old entries
    and the new one, and what is left is in ascending order. *)
Theorem dequeue_after_enqueue v p values :
  ∃ q rest,
    PriorityQueue.dequeue (PriorityQueue.enqueue v p values) = Some (q, rest) ∧
    q :: rest ≡ₚ values ++ [PriorityQueue.Entry v p] ∧
    ascending rest ∧
    ∀ x, x ∈ values ++ [PriorityQueue.Entry v p] ->
         PriorityQueue.priority q <= PriorityQueue.priority x.
Proof.
  pose proof (enqueue_ascending v p values) as Hs.
  assert (PriorityQueue.enqueue v p values ≡ₚ values ++ [PriorityQueue.Entry v p])
    as Hperm by apply sort_perm.
  destruct (PriorityQueue.enqueue v p values) as [|q rest] eqn:Hq.
  - apply Permutation_nil_l in Hperm. by destruct values.
  - exists q, rest. split; [done|]. split; [done|].
    split; [by eapply ascending_tail|].
    intros x Hx. eapply ascending_head; [done|]. by rewrite Hperm.
Qed.

(** ** The shortest-path engine: what any returned value is *)

(** X3. With positive weights, whatever [dijkstra] returns that is not the
    empty sequence is a route of the graph: it starts at the start, ends at
    the end, visits stations only and goes from each to the next over a
    link. This needs nothing of the station ids and holds for every step
    budget. *)
Theorem dijkstra_sound fuel nodes edges s e r :
  positiveWeights edges -> dijkstra fuel nodes edges s e = Some r -> r ≠ [] ->
  ∃ c, walk nodes edges r c ∧ head r = Some s ∧ last r = Some e ∧
       s ∈ stationIds nodes ∧ e ∈ stationIds nodes.
Proof.
  intros Hw Hrun Hne.
  destruct (dijkstra_route _ _ _ _ _ _ Hw Hrun) as [->|(c & Hwalk & Hh & Hl & _)];
    [done|].
  exists c. repeat split; try done; [|by eapply walk_last_station].
  destruct r as [|x r]; [done|]. injection Hh as ->. by eapply walk_head_station.
Qed.

Lemma dijkstra_sound_witness :
  ∃ c,
    walk (MkNode <$> Js.letters 3)
      [MkEdge "A" "B" 1; MkEdge "B" "C" 1; MkEdge "A" "C" 5] ["A"; "B"; "C"] c ∧
    head ["A"; "B"; "C"] = Some "A" ∧ last ["A"; "B"; "C"] = Some "C" ∧
    "A" ∈ stationIds (MkNode <$> Js.letters 3) ∧
    "C" ∈ stationIds (MkNode <$> Js.letters 3).
Proof.
  apply (dijkstra_sound 10 (MkNode <$> Js.letters 3)
           [MkEdge "A" "B" 1; MkEdge "B" "C" 1; MkEdge "A" "C" 5] "A" "C").
  - repeat constructor.
  - reflexivity.
  - discriminate.
Defined.

Lemma dijkstra_nodup fuel nodes edges s e r :
  positiveWeights edges -> dijkstra fuel nodes edges s e = Some r -> NoDup r.
Proof.
  intros Hw Hrun.
  destruct (dijkstra_route _ _ _ _ _ _ Hw Hrun) as [->|(c & _ & _ & _ & Hnd)];
    [constructor|done].
Qed.

(** X4. With positive weights, no station comes twice in what [dijkstra]
    returns. *)
Theorem dijkstra_no_repeat fuel nodes edges s e r :
  positiveWeights edges -> dijkstra fuel nodes edges s e = Some r -> NoDup r.
Proof. apply dijkstra_nodup. Qed.

Lemma dijkstra_no_repeat_witness : NoDup ["A"; "B"; "C"].
Proof.
  apply (dijkstra_no_repeat 10 (MkNode <$> Js.letters 3)
           [MkEdge "A" "B" 1; MkEdge "B" "C" 1; MkEdge "A" "C" 5] "A" "C").
  - repeat constructor.
  - reflexivity.
Defined.

(** X5. On a graph with positive weights that are small enough for no sum
    to be rounded, and non-empty station ids, [dijkstra] between two
    stations returns the empty sequence exactly when no walk leads from the
    start to the end. (With larger weights a sum can be [Infinity], and the
    empty sequence is returned for an end that can be reached.) *)
Theorem dijkstra_empty_iff_unreachable nodes edges s e :
  positiveWeights edges -> exactSums nodes edges -> properIds nodes ->
  s ∈ stationIds nodes -> e ∈ stationIds nodes ->
  (∃ fuel, dijkstra fuel nodes edges s e = Some []) ↔ ¬ reachable nodes edges s e.
Proof.
  intros Hw Hexact Hproper Hs He. split.
  - intros [fuel Hrun]. by eapply dijkstra_empty_unreachable.
  - intros Hno.
    destruct (dijkstra_returns nodes edges s e Hw) as (n & r & Hrun & Hroute).
    exists n. rewrite (Hrun n) by lia. f_equal.
    destruct Hroute as [->|(c & Hwalk & Hh & Hl & _)]; [done|].
    exfalso. apply Hno. by exists r, c.
Qed.

Lemma dijkstra_empty_iff_unreachable_witness :
  (∃ fuel,
     dijkstra fuel (MkNode <$> Js.letters 4)
       [MkEdge "A" "B" 1; MkEdge "B" "C" 1] "A" "D" = Some []) ↔
  ¬ reachable (MkNode <$> Js.letters 4) [MkEdge "A" "B" 1; MkEdge "B" "C" 1] "A" "D".
Proof.
  apply (dijkstra_empty_iff_unreachable (MkNode <$> Js.letters 4)
           [MkEdge "A" "B" 1; MkEdge "B" "C" 1] "A" "D").
  - repeat constructor.
  - repeat constructor.
  - repeat constructor.
  - vm_compute. repeat constructor.
  - vm_compute. repeat constructor.
Defined.

(** *** Links are taken in both directions *)






(** ** The log *)

Lemma addLog_bounded message st :
  (length (App.logs (App.addLog message st)) <= 10)%nat.
Proof. unfold App.addLog. simpl. rewrite length_take. lia. Qed.

Lemma reroute_logs fuel st st' :
  App.reroute fuel st = Some st' ->
  (length (App.logs st) <= 10)%nat -> (length (App.logs st') <= 10)%nat.
Proof.
  unfold App.reroute. intros H Hlen.
  destruct (App.trainPosition st) as [pos|]; [|by injection H as <-].
  destruct (App.isSimulating st && Js.truthy pos && Js.truthy (App.destNode st));
    [|by injection H as <-].
  destruct (dijkstra fuel (App.nodes st) (App.edges st) pos (App.destNode st))
    as [seg|]; [|done].
  simpl in H. repeat case_match; injection H as <-; simpl; rewrite length_take; lia.
Qed.

Lemma changeNumStations_logs fuel v st st' :
  App.changeNumStations fuel v st = Some st' ->
  (length (App.logs st) <= 10)%nat -> (length (App.logs st') <= 10)%nat.
Proof.
  unfold App.changeNumStations. intros H Hlen.
  destruct (decide (v = App.numStations st)); [by injection H as <-|].
  assert (length (App.logs (App.initGraph (App.setNumStations v st))) <= 10)%nat
    as Hl.
  { unfold App.initGraph. simpl. destruct (App.countRejected v); [done|].
    simpl. rewrite length_take. lia. }
  destruct (App.countRejected v); [by injection H as <-|].
  by eapply reroute_logs.
Qed.

Lemma step_logs fuel ev st st' :
  App.step fuel ev st = Some st' ->
  (length (App.logs st) <= 10)%nat -> (length (App.logs st') <= 10)%nat.
Proof.
  intros H Hlen. destruct ev as [v|typed|from to w|v|v| | | | ]; simpl in H.
  - by eapply changeNumStations_logs.
  - by eapply changeNumStations_logs.
  - assert (length (App.logs (App.handleAddEdge from to w st)) <= 10)%nat as Hl.
    { unfold App.handleAddEdge. repeat case_match; try done;
        simpl; rewrite length_take; lia. }
    destruct (App.invalidEdge from to w); [by injection H as <-|].
    by eapply reroute_logs.
  - by injection H as <-.
  - by injection H as <-.
  - unfold App.handleCalculatePath in H.
    destruct (negb _ || negb _);
      [injection H as <-; simpl; rewrite length_take; lia|].
    destruct (dijkstra _ _ _ _ _); [|done]. simpl in H.
    repeat case_match; injection H as <-; simpl; rewrite length_take; lia.
  - injection H as <-. unfold App.startSimulation.
    case_match; simpl; rewrite length_take; lia.
  - injection H as <-. simpl. rewrite length_take. lia.
  - injection H as <-. unfold App.handleProceed.
    repeat case_match; try done; simpl; rewrite ?length_take; lia.
Qed.

(** X7. The log never holds more than ten lines: [addLog] cuts it to ten,
    and so does every state that events lead to from the first one. *)
Theorem log_keeps_ten_lines :
  (∀ message st, (length (App.logs (App.addLog message st)) <= 10)%nat ∧
                 head (App.logs (App.addLog message st)) = Some message) ∧
  (∀ fuel evs st,
     App.run fuel evs App.initial = Some st -> (length (App.logs st) <= 10)%nat).
Proof.
  split.
  - intros message st. split; [apply addLog_bounded|done].
  - intros fuel evs.
    assert (∀ st0 st, App.run fuel evs st0 = Some st ->
              (length (App.logs st0) <= 10)%nat ->
              (length (App.logs st) <= 10)%nat) as H.
    { induction evs as [|ev evs IH]; intros st0 st Hrun Hlen; simpl in Hrun.
      - by injection Hrun as <-.
      - destruct (App.step fuel ev st0) as [st1|] eqn:Hstep; [|done].
        simpl in Hrun. apply (IH st1 st Hrun). by eapply step_logs. }
    intros st Hrun. apply (H App.initial st Hrun). simpl. lia.
Qed.

(** ** Stepping the train *)

Lemma indexOf_nodup (l : list string) (i : nat) x :
  NoDup l -> l !! i = Some x -> Js.indexOf x l = Z.of_nat i.
Proof.
  intros Hnd Hi. destruct (indexOf_spec x l) as [[_ Hnot]|(j & Hj & Hlj & _)].
  - exfalso. apply Hnot. by eapply list_elem_of_lookup_2.
  - rewrite Hj. f_equal. by eapply NoDup_lookup.
Qed.

(** One click, told by the index that [indexOf] finds. *)
Lemma handleProceed_at st pos (i : nat) next :
  App.isSimulating st = true -> App.trainPosition st = Some pos ->
  Js.truthy pos = true ->
  Js.indexOf pos (App.shortestPath st) = Z.of_nat i ->
  App.shortestPath st !! S i = Some next ->
  App.shortestPath (App.handleProceed st) = App.shortestPath st ∧
  App.destNode (App.handleProceed st) = App.destNode st ∧
  App.trainPosition (App.handleProceed st) = Some next ∧
  App.isSimulating (App.handleProceed st) = bool_decide (next ≠ App.destNode st).
Proof.
  intros Hsim Hpos Ht Hidx Hnext. unfold App.handleProceed.
  rewrite Hsim, Hpos. simpl. rewrite Ht. simpl. rewrite Hidx.
  pose proof (lookup_lt_Some _ _ _ Hnext) as Hlen.
  rewrite decide_True by lia.
  replace (Z.to_nat (Z.of_nat i + 1)) with (S i) by lia. rewrite Hnext.
  destruct (decide (Some next = Some (App.destNode st))) as [[= ->]|Hne]; simpl.
  - rewrite bool_decide_eq_false_2; [done|]. by intros [].
  - rewrite Hsim, bool_decide_eq_true_2; [done|]. congruence.
Qed.

(** [j] clicks from index [i] of a path without repeated stations. *)
Lemma proceeds_steps st (i j : nat) pos :
  NoDup (App.shortestPath st) ->
  Forall (fun v => Js.truthy v = true) (App.shortestPath st) ->
  last (App.shortestPath st) = Some (App.destNode st) ->
  App.isSimulating st = true -> App.trainPosition st = Some pos ->
  App.shortestPath st !! i = Some pos ->
  (i + 1 < length (App.shortestPath st))%nat ->
  (i + j < length (App.shortestPath st))%nat ->
  App.shortestPath (proceeds j st) = App.shortestPath st ∧
  App.trainPosition (proceeds j st) = App.shortestPath st !! (i + j)%nat ∧
  App.isSimulating (proceeds j st) =
    bool_decide (i + j + 1 < length (App.shortestPath st))%nat.
Proof.
  intros Hnd Hproper Hlast Hsim Hpos Hi Hroom.
  rewrite last_lookup in Hlast.
  induction j as [|j IH]; intros Hj.
  - simpl. rewrite Nat.add_0_r, Hpos, Hi, Hsim.
    by rewrite bool_decide_eq_true_2.
  - destruct (IH ltac:(lia)) as (Hp & Ht & Hs).
    rewrite bool_decide_eq_true_2 in Hs by lia.
    destruct (lookup_lt_is_Some_2 (App.shortestPath st) (i + j)%nat ltac:(lia))
      as [cur Hcur].
    destruct (lookup_lt_is_Some_2 (App.shortestPath st) (S (i + j))%nat ltac:(lia))
      as [next Hnext].
    rewrite Hcur in Ht.
    assert (App.destNode (proceeds j st) = App.destNode st) as Hd.
    { clear. induction j as [|j IHj]; [done|]. simpl. rewrite <- IHj.
      unfold App.handleProceed. by repeat case_match. }
    destruct (handleProceed_at (proceeds j st) cur (i + j)%nat next)
      as (Hp' & _ & Ht' & Hs'); try done.
    + exact (Forall_lookup_1 _ _ _ _ Hproper Hcur).
    + rewrite Hp. by apply indexOf_nodup.
    + by rewrite Hp.
    + change (proceeds (S j) st) with (App.handleProceed (proceeds j st)).
      rewrite Hp', Ht', Hs', Hp, Hd.
      replace (i + S j)%nat with (S (i + j)) by lia.
      split; [done|]. split; [done|].
      destruct (decide (S (i + j) + 1 < length (App.shortestPath st))%nat) as [Hlt|Hge].
      * rewrite !bool_decide_eq_true_2; [done|lia|].
        intros ->. assert (S (i + j) = pred (length (App.shortestPath st))); [|lia].
        by eapply NoDup_lookup.
      * rewrite !bool_decide_eq_false_2; [done|lia|].
        intros Hne. apply Hne.
        replace (pred (length (App.shortestPath st))) with (S (i + j)) in Hlast by lia.
        congruence.
Qed.

(** X8. A journey along a path without repeated stations arrives: with the
    train active at index [i] of such a path that ends at the destination,
    [j] clicks on Proceed put it at index [i + j], still active while that
    is not the last index, and at the last index the train stands at the
    destination with the active flag cleared; the path stays as it is. *)
Theorem proceeds_along_path st (i j : nat) pos :
  NoDup (App.shortestPath st) ->
  Forall (fun v => Js.truthy v = true) (App.shortestPath st) ->
  last (App.shortestPath st) = Some (App.destNode st) ->
  App.isSimulating st = true -> App.trainPosition st = Some pos ->
  App.shortestPath st !! i = Some pos ->
  (i + 1 < length (App.shortestPath st))%nat ->
  (i + j < length (App.shortestPath st))%nat ->
  App.shortestPath (proceeds j st) = App.shortestPath st ∧
  App.trainPosition (proceeds j st) = App.shortestPath st !! (i + j)%nat ∧
  App.isSimulating (proceeds j st) =
    bool_decide (i + j + 1 < length (App.shortestPath st))%nat.
Proof. apply proceeds_steps. Qed.

Lemma proceeds_along_path_witness :
  App.shortestPath
    (proceeds 2 (App.MkState (App.Parsed (App.Int 3)) (MkNode <$> Js.letters 3)
                   [MkEdge "A" "B" 1; MkEdge "B" "C" 1] "A" "C" ["A"; "B"; "C"]
                   (Some "A") true [])) = ["A"; "B"; "C"] ∧
  App.trainPosition
    (proceeds 2 (App.MkState (App.Parsed (App.Int 3)) (MkNode <$> Js.letters 3)
                   [MkEdge "A" "B" 1; MkEdge "B" "C" 1] "A" "C" ["A"; "B"; "C"]
                   (Some "A") true [])) = Some "C" ∧
  App.isSimulating
    (proceeds 2 (App.MkState (App.Parsed (App.Int 3)) (MkNode <$> Js.letters 3)
                   [MkEdge "A" "B" 1; MkEdge "B" "C" 1] "A" "C" ["A"; "B"; "C"]
                   (Some "A") true [])) = false.
Proof.
  exact (proceeds_along_path
           (App.MkState (App.Parsed (App.Int 3)) (MkNode <$> Js.letters 3)
              [MkEdge "A" "B" 1; MkEdge "B" "C" 1] "A" "C" ["A"; "B"; "C"]
              (Some "A") true [])
           0 2 "A"
           ltac:(apply (bool_decide_unpack _); vm_compute; exact I)
           ltac:(repeat constructor)
           eq_refl eq_refl eq_refl eq_refl
           ltac:(simpl; lia) ltac:(simpl; lia)).
Defined.

(** X9. A path that repeats a station can trap the train.  [handleProceed]
    finds the train on the path with [indexOf], that is at the first
    occurrence of its station: when the station after the first [p] is [q]
    and the station after the first [q] is [p], neither being the
    destination, the train alternates between the two for ever and the
    journey never ends. *)
Theorem proceeds_back_and_forth st p q (i j : nat) (n : nat) :
  App.isSimulating st = true -> App.trainPosition st = Some p ->
  Js.truthy p = true -> Js.truthy q = true ->
  Js.indexOf p (App.shortestPath st) = Z.of_nat i ->
  App.shortestPath st !! S i = Some q ->
  Js.indexOf q (App.shortestPath st) = Z.of_nat j ->
  App.shortestPath st !! S j = Some p ->
  p ≠ App.destNode st -> q ≠ App.destNode st ->
  App.isSimulating (proceeds n st) = true ∧
  App.trainPosition (proceeds n st) = Some (if Nat.even n then p else q).
Proof.
  intros Hsim Hpos Hp Hq Hi Hnext Hj Hback Hpd Hqd.
  assert (App.shortestPath (proceeds n st) = App.shortestPath st ∧
          App.destNode (proceeds n st) = App.destNode st ∧
          App.isSimulating (proceeds n st) = true ∧
          App.trainPosition (proceeds n st) = Some (if Nat.even n then p else q))
    as (_ & _ & H); [|exact H].
  induction n as [|n (Hpath & Hdest & Hs & Ht)]; [done|].
  change (proceeds (S n) st) with (App.handleProceed (proceeds n st)).
  rewrite Nat.even_succ, <- Nat.negb_even.
  destruct (Nat.even n); simpl.
  - destruct (handleProceed_at (proceeds n st) p i q) as (-> & -> & -> & ->);
      rewrite ?Hpath; try done.
    rewrite Hdest. by rewrite bool_decide_eq_true_2.
  - destruct (handleProceed_at (proceeds n st) q j p) as (-> & -> & -> & ->);
      rewrite ?Hpath; try done.
    rewrite Hdest. by rewrite bool_decide_eq_true_2.
Qed.

Lemma proceeds_back_and_forth_witness :
  App.isSimulating
    (proceeds 5 (App.MkState (App.Parsed (App.Int 3)) (MkNode <$> Js.letters 3)
                   [MkEdge "A" "B" 1; MkEdge "B" "C" 10; MkEdge "A" "C" 5]
                   "A" "C" ["A"; "B"; "A"; "C"] (Some "B") true [])) = true ∧
  App.trainPosition
    (proceeds 5 (App.MkState (App.Parsed (App.Int 3)) (MkNode <$> Js.letters 3)
                   [MkEdge "A" "B" 1; MkEdge "B" "C" 10; MkEdge "A" "C" 5]
                   "A" "C" ["A"; "B"; "A"; "C"] (Some "B") true [])) = Some "A".
Proof.
  exact (proceeds_back_and_forth
           (App.MkState (App.Parsed (App.Int 3)) (MkNode <$> Js.letters 3)
              [MkEdge "A" "B" 1; MkEdge "B" "C" 10; MkEdge "A" "C" 5]
              "A" "C" ["A"; "B"; "A"; "C"] (Some "B") true [])
           "B" "A" 1 0 5
           eq_refl eq_refl eq_refl eq_refl eq_refl eq_refl eq_refl eq_refl
           ltac:(discriminate) ltac:(discriminate)).
Defined.

(** ** A whole journey *)

Lemma walk_stations nodes edges p c :
  walk nodes edges p c -> Forall (fun v => v ∈ stationIds nodes) p.
Proof. induction 1; by constructor. Qed.

Lemma proper_truthy nodes v :
  properIds nodes -> v ∈ stationIds nodes -> Js.truthy v = true.
Proof.
  unfold properIds. rewrite Forall_forall. intros H Hv. by apply H.
Qed.

(** X10. Calculate, start, proceed: in a state whose links have positive
    weights that are small enough for no sum to be rounded (every weight,
    taken as many times as there are stations, stays below [2^53]) and
    whose station ids are non-empty, with two different selected
    stations joined by some walk, [handleCalculatePath] returns with a path
    of at least two stations from the source to the destination; after
    [startSimulation] the train stands active at the head of the path, and
    the [k]-th click on Proceed puts it at index [k] of the path, active
    until the last index, where it stands at the destination with the
    active flag cleared. *)
Theorem journey_arrives st :
  positiveWeights (App.edges st) -> exactSums (App.nodes st) (App.edges st) ->
  properIds (App.nodes st) ->
  App.sourceNode st ≠ App.destNode st ->
  reachable (App.nodes st) (App.edges st) (App.sourceNode st) (App.destNode st) ->
  ∃ fuel st1,
    App.handleCalculatePath fuel st = Some st1 ∧
    (2 <= length (App.shortestPath st1))%nat ∧
    head (App.shortestPath st1) = Some (App.sourceNode st) ∧
    last (App.shortestPath st1) = Some (App.destNode st) ∧
    ∀ k : nat, (k < length (App.shortestPath st1))%nat ->
      App.trainPosition (proceeds k (App.startSimulation st1))
        = App.shortestPath st1 !! k ∧
      App.isSimulating (proceeds k (App.startSimulation st1))
        = bool_decide (k + 1 < length (App.shortestPath st1))%nat.
Proof.
  intros Hw Hexact Hproper Hne Hreach.
  assert (App.sourceNode st ∈ stationIds (App.nodes st)) as Hs.
  { destruct Hreach as ([|u p] & c & Hwalk & Hh & _); [done|].
    injection Hh as <-. by eapply walk_head_station. }
  assert (App.destNode st ∈ stationIds (App.nodes st)) as He.
  { destruct Hreach as (p & c & Hwalk & _ & Hl). by eapply walk_last_station. }
  pose proof (proper_truthy _ _ Hproper Hs) as Hts.
  pose proof (proper_truthy _ _ Hproper He) as Hte.
  destruct (dijkstra_spec (App.nodes st) (App.edges st) (App.sourceNode st)
              (App.destNode st) Hw Hexact) as (n & r & Hrun & Hcases).
  destruct Hcases as [(_ & [Hf|[Hf|Hf]])|(_ & _ & _ & [(_ & Hno)|(c & Hwalk & Hh & Hl & _)])];
    [congruence|congruence|done|by destruct (Hno Hproper)|].
  assert (2 <= length r)%nat as Hlen.
  { destruct r as [|a [|b r]]; simpl in *; [done| |lia]. congruence. }
  pose proof (Hrun n (Nat.le_refl n)) as Hcalc.
  pose proof (dijkstra_nodup _ _ _ _ _ _ Hw Hcalc) as Hnd.
  eexists n, _. split.
  { unfold App.handleCalculatePath. rewrite Hts, Hte, Hcalc. simpl.
    rewrite bool_decide_eq_true_2 by lia. reflexivity. }
  simpl. split; [done|]. split; [done|]. split; [done|]. intros k Hk.
  unfold App.startSimulation. simpl. rewrite Hts, Hte.
  rewrite bool_decide_eq_true_2 by lia. simpl.
  match goal with |- context [proceeds k ?x] => set (st2 := x) end.
  destruct (proceeds_steps st2 0 k (App.sourceNode st)) as (_ & Ht & Hsim);
    try done; simpl; try lia.
  - eapply Forall_impl; [by eapply walk_stations|].
    intros v Hv. by eapply proper_truthy.
  - by destruct r.
Qed.

Lemma journey_arrives_witness :
  ∃ fuel st1,
    App.handleCalculatePath fuel
      (App.MkState (App.Parsed (App.Int 3)) (MkNode <$> Js.letters 3)
         [MkEdge "A" "B" 1; MkEdge "B" "C" 1; MkEdge "A" "C" 5]
         "A" "C" [] None false []) = Some st1 ∧
    (2 <= length (App.shortestPath st1))%nat ∧
    head (App.shortestPath st1) = Some "A" ∧
    last (App.shortestPath st1) = Some "C" ∧
    ∀ k : nat, (k < length (App.shortestPath st1))%nat ->
      App.trainPosition (proceeds k (App.startSimulation st1))
        = App.shortestPath st1 !! k ∧
      App.isSimulating (proceeds k (App.startSimulation st1))
        = bool_decide (k + 1 < length (App.shortestPath st1))%nat.
Proof.
  apply (journey_arrives
           (App.MkState (App.Parsed (App.Int 3)) (MkNode <$> Js.letters 3)
              [MkEdge "A" "B" 1; MkEdge "B" "C" 1; MkEdge "A" "C" 5]
              "A" "C" [] None false [])).
  - repeat constructor.
  - repeat constructor.
  - repeat constructor.
  - discriminate.
  - exists ["A"; "C"], (5 + 0). split; [|done].
    apply walk_step; [by left| |apply walk_one; by do 2 right; left].
    exists (MkEdge "A" "C" 5). split; [by do 2 right; left|]. split; [done|].
    by left.
Defined.

(** ** The stations of [App] *)

Lemma stationIds_letters (n : nat) : stationIds (MkNode <$> Js.letters n) = Js.letters n.
Proof.
  unfold stationIds. rewrite <- list_fmap_compose. apply list_fmap_id.
Qed.

Lemma reroute_numStations fuel st st' :
  App.reroute fuel st = Some st' -> App.numStations st' = App.numStations st.
Proof.
  unfold App.reroute. intros H.
  destruct (App.trainPosition st) as [pos|]; [|by injection H as <-].
  destruct (App.isSimulating st && Js.truthy pos && Js.truthy (App.destNode st));
    [|by injection H as <-].
  destruct (dijkstra fuel (App.nodes st) (App.edges st) pos (App.destNode st))
    as [seg|]; [|done].
  simpl in H. repeat case_match; by injection H as <-.
Qed.

(** What [setNumStations] and its effects do to the stations. *)
Lemma changeNumStations_stations fuel v st st' :
  App.changeNumStations fuel v st = Some st' ->
  (App.numStations st' = App.numStations st ∧ App.nodes st' = App.nodes st) ∨
  (App.numStations st' = v ∧ App.countRejected v = true ∧
   App.nodes st' = App.nodes st) ∨
  (∃ n, v = App.Parsed (App.Int n) ∧ 2 <= n <= 15 ∧ App.numStations st' = v ∧
        App.nodes st' = MkNode <$> Js.letters (Z.to_nat n)).
Proof.
  unfold App.changeNumStations. intros H.
  destruct (decide (v = App.numStations st)) as [_|_]; [injection H as <-; by left|].
  right. unfold App.initGraph in H. simpl in H.
  destruct (App.countRejected v) eqn:Hrej.
  { injection H as <-. by left. }
  right. destruct v as [[z|]|]; try done. exists z.
  simpl in Hrej. apply orb_false_iff in Hrej as [H1 H2].
  apply bool_decide_eq_false in H1, H2.
  split; [done|]. split; [lia|].
  pose proof (reroute_numStations _ _ _ H) as Hn.
  pose proof (reroute_nodes _ _ _ H) as Hv. by rewrite Hn, Hv.
Qed.

Lemma step_stations fuel ev st st' :
  App.step fuel ev st = Some st' ->
  (App.numStations st' = App.numStations st ∧ App.nodes st' = App.nodes st) ∨
  (App.countRejected (App.numStations st') = true ∧ App.nodes st' = App.nodes st) ∨
  (∃ n, 2 <= n <= 15 ∧ App.numStations st' = App.Parsed (App.Int n) ∧
        App.nodes st' = MkNode <$> Js.letters (Z.to_nat n)).
Proof.
  assert (∀ v, App.changeNumStations fuel v st = Some st' ->
    (App.numStations st' = App.numStations st ∧ App.nodes st' = App.nodes st) ∨
    (App.countRejected (App.numStations st') = true ∧ App.nodes st' = App.nodes st) ∨
    (∃ n, 2 <= n <= 15 ∧ App.numStations st' = App.Parsed (App.Int n) ∧
          App.nodes st' = MkNode <$> Js.letters (Z.to_nat n))) as Hchange.
  { intros v H.
    destruct (changeNumStations_stations _ _ _ _ H)
      as [?|[(-> & ? & ?)|(n & -> & ? & ? & ?)]]; [by left|right; by left|].
    right. right. by exists n. }
  intros H. destruct ev as [v|typed|from to w|v|v| | | | ]; simpl in H.
  - by apply Hchange in H.
  - by apply Hchange in H.
  - left.
    assert (App.numStations (App.handleAddEdge from to w st) = App.numStations st ∧
            App.nodes (App.handleAddEdge from to w st) = App.nodes st) as [Hn Hv].
    { unfold App.handleAddEdge. by repeat case_match. }
    destruct (App.invalidEdge from to w); [by injection H as <-|].
    by rewrite (reroute_numStations _ _ _ H), (reroute_nodes _ _ _ H).
  - injection H as <-. by left.
  - injection H as <-. by left.
  - left. split; [|by eapply handleCalculatePath_nodes].
    unfold App.handleCalculatePath in H.
    destruct (negb _ || negb _); [by injection H as <-|].
    destruct (dijkstra _ _ _ _ _); [|done]. simpl in H.
    destruct (bool_decide _); by injection H as <-.
  - injection H as <-. left. unfold App.startSimulation. by destruct (_ && _).
  - injection H as <-. by left.
  - injection H as <-. left. unfold App.handleProceed. by repeat case_match.
Qed.

Lemma alphabet_nodup : NoDup alphabet.
Proof. apply (bool_decide_unpack _). by vm_compute. Qed.

(** X11. The stations of every state that events lead to from the first
    one are the first [k] letters of the alphabet for some [k] from 2 to 15,
    so no two of them are the same; and whenever the count in the input is
    one that the graph effect accepts, there are that many stations. *)
Theorem stations_are_letters fuel evs st :
  App.run fuel evs App.initial = Some st ->
  lettered st ∧ NoDup (stationIds (App.nodes st)) ∧
  (App.countRejected (App.numStations st) = false ->
   length (App.nodes st) = App.countLength (App.numStations st)).
Proof.
  assert (∀ st0, App.run fuel evs st0 = Some st ->
            lettered st0 ∧
            (App.countRejected (App.numStations st0) = false ->
             length (App.nodes st0) = App.countLength (App.numStations st0)) ->
            lettered st ∧
            (App.countRejected (App.numStations st) = false ->
             length (App.nodes st) = App.countLength (App.numStations st))) as Hrun.
  { induction evs as [|ev evs IH]; intros st0 H HI; simpl in H.
    - by injection H as <-.
    - destruct (App.step fuel ev st0) as [st1|] eqn:Hstep; [|done]. simpl in H.
      apply (IH st1 H). destruct HI as [Hl Hc].
      destruct (step_stations _ _ _ _ Hstep)
        as [[Hn Hv]|[[Hrej Hv]|(n & Hn & Hcount & Hv)]].
      + unfold lettered. by rewrite Hn, Hv.
      + unfold lettered. rewrite Hv. split; [done|]. by rewrite Hrej.
      + split.
        * exists (Z.to_nat n). split; [lia|].
          rewrite Hv, stationIds_letters. apply letters_alphabet. lia.
        * intros _. rewrite Hv, Hcount, length_fmap. unfold Js.letters.
          by rewrite length_fmap, length_seq. }
  intros H. destruct (Hrun _ H) as [Hl Hc].
  { split; [|done]. exists 6%nat. split; [lia|]. reflexivity. }
  split; [done|]. split; [|done].
  destruct Hl as (k & _ & ->). eapply sublist_NoDup; [apply alphabet_nodup|].
  apply sublist_take.
Qed.

Lemma stations_are_letters_witness :
  let st :=
    App.initGraph (App.setNumStations (App.Parsed (App.Int 20))
      (App.initGraph (App.setNumStations (App.Parsed (App.Int 4)) App.initial))) in
  lettered st ∧ NoDup (stationIds (App.nodes st)) ∧
  (App.countRejected (App.numStations st) = false ->
   length (App.nodes st) = App.countLength (App.numStations st)).
Proof.
  cbv zeta.
  apply (stations_are_letters 10
           [App.ChangeNumStations (App.Parsed (App.Int 4));
            App.ChangeNumStations (App.Parsed (App.Int 20))]).
  vm_compute. reflexivity.
Defined.

(** ** The re-route effect, run again *)

Lemma slice0_sublist stop l : Js.slice0 stop l `sublist_of` l.
Proof. unfold Js.slice0. apply sublist_take. Qed.

Lemma slice0_indexOf_without x l : x ∉ Js.slice0 (Js.indexOf x l) l.
Proof.
  destruct (indexOf_spec x l) as [[-> Hnot]|(i & -> & Hi & Hnot)].
  - intros Hin. apply Hnot. eapply elem_of_sublist; [done|apply slice0_sublist].
  - by rewrite (slice0_index _ _ _ Hi).
Qed.

Lemma indexOf_app_first x l1 l2 :
  x ∉ l1 -> Js.indexOf x (l1 ++ x :: l2) = Z.of_nat (length l1).
Proof.
  induction l1 as [|y l1 IH]; intros Hnot; simpl.
  - by rewrite decide_True.
  - apply not_elem_of_cons in Hnot as [Hne Hnot].
    rewrite decide_False by done. rewrite (IH Hnot).
    rewrite decide_False by lia. lia.
Qed.

Lemma slice0_splice x l seg :
  Js.slice0 (Js.indexOf x (Js.slice0 (Js.indexOf x l) l ++ x :: seg))
    (Js.slice0 (Js.indexOf x l) l ++ x :: seg)
  = Js.slice0 (Js.indexOf x l) l.
Proof.
  set (prefix := Js.slice0 (Js.indexOf x l) l).
  rewrite indexOf_app_first by apply slice0_indexOf_without.
  rewrite (slice0_index _ _ x).
  - by rewrite take_app_length.
  - by rewrite list_lookup_middle.
Qed.

(** X12. The re-route effect settles: on a graph with positive weights,
    running it on its own result changes neither path, position nor active
    flag (only the log grows). And a run in transit puts the train on the
    path whether or not it was on it before: if the journey is still active
    afterwards, the position is a station of the path and the path ends at
    the destination. *)
Theorem reroute_settles fuel st st' :
  positiveWeights (App.edges st) ->
  App.reroute fuel st = Some st' ->
  (∃ st'', App.reroute fuel st' = Some st'' ∧
           App.shortestPath st'' = App.shortestPath st' ∧
           App.trainPosition st'' = App.trainPosition st' ∧
           App.isSimulating st'' = App.isSimulating st') ∧
  (Js.truthy_opt (App.trainPosition st) = true ->
   Js.truthy (App.destNode st) = true ->
   onPath st' ∧
   (App.isSimulating st' = true ->
    last (App.shortestPath st') = Some (App.destNode st'))).
Proof.
  intros Hw Hrun. pose proof Hrun as Hrun0. unfold App.reroute in Hrun.
  destruct (App.trainPosition st) as [pos|] eqn:Hpos; cycle 1.
  { injection Hrun as <-. split; [by exists st|]. done. }
  destruct (App.isSimulating st) eqn:Hsim; cycle 1.
  { injection Hrun as <-. split; [by exists st|]. intros _ _.
    split; [intros ?|intros ?]; congruence. }
  destruct (Js.truthy pos) eqn:Htp; cycle 1.
  { injection Hrun as <-. split; [by exists st|]. simpl. by rewrite Htp. }
  destruct (Js.truthy (App.destNode st)) eqn:Htd; cycle 1.
  { injection Hrun as <-. split; [by exists st|]. done. }
  simpl in Hrun.
  destruct (dijkstra fuel (App.nodes st) (App.edges st) pos (App.destNode st))
    as [seg|] eqn:Hseg; [|done].
  simpl in Hrun. destruct seg as [|x seg].
  { simpl in Hrun. injection Hrun as <-. split.
    - eexists. split; [reflexivity|done].
    - intros _ _. split; intros ?; done. }
  destruct (dijkstra_ends _ _ _ _ _ _ Hw Hseg ltac:(done)) as [Hhead Hlast].
  simpl in Hhead. injection Hhead as ->.
  rewrite bool_decide_eq_true_2 in Hrun by (simpl; lia).
  set (prefix := Js.slice0 (Js.indexOf pos (App.shortestPath st)) (App.shortestPath st))
    in *.
  assert (App.shortestPath st' = prefix ++ pos :: seg ∧
          App.trainPosition st' = Some pos ∧ App.isSimulating st' = true ∧
          App.destNode st' = App.destNode st ∧ App.nodes st' = App.nodes st ∧
          App.edges st' = App.edges st) as (Hp & Ht & Hs & Hd & Hn & He).
  { destruct (decide (prefix ++ pos :: seg ≠ App.shortestPath st)) as [Hne|Heq].
    - by injection Hrun as <-.
    - apply dec_stable in Heq. injection Hrun as <-. simpl. by repeat split. }
  split.
  - unfold App.reroute. rewrite Ht, Hs, Htp, Hd, Htd, Hn, He, Hseg. simpl.
    rewrite Hp. unfold prefix. rewrite slice0_splice.
    rewrite decide_False by (by intros H; apply H).
    eexists. split; [reflexivity|done].
  - intros _ _. split.
    + intros _. exists pos. split; [done|]. rewrite Hp.
      apply elem_of_app. right. by left.
    + intros _. rewrite Hp, Hd, last_app. by rewrite Hlast.
Qed.

Lemma reroute_settles_witness :
  let st' :=
    App.addLog "Path updated. New route: A -> B -> A -> C"
      (App.setShortestPath ["A"; "B"; "A"; "C"]
         (App.addLog
            "Network change detected. Recalculating path from current station B."
            (App.MkState (App.Parsed (App.Int 3)) (MkNode <$> Js.letters 3)
               [MkEdge "A" "B" 1; MkEdge "B" "C" 10; MkEdge "A" "C" 5]
               "A" "C" ["A"; "B"; "C"] (Some "B") true []))) in
  (∃ st'', App.reroute 10 st' = Some st'' ∧
           App.shortestPath st'' = App.shortestPath st' ∧
           App.trainPosition st'' = App.trainPosition st' ∧
           App.isSimulating st'' = App.isSimulating st') ∧
  (Js.truthy_opt (Some "B") = true -> Js.truthy "C" = true ->
   onPath st' ∧
   (App.isSimulating st' = true ->
    last (App.shortestPath st') = Some (App.destNode st'))).
Proof.
  cbv zeta.
  apply (reroute_settles 10
           (App.MkState (App.Parsed (App.Int 3)) (MkNode <$> Js.letters 3)
              [MkEdge "A" "B" 1; MkEdge "B" "C" 10; MkEdge "A" "C" 5]
              "A" "C" ["A"; "B"; "C"] (Some "B") true [])).
  - repeat constructor.
  - vm_compute. reflexivity.
Defined.

(** ** An active journey has a train *)

Lemma dijkstra_truthy fuel nodes edges s e r :
  positiveWeights edges -> properIds nodes ->
  dijkstra fuel nodes edges s e = Some r -> Forall (fun v => Js.truthy v = true) r.
Proof.
  intros Hw Hproper Hrun.
  destruct (dijkstra_route _ _ _ _ _ _ Hw Hrun) as [->|(c & Hwalk & _)];
    [constructor|].
  eapply Forall_impl; [by eapply walk_stations|].
  intros v Hv. by eapply proper_truthy.
Qed.

(** What the invariant below says of a state. *)
Local Abbreviation manned st :=
  (hasTrain st ∧ (App.isSimulating st = true -> App.shortestPath st ≠ [])).

Lemma reroute_manned fuel st st' :
  positiveWeights (App.edges st) -> properIds (App.nodes st) ->
  App.reroute fuel st = Some st' -> manned st -> manned st'.
Proof.
  intros Hw Hproper Hrun Hm. pose proof Hm as [[Hpos Hpath] Hne].
  unfold App.reroute in Hrun.
  destruct (App.trainPosition st) as [pos|] eqn:Hp; [|by injection Hrun as <-].
  destruct (App.isSimulating st && Js.truthy pos && Js.truthy (App.destNode st))
    eqn:Hgo; [|by injection Hrun as <-].
  destruct (dijkstra fuel (App.nodes st) (App.edges st) pos (App.destNode st))
    as [seg|] eqn:Hseg; [|done].
  pose proof (dijkstra_truthy _ _ _ _ _ _ Hw Hproper Hseg) as Hsegt.
  simpl in Hrun. case_bool_decide as Hlen.
  - assert (manned (App.setShortestPath
              (Js.slice0 (Js.indexOf pos (App.shortestPath st)) (App.shortestPath st)
               ++ seg) st)) as Hm'.
    { unfold hasTrain. simpl. rewrite Hp. repeat split; [done| |].
      - apply Forall_app. split; [|done].
        unfold Js.slice0. by apply Forall_take.
      - intros _ Happ. apply app_eq_nil in Happ as [_ ->]. simpl in Hlen. lia. }
    case_decide; injection Hrun as <-; [exact Hm'|].
    unfold hasTrain. simpl. by rewrite Hp.
  - injection Hrun as <-. unfold hasTrain. simpl. done.
Qed.

Lemma changeNumStations_manned fuel v st st' :
  positiveWeights (App.edges st) -> properIds (App.nodes st) ->
  App.changeNumStations fuel v st = Some st' -> manned st -> manned st'.
Proof.
  intros Hw Hproper Hrun Hm. unfold App.changeNumStations in Hrun.
  destruct (decide (v = App.numStations st)) as [_|_]; [by injection Hrun as <-|].
  unfold App.initGraph in Hrun. simpl in Hrun.
  destruct (App.countRejected v); [by injection Hrun as <-|].
  eapply reroute_manned; [| |exact Hrun|]; simpl.
  - constructor.
  - apply letters_proper.
  - unfold hasTrain. simpl. repeat split; [done|constructor|done].
Qed.

Lemma handleProceed_manned st : manned st -> manned (App.handleProceed st).
Proof.
  intros Hm. pose proof Hm as [[Hpos Hpath] Hne]. unfold App.handleProceed.
  destruct (negb (App.isSimulating st) || negb (Js.truthy_opt (App.trainPosition st)));
    [done|].
  case_decide as Hidx; [|done].
  set (pos := default "" (App.trainPosition st)) in *.
  assert (∃ next, App.shortestPath st
                    !! Z.to_nat (Js.indexOf pos (App.shortestPath st) + 1) = Some next)
    as (next & Hnext).
  { apply lookup_lt_is_Some.
    destruct (indexOf_spec pos (App.shortestPath st)) as [[Hi _]|(i & Hi & _)]; lia. }
  rewrite Hnext.
  pose proof (Forall_lookup_1 _ _ _ _ Hpath Hnext) as Ht.
  case_decide; unfold hasTrain; simpl; by repeat split.
Qed.

Lemma step_manned fuel ev st st' :
  positiveWeights (App.edges st) -> properIds (App.nodes st) ->
  App.step fuel ev st = Some st' -> manned st -> manned st'.
Proof.
  intros Hw Hproper H Hm.
  destruct ev as [v|typed|from to w|v|v| | | | ]; simpl in H.
  - by eapply changeNumStations_manned.
  - by eapply changeNumStations_manned.
  - pose proof (handleAddEdge_positive from to w st Hw) as Hw'.
    assert (App.nodes (App.handleAddEdge from to w st) = App.nodes st ∧
            manned (App.handleAddEdge from to w st)) as [Hn Hm'].
    { unfold App.handleAddEdge. by repeat case_match. }
    destruct (App.invalidEdge from to w); [by injection H as <-|].
    eapply reroute_manned; [| |exact H|]; [done|by rewrite Hn|done].
  - by injection H as <-.
  - by injection H as <-.
  - unfold App.handleCalculatePath in H.
    destruct (negb _ || negb _); [by injection H as <-|].
    destruct (dijkstra _ _ _ _ _) as [path|] eqn:Hpath; [|done]. simpl in H.
    pose proof (dijkstra_truthy _ _ _ _ _ _ Hw Hproper Hpath) as Ht.
    destruct (bool_decide _); injection H as <-; unfold hasTrain; simpl;
      by repeat split.
  - injection H as <-. unfold App.startSimulation.
    case_bool_decide as Hlen; simpl; [|done].
    destruct (Js.truthy (App.sourceNode st)) eqn:Hs; [|done].
    destruct (Js.truthy (App.destNode st)); [|done].
    destruct Hm as [[_ Hpath] _]. unfold hasTrain. simpl. repeat split; try done.
    intros _ Hnil. rewrite Hnil in Hlen. simpl in Hlen. lia.
  - injection H as <-. destruct Hm as [[_ Hpath] _]. by unfold hasTrain.
  - injection H as <-. by apply handleProceed_manned.
Qed.

(** X13. In every state that events lead to from the first one, an active
    journey has a train position that is a non-empty id and a path that is
    not empty, and no empty id stands on the path. So whenever the button
    "Proceed to Next Station" is enabled, the guard at the head of
    [handleProceed] lets the click through. *)
Theorem active_journey_has_train fuel evs st :
  App.run fuel evs App.initial = Some st ->
  hasTrain st ∧
  (App.isSimulating st = true -> App.shortestPath st ≠ []) ∧
  (View.proceedDisabled st = false ->
   negb (App.isSimulating st) || negb (Js.truthy_opt (App.trainPosition st)) = false).
Proof.
  assert (∀ st0, App.run fuel evs st0 = Some st ->
            positiveWeights (App.edges st0) -> properIds (App.nodes st0) ->
            manned st0 -> manned st) as Hrun.
  { induction evs as [|ev evs IH]; intros st0 H Hw Hproper Hm; simpl in H.
    - by injection H as <-.
    - destruct (App.step fuel ev st0) as [st1|] eqn:Hstep; [|done]. simpl in H.
      apply (IH st1 H).
      + by eapply step_positive.
      + by eapply step_proper.
      + by eapply step_manned. }
  intros H. destruct (Hrun _ H) as [[Hpos Hpath] Hne].
  - constructor.
  - apply (letters_proper 6).
  - unfold hasTrain. simpl. repeat split; [done|constructor|done].
  - split; [done|]. split; [done|]. unfold View.proceedDisabled.
    intros [Hsim _]%orb_false_iff. apply negb_false_iff in Hsim.
    by rewrite Hsim, (Hpos Hsim).
Qed.

Lemma active_journey_has_train_witness :
  let st :=
    App.startSimulation
      (App.MkState (App.Parsed (App.Int 6)) (MkNode <$> Js.letters 6)
         [MkEdge "A" "B" 3] "A" "B" ["A"; "B"] None false
         ["Shortest path from A to B: A -> B"; "Simulation stopped.";
          "Added railroad between A and B with distance 3.";
          "Generated 6 new stations."; "Simulation stopped."]) in
  hasTrain st ∧
  (App.isSimulating st = true -> App.shortestPath st ≠ []) ∧
  (View.proceedDisabled st = false ->
   negb (App.isSimulating st) || negb (Js.truthy_opt (App.trainPosition st)) = false).
Proof.
  cbv zeta.
  apply (active_journey_has_train 10
           [App.AddEdge "A" "B" (App.Int 3); App.SelectSource "A";
            App.SelectDest "B"; App.CalculatePath; App.StartJourney]).
  vm_compute. reflexivity.
Defined.

(** ** The links and weights of [RailwayMap] *)

Lemma mapStep_weighted ev st :
  weighted st ∧ (∀ a b, (a, b) ∈ RailwayMap.edges st -> a ≠ b) ->
  weighted (mapStep ev st) ∧
  (∀ a b, (a, b) ∈ RailwayMap.edges (mapStep ev st) -> a ≠ b).
Proof.
  intros [Hw Hd]. destruct ev as [count| |key val|v|v|v]; simpl; try done.
  - split; intros a b Hin; simpl in Hin; by apply elem_of_nil in Hin.
  - unfold RailwayMap.addEdge. case_decide as Hends; [done|].
    destruct (list_find _ (RailwayMap.edges st)) as [[i p]|]; [done|].
    split; intros a b Hin; simpl in *.
    + apply elem_of_app in Hin as [Hin|Hin%list_elem_of_singleton].
      * apply lookup_insert_is_Some'. right. by apply Hw.
      * injection Hin as -> ->. rewrite lookup_insert_eq. by eexists.
    + apply elem_of_app in Hin as [Hin|Hin%list_elem_of_singleton].
      * by apply Hd.
      * by injection Hin as -> ->.
  - split; [|done]. intros a b Hin. simpl.
    apply lookup_insert_is_Some'. right. by apply Hw.
Qed.

(** X14. Whatever is done in [RailwayMap], from its first state on, every
    link has a weight under its key in [weights], and no link joins a
    station to itself. *)
Theorem map_links_have_weights evs :
  weighted (mapRun evs RailwayMap.initial) ∧
  (∀ a b, (a, b) ∈ RailwayMap.edges (mapRun evs RailwayMap.initial) -> a ≠ b).
Proof.
  assert (∀ st, weighted st ∧ (∀ a b, (a, b) ∈ RailwayMap.edges st -> a ≠ b) ->
            weighted (mapRun evs st) ∧
            (∀ a b, (a, b) ∈ RailwayMap.edges (mapRun evs st) -> a ≠ b)) as Hrun.
  { induction evs as [|ev evs IH]; intros st HI; [done|].
    simpl. apply IH. by apply mapStep_weighted. }
  apply Hrun. split; intros a b Hin; simpl in Hin; by apply elem_of_nil in Hin.
Qed.

(** X15. [makeEdgeKey] on ids of one character, as all generated station
    ids are: two pairs have the same key exactly when they are the same
    unordered pair. For longer ids the key can confuse two pairs. *)
Theorem makeEdgeKey_one_char :
  (∀ a b c d,
     oneChar a -> oneChar b -> oneChar c -> oneChar d ->
     RailwayMap.makeEdgeKey a b = RailwayMap.makeEdgeKey c d ↔ samePair (a, b) (c, d)) ∧
  (∃ a b c d,
     RailwayMap.makeEdgeKey a b = RailwayMap.makeEdgeKey c d ∧ ¬ samePair (a, b) (c, d)).
Proof.
  split.
  - intros a b c d Ha Hb Hc Hd. split; [|apply samePair_key].
    destruct a as [|x [|??]]; try done. destruct b as [|y [|??]]; try done.
    destruct c as [|z [|??]]; try done. destruct d as [|t [|??]]; try done.
    unfold RailwayMap.makeEdgeKey, samePair. simpl.
    destruct (String.ltb _ _), (String.ltb _ _); simpl; intros [= -> ->]; auto.
  - exists "A-B", "C", "A", "B-C". split; [reflexivity|].
    unfold samePair. simpl. intros [[? _]|[? _]]; discriminate.
Qed.

(** X16. Right after [changeStationCount], whatever the integer asked for, the
    form proposes the link from "A" to "B" (there are always two stations,
    so the fall-back to the first station is never taken), and [addEdge]
    then makes that link the only one, with the form's weight under the key
    "A-B" and no alert. *)
Theorem addEdge_after_changeStationCount count st :
  RailwayMap.newEdgeStart (RailwayMap.changeStationCount count st) = "A" ∧
  RailwayMap.newEdgeEnd (RailwayMap.changeStationCount count st) = "B" ∧
  RailwayMap.edges (RailwayMap.addEdge (RailwayMap.changeStationCount count st))
    = [("A", "B")] ∧
  RailwayMap.weights (RailwayMap.addEdge (RailwayMap.changeStationCount count st))
    = {["A-B" := RailwayMap.newEdgeWeight st]} ∧
  RailwayMap.alerts (RailwayMap.addEdge (RailwayMap.changeStationCount count st))
    = RailwayMap.alerts st.
Proof.
  unfold RailwayMap.changeStationCount, RailwayMap.generateStations.
  assert (∃ n, Z.to_nat (Z.max 2 (Z.min 26 count)) = S (S n)) as [n ->].
  { exists (Z.to_nat (Z.max 2 (Z.min 26 count)) - 2)%nat. lia. }
  unfold Js.letters. simpl. done.
Qed.

(** ** Which links are drawn as part of the path *)

(** X17. The test of the link callbacks of the drawing. A link that passes
    it has its two ends next to each other on the path, in one order or the
    other. On a path without a repeated station (as [dijkstra] returns
    them) the converse holds too, so exactly the links between neighbours
    on the path are drawn as part of it. On a path with a repeated station
    a link that the path takes can fail the test. *)
Theorem inPath_neighbours :
  (∀ path d,
     View.inPath path d = true ->
     nextTo path (source d) (target d) ∨ nextTo path (target d) (source d)) ∧
  (∀ path d,
     NoDup path ->
     nextTo path (source d) (target d) ∨ nextTo path (target d) (source d) ->
     View.inPath path d = true) ∧
  (∃ path d,
     nextTo path (source d) (target d) ∧ View.inPath path d = false).
Proof.
  split; [|split].
  - intros path d. unfold View.inPath.
    intros [[Hs Ht]%andb_true_iff Habs]%andb_true_iff.
    apply bool_decide_eq_true in Hs, Ht, Habs.
    destruct (indexOf_spec (source d) path) as [[Hi _]|(i & Hi & Hli & _)]; [lia|].
    destruct (indexOf_spec (target d) path) as [[Hj _]|(j & Hj & Hlj & _)]; [lia|].
    rewrite Hi, Hj in Habs.
    destruct (decide (j = S i)) as [->|Hne].
    + left. by exists i.
    + right. exists j. split; [done|]. by replace (S j) with i by lia.
  - intros path d Hnd Hnext. unfold View.inPath.
    destruct Hnext as [(k & Ha & Hb)|(k & Ha & Hb)];
      rewrite (indexOf_nodup _ _ _ Hnd Ha), (indexOf_nodup _ _ _ Hnd Hb);
      rewrite !bool_decide_eq_true_2; try done; lia.
  - exists ["A"; "B"; "A"; "C"], (MkEdge "A" "C" 5). split; [|reflexivity].
    by exists 2%nat.
Qed.

(** ** The links of [App] *)

Lemma handleAddEdge_no_loop from to weight st :
  Forall (fun edge => ¬ selfLoop edge) (App.edges st) ->
  Forall (fun edge => ¬ selfLoop edge) (App.edges (App.handleAddEdge from to weight st)).
Proof.
  intros Hl. destruct (App.invalidEdge from to weight) eqn:Hinv.
  - unfold App.handleAddEdge. by rewrite Hinv.
  - destruct weight as [w|]; [|done].
    assert (from ≠ to) as Hne.
    { unfold App.invalidEdge in Hinv. apply orb_false_iff in Hinv as [Hinv _].
      by apply bool_decide_eq_false in Hinv. }
    destruct (handleAddEdge_edges from to w st Hinv)
      as [(i & edge & Hi & _ & _ & ->)|(Hnone & ->)].
    + apply Forall_insert; [done|].
      exact (Forall_lookup_1 _ _ _ _ Hl Hi).
    + apply Forall_app. split; [done|]. by repeat constructor.
Qed.

Lemma step_no_loop fuel ev st st' :
  App.step fuel ev st = Some st' ->
  Forall (fun edge => ¬ selfLoop edge) (App.edges st) ->
  Forall (fun edge => ¬ selfLoop edge) (App.edges st').
Proof.
  assert (∀ v, App.changeNumStations fuel v st = Some st' ->
            Forall (fun edge => ¬ selfLoop edge) (App.edges st) ->
            Forall (fun edge => ¬ selfLoop edge) (App.edges st')) as Hchange.
  { unfold App.changeNumStations. intros v H Hl.
    destruct (decide (v = App.numStations st)) as [_|_]; [by injection H as <-|].
    assert (Forall (fun edge => ¬ selfLoop edge)
              (App.edges (App.initGraph (App.setNumStations v st)))) as Hl'.
    { destruct (initGraph_edges (App.setNumStations v st)) as [-> | ->]; [done|].
      constructor. }
    destruct (App.countRejected v); [by injection H as <-|].
    apply reroute_edges in H. by rewrite H. }
  intros H Hl. destruct ev as [v|typed|from to w|v|v| | | | ]; simpl in H.
  - by eapply Hchange.
  - by eapply Hchange.
  - pose proof (handleAddEdge_no_loop from to w st Hl) as Hl'.
    destruct (App.invalidEdge from to w); [by injection H as <-|].
    apply reroute_edges in H. by rewrite H.
  - by injection H as <-.
  - by injection H as <-.
  - apply handleCalculatePath_edges in H. by rewrite H.
  - injection H as <-. by rewrite startSimulation_edges.
  - by injection H as <-.
  - injection H as <-. by rewrite handleProceed_edges.
Qed.

(** X18. Every link of every state that events lead to from the first one
    has a positive weight and joins two different ids: what [handleAddEdge]
    lets through is all that ever enters the link list, and a weight update
    keeps the ends of the link it updates. *)
Theorem links_positive_and_proper fuel evs st edge :
  App.run fuel evs App.initial = Some st -> edge ∈ App.edges st ->
  0 < weight edge ∧ ¬ selfLoop edge.
Proof.
  assert (∀ st0, App.run fuel evs st0 = Some st ->
            positiveWeights (App.edges st0) ->
            Forall (fun edge => ¬ selfLoop edge) (App.edges st0) ->
            positiveWeights (App.edges st) ∧
            Forall (fun edge => ¬ selfLoop edge) (App.edges st)) as Hrun.
  { induction evs as [|ev evs IH]; intros st0 H Hw Hl; simpl in H.
    - by injection H as <-.
    - destruct (App.step fuel ev st0) as [st1|] eqn:Hstep; [|done]. simpl in H.
      apply (IH st1 H); [by eapply step_positive|by eapply step_no_loop]. }
  intros H Hin. destruct (Hrun _ H) as [Hw Hl]; [constructor..|].
  unfold positiveWeights in Hw. rewrite Forall_forall in Hw, Hl. split; auto.
Qed.

Lemma links_positive_and_proper_witness :
  0 < weight (MkEdge "A" "B" 7) ∧ ¬ selfLoop (MkEdge "A" "B" 7).
Proof.
  apply (links_positive_and_proper 10
           [App.AddEdge "A" "B" (App.Int 3); App.AddEdge "C" "C" (App.Int 1);
            App.AddEdge "B" "A" (App.Int 7)]
           (App.handleAddEdge "B" "A" (App.Int 7)
              (App.handleAddEdge "C" "C" (App.Int 1)
                 (App.handleAddEdge "A" "B" (App.Int 3) App.initial)))).
  - vm_compute. reflexivity.
  - vm_compute. by left.
Defined.

(** ** The train and the path, over many events *)

(** X19. Once the train is on the path it stays there, whatever else
    happens, as long as no journey is started anew: on a graph with positive
    weights, a sequence of events without "Start Journey" leads from a state
    whose active train stands on the path to a state of which the same
    holds. *)
Theorem train_stays_on_path fuel evs st st' :
  positiveWeights (App.edges st) -> App.StartJourney ∉ evs ->
  App.run fuel evs st = Some st' -> onPath st -> onPath st'.
Proof.
  revert st. induction evs as [|ev evs IH]; intros st Hw Hno H Hon; simpl in H.
  - by injection H as <-.
  - destruct (App.step fuel ev st) as [st1|] eqn:Hstep; [|done]. simpl in H.
    apply not_elem_of_cons in Hno as [Hne Hno].
    apply (IH st1); [by eapply step_positive|done..|].
    eapply step_onPath; [exact Hw| |exact Hstep|exact Hon].
    intros ->. done.
Qed.

Lemma train_stays_on_path_witness :
  onPath (App.handleProceed
            (App.addLog "Path updated. New route: A -> B -> D -> C"
               (App.setShortestPath ["A"; "B"; "D"; "C"]
                  (App.addLog
                     "Network change detected. Recalculating path from current station B."
                     (App.addLog "Added railroad between D and C with distance 1."
                        (App.setEdges
                           [MkEdge "A" "B" 1; MkEdge "B" "C" 10; MkEdge "B" "D" 1;
                            MkEdge "D" "C" 1]
                           (App.MkState (App.Parsed (App.Int 4)) (MkNode <$> Js.letters 4)
                              [MkEdge "A" "B" 1; MkEdge "B" "C" 10; MkEdge "B" "D" 1]
                              "A" "C" ["A"; "B"; "C"] (Some "B") true []))))))).
Proof.
  apply (train_stays_on_path 10
           [App.AddEdge "D" "C" (App.Int 1); App.Proceed]
           (App.MkState (App.Parsed (App.Int 4)) (MkNode <$> Js.letters 4)
              [MkEdge "A" "B" 1; MkEdge "B" "C" 10; MkEdge "B" "D" 1]
              "A" "C" ["A"; "B"; "C"] (Some "B") true [])).
  - repeat constructor.
  - intros Hin. apply elem_of_cons in Hin as [Hin|Hin]; [discriminate|].
    apply elem_of_cons in Hin as [Hin|Hin]; [discriminate|].
    by apply elem_of_nil in Hin.
  - vm_compute. reflexivity.
  - intros _. exists "B". split; [reflexivity|]. by right; left.
Defined.

(** ** The re-route effect with the train on the path *)

(** X20. In transit with the train on the path, found by [indexOf] at index
    [i]: when [dijkstra] from the train position to the destination returns
    a segment that is not empty, the re-route effect returns, the segment
    starts at the train position, position and active flag stay, the path
    becomes the first [i] stations of the old path followed by the segment,
    and its prefix up to and including the position is the one it had
    before. *)
Theorem reroute_keeps_prefix fuel st pos seg (i : nat) :
  positiveWeights (App.edges st) ->
  App.isSimulating st = true -> App.trainPosition st = Some pos ->
  Js.truthy pos = true -> Js.truthy (App.destNode st) = true ->
  Js.indexOf pos (App.shortestPath st) = Z.of_nat i ->
  dijkstra fuel (App.nodes st) (App.edges st) pos (App.destNode st) = Some seg ->
  seg ≠ [] ->
  ∃ st',
    App.reroute fuel st = Some st' ∧
    head seg = Some pos ∧
    App.trainPosition st' = Some pos ∧
    App.isSimulating st' = true ∧
    App.shortestPath st' = take i (App.shortestPath st) ++ seg ∧
    take (S i) (App.shortestPath st') = take (S i) (App.shortestPath st).
Proof.
  intros Hw Hsim Hpos Htp Htd Hi Hseg Hne.
  destruct (dijkstra_ends _ _ _ _ _ _ Hw Hseg Hne) as [Hhead _].
  destruct (indexOf_spec pos (App.shortestPath st)) as [[Hidx _]|(j & Hidx & Hj & _)];
    [lia|].
  assert (j = i) as -> by lia.
  assert (Js.slice0 (Js.indexOf pos (App.shortestPath st)) (App.shortestPath st)
          = take i (App.shortestPath st)) as Hslice.
  { rewrite Hi. by eapply slice0_index. }
  assert (take (S i) (take i (App.shortestPath st) ++ seg)
          = take (S i) (App.shortestPath st)) as Hprefix.
  { destruct seg as [|x seg]; [done|]. simpl in Hhead. injection Hhead as ->.
    by apply take_splice. }
  unfold App.reroute. rewrite Hpos, Hsim, Htp, Htd, Hseg. simpl.
  rewrite bool_decide_eq_true_2 by (destruct seg; [done|simpl; lia]).
  rewrite Hslice.
  destruct (decide (take i (App.shortestPath st) ++ seg ≠ App.shortestPath st))
    as [Hnew|Hold].
  - eexists. split; [reflexivity|]. simpl. by rewrite Hpos, Hsim.
  - apply dec_stable in Hold. eexists. split; [reflexivity|]. simpl.
    rewrite Hpos, Hsim. by rewrite <- Hold at 1 3.
Qed.

Lemma reroute_keeps_prefix_witness :
  ∃ st',
    App.reroute 10
      (App.MkState (App.Parsed (App.Int 3)) (MkNode <$> Js.letters 3)
         [MkEdge "A" "B" 1; MkEdge "B" "C" 10; MkEdge "A" "C" 5]
         "A" "C" ["A"; "B"; "C"] (Some "B") true []) = Some st' ∧
    head ["B"; "A"; "C"] = Some "B" ∧
    App.trainPosition st' = Some "B" ∧
    App.isSimulating st' = true ∧
    App.shortestPath st' = take 1 ["A"; "B"; "C"] ++ ["B"; "A"; "C"] ∧
    take 2 (App.shortestPath st') = take 2 ["A"; "B"; "C"].
Proof.
  apply (reroute_keeps_prefix 10
           (App.MkState (App.Parsed (App.Int 3)) (MkNode <$> Js.letters 3)
              [MkEdge "A" "B" 1; MkEdge "B" "C" 10; MkEdge "A" "C" 5]
              "A" "C" ["A"; "B"; "C"] (Some "B") true [])
           "B" ["B"; "A"; "C"] 1).
  - repeat constructor.
  - reflexivity.
  - reflexivity.
  - reflexivity.
  - reflexivity.
  - reflexivity.
  - by vm_compute.
  - discriminate.
Defined.
